(** * dfmon: filesystem capacity monitor (main.go)

    A shallow embedding of the pipeline of [main.go]
    (mount filter, usage analyzer, sorter, byte formatter, color tiers)
    together with the parts of the Go runtime library the pipeline
    relies on: unsigned 64-bit arithmetic, IEEE-754 binary64 arithmetic,
    [math.Log], [math.Pow], [strconv] formatting, [strings.Split] and
    [sort.Slice]. *)

From Stdlib Require Import ZArith List Bool Lia String Ascii Permutation.
From Stdlib Require Import DecimalString DecimalN DecimalPos.
From Stdlib Require Import Floats.SpecFloat.
Import ListNotations.
Open Scope string_scope.
Open Scope list_scope.
Open Scope Z_scope.

(* ===================================================================== *)
(** * Part I: definitions *)
(* ===================================================================== *)

(** ** Machine integers *)

Module U64.
(** [uint64]: values are kept in [0, 2^64); every operation wraps. *)
Definition modulus : Z := 2 ^ 64.
Definition wrap (x : Z) : Z := x mod modulus.
Definition mul (x y : Z) : Z := wrap (x * y).
Definition sub (x y : Z) : Z := wrap (x - y).
Definition in_range (x : Z) : Prop := 0 <= x < modulus.
End U64.

Module I64.
(** [int] on a 64-bit target. *)
Definition min_int : Z := - 2 ^ 63.
Definition max_int : Z := 2 ^ 63 - 1.
End I64.

(** ** IEEE-754 binary64 ([float64])

    Values are [spec_float]s of the standard library with 53 bits of
    precision and maximal exponent 1024; every operation rounds to
    nearest, ties to even, as the hardware does. *)

Module F64.
Definition float64 := spec_float.
Definition prec : Z := 53.
Definition emax : Z := 1024.

Definition add : float64 -> float64 -> float64 := SFadd prec emax.
Definition sub : float64 -> float64 -> float64 := SFsub prec emax.
Definition mul : float64 -> float64 -> float64 := SFmul prec emax.
Definition div : float64 -> float64 -> float64 := SFdiv prec emax.

(** Go's [<], [>=], [==] on floats: false as soon as a NaN is involved. *)
Definition lt (x y : float64) : bool := SFltb x y.
Definition gt (x y : float64) : bool := SFltb y x.
Definition ge (x y : float64) : bool := SFleb y x.
Definition eq (x y : float64) : bool := SFeqb x y.

(** Conversion [float64(n)] of an integer. *)
Definition of_Z (n : Z) : float64 := binary_normalize prec emax n 0 false.

(** The float with a given IEEE bit pattern ([math.Float64frombits]). *)
Definition of_bits (w : Z) : float64 :=
  let s := Z.testbit w 63 in
  let e := Z.land (Z.shiftr w 52) 2047 in
  let m := Z.land w (2 ^ 52 - 1) in
  if e =? 0 then
    match m with
    | Zpos p => S754_finite s p (-1074)
    | _ => S754_zero s
    end
  else if e =? 2047 then
    (if m =? 0 then S754_infinity s else S754_nan)
  else S754_finite s (Z.to_pos (m + 2 ^ 52)) (e - 1075).

Definition zero : float64 := S754_zero false.
Definition one : float64 := of_Z 1.
Definition two : float64 := of_Z 2.
Definition half : float64 := of_bits 0x3FE0000000000000.

Definition is_finite (x : float64) : bool :=
  match x with
  | S754_zero _ | S754_finite _ _ _ => true
  | _ => false
  end.

(** Conversion [int(x)]: truncation toward zero.  When the value does
    not fit (or is a NaN) the Go specification leaves the result to the
    implementation; amd64's [CVTTSD2SQ] yields the smallest integer. *)
Definition to_int (x : float64) : Z :=
  match x with
  | S754_zero _ => 0
  | S754_finite s m e =>
      let a := if 0 <=? e then Z.shiftl (Zpos m) e
               else Z.shiftr (Zpos m) (- e) in
      let v := if s then - a else a in
      if (I64.min_int <=? v) && (v <=? I64.max_int) then v else I64.min_int
  | _ => I64.min_int
  end.
End F64.
Import F64.

(** ** [strconv] / [fmt] formatting *)

Module Strconv.
(** [%d] of a non-negative integer. *)
Definition FormatUint (n : Z) : string :=
  NilZero.string_of_uint (N.to_uint (Z.to_N n)).

Definition round_half_even (num den : Z) : Z :=
  let q := num / den in
  let r := num mod den in
  match 2 * r ?= den with
  | Lt => q
  | Gt => q + 1
  | Eq => if Z.even q then q else q + 1
  end.

Fixpoint zeros (n : nat) : string :=
  match n with
  | O => ""
  | S n' => "0" ++ zeros n'
  end.

Definition pad_left (n : nat) (s : string) : string :=
  zeros (n - String.length s) ++ s.

(** [strconv.FormatFloat(x, 'f', p, 64)] for [p >= 1], which is what
    [%.pf] prints: the exact binary value rounded to [p] decimals,
    ties to even. *)
Definition FormatFloat_f (x : float64) (p : nat) : string :=
  match x with
  | S754_nan => "NaN"
  | S754_infinity s => if s then "-Inf" else "+Inf"
  | S754_zero s => (if s then "-" else "") ++ "0." ++ zeros p
  | S754_finite s m e =>
      let scale := 10 ^ Z.of_nat p in
      let n := if 0 <=? e
               then Zpos m * 2 ^ e * scale
               else round_half_even (Zpos m * scale) (2 ^ (- e)) in
      (if s then "-" else "")
        ++ FormatUint (n / scale) ++ "."
        ++ pad_left p (FormatUint (n mod scale))
  end.
End Strconv.

(** ** [math.Log] and [math.Pow] *)

Module Math.
(** Constants of [math/log.go], given by their bit patterns. *)
Definition Ln2Hi : float64 := of_bits 0x3fe62e42fee00000.
Definition Ln2Lo : float64 := of_bits 0x3dea39ef35793c76.
Definition L1 : float64 := of_bits 0x3FE5555555555593.
Definition L2 : float64 := of_bits 0x3FD999999997FA04.
Definition L3 : float64 := of_bits 0x3FD2492494229359.
Definition L4 : float64 := of_bits 0x3FCC71C51D8E78AF.
Definition L5 : float64 := of_bits 0x3FC7466496CB03DE.
Definition L6 : float64 := of_bits 0x3FC39A09D078C69F.
Definition L7 : float64 := of_bits 0x3FC2F112DF3E5244.
(** [Sqrt2/2] rounded to binary64. *)
Definition HalfSqrt2 : float64 := of_bits 0x3FE6A09E667F3BCD.

(** [math.Frexp]: [x = frac * 2^exp] with [frac] in [[1/2, 1)]. *)
Definition Frexp (x : float64) : float64 * Z :=
  match x with
  | S754_finite _ _ _ => SFfrexp prec emax x
  | _ => (x, 0)
  end.

(** [math.Ldexp]: [frac * 2^exp]. *)
Definition Ldexp (frac : float64) (exp : Z) : float64 :=
  SFldexp prec emax frac exp.

(** [math.Log], the portable implementation of [math/log.go]. *)
Definition Log (x : float64) : float64 :=
  match x with
  | S754_nan => x
  | S754_infinity false => x
  | _ =>
    if lt x zero then S754_nan
    else if eq x zero then S754_infinity true
    else
      let '(f1, ki) := Frexp x in
      let '(f1, ki) :=
        if lt f1 HalfSqrt2 then (mul f1 two, ki - 1) else (f1, ki) in
      let f := sub f1 one in
      let k := of_Z ki in
      let s := div f (add two f) in
      let s2 := mul s s in
      let s4 := mul s2 s2 in
      let t1 := mul s2 (add L1 (mul s4 (add L3 (mul s4 (add L5 (mul s4 L7)))))) in
      let t2 := mul s4 (add L2 (mul s4 (add L4 (mul s4 L6)))) in
      let R := add t1 t2 in
      let hfsq := mul (mul half f) f in
      sub (mul k Ln2Hi)
          (sub (sub hfsq (add (mul s (add hfsq R)) (mul k Ln2Lo))) f)
  end.

(** The square-and-multiply loop of [math.Pow]:
    [for i := int64(yi); i != 0; i >>= 1 { ... }] with the answer kept
    as [a1 * 2^ae] and the running power as [x1 * 2^xe]. *)
Fixpoint pow_loop (i : positive) (x1 : float64) (xe : Z)
                  (a1 : float64) (ae : Z) : float64 * Z :=
  if (xe <? - 4096) || (4096 <? xe) then (a1, ae + xe)
  else
    let '(a1, ae) :=
      match i with
      | xO _ => (a1, ae)
      | _ => (mul a1 x1, ae + xe)
      end in
    let x1 := mul x1 x1 in
    let xe := 2 * xe in
    let '(x1, xe) := if lt x1 half then (add x1 x1, xe - 1) else (x1, xe) in
    match i with
    | xH => (a1, ae)
    | xO i' | xI i' => pow_loop i' x1 xe a1 ae
    end.

(** [math.Pow(1024, float64(n))] for an [int] [n]: the exponent has no
    fractional part, so only the integral branch of [math/pow.go] is
    followed. *)
Definition Pow1024 (n : Z) : float64 :=
  let x := of_Z 1024 in
  match n with
  | Z0 => one
  | Zpos xH => x
  | _ =>
    if 2 ^ 63 <=? Z.abs n then
      (if 0 <? n then S754_infinity false else zero)
    else
      let '(x1, xe) := Frexp x in
      let '(a1, ae) := pow_loop (Z.to_pos (Z.abs n)) x1 xe one 0 in
      let '(a1, ae) := if n <? 0 then (div one a1, - ae) else (a1, ae) in
      Ldexp a1 ae
  end.
End Math.

(** ** [strings.Split] *)

Module Strings.
(** [strings.Split(s, sep)] for a one-byte separator: the pieces between
    consecutive separators, so that a string without separator (the
    empty string included) yields a single piece. *)
Fixpoint Split (s : string) (sep : ascii) : list string :=
  match s with
  | EmptyString => [EmptyString]
  | String c s' =>
      if Ascii.eqb c sep then EmptyString :: Split s' sep
      else match Split s' sep with
           | p :: ps => String c p :: ps
           | [] => [String c EmptyString]
           end
  end.
End Strings.

(** ** [sort.Slice]

    [sort.Slice(x, less)] runs the pattern-defeating quicksort of
    [sort/zsortfunc.go] (Go 1.19 and later) over a [lessSwap] value: the
    algorithm sees the slice only through [Less(i, j)] and [Swap(i, j)].
    Indices are natural numbers: every index the algorithm forms lies in
    the range it sorts.  Loops without a syntactic bound take a counter
    and yield [None] should it run out; [Slice_func_ends] shows that the
    counters handed out by [Slice_func] never do. *)

Module Sort.

Notation "x <- c1 ;; c2" :=
  (match c1 with Some x => c2 | None => None end)
  (at level 61, c1 at next level, right associativity).
Notation "' p <- c1 ;; c2" :=
  (match c1 with Some p => c2 | None => None end)
  (at level 61, p pattern, c1 at next level, right associativity).

Inductive sortedHint := unknownHint | increasingHint | decreasingHint.

Definition sortedHint_eqb (h1 h2 : sortedHint) : bool :=
  match h1, h2 with
  | unknownHint, unknownHint
  | increasingHint, increasingHint
  | decreasingHint, decreasingHint => true
  | _, _ => false
  end.

(** [bits.Len(uint(n))]: the number of bits needed to write [n]. *)
Definition bits_Len (n : nat) : nat :=
  match n with
  | O => O
  | _ => S (Nat.log2 n)
  end.

(** [xorshift.Next].  Go releases differ in the shift triple, (13, 17, 5)
    or (13, 7, 17); the generator only picks the cells [breakPatterns_func]
    swaps, and no property below depends on the triple. *)
Definition xorshift_Next (r : Z) : Z :=
  let r := Z.lxor r (U64.wrap (Z.shiftl r 13)) in
  let r := Z.lxor r (Z.shiftr r 7) in
  Z.lxor r (U64.wrap (Z.shiftl r 17)).

Definition nextPowerOfTwo (length : nat) : Z :=
  Z.shiftl 1 (Z.of_nat (bits_Len length)).

Section LessSwap.
(** The [lessSwap] value: a slice state [T] with its two methods. *)
Variable T : Type.
Variable Less : T -> nat -> nat -> bool.
Variable Swap : T -> nat -> nat -> T.

(** [for j := i; j > a && Less(j, j-1); j-- { Swap(j, j-1) }] *)
Fixpoint insertion_inner (data : T) (a j : nat) {struct j} : T :=
  match j with
  | O => data
  | S j' =>
      if (a <? j)%nat && Less data j j'
      then insertion_inner (Swap data j j') a j'
      else data
  end.

(** [insertionSort_func]: [for i := a + 1; i < b; i++ { ... }] *)
Definition insertionSort_func (data : T) (a b : nat) : T :=
  fold_left (fun data i => insertion_inner data a i)
            (seq (a + 1) (b - (a + 1))) data.

(** [siftDown_func]; [n] bounds the iterations of its loop. *)
Fixpoint siftDown_func (n : nat) (data : T) (root hi first : nat)
  : option T :=
  let child := (2 * root + 1)%nat in
  if (hi <=? child)%nat then Some data
  else
    let child :=
      if (child + 1 <? hi)%nat && Less data (first + child) (first + child + 1)
      then (child + 1)%nat else child in
    if negb (Less data (first + root) (first + child)) then Some data
    else match n with
         | O => None
         | S n' =>
             siftDown_func n' (Swap data (first + root) (first + child))
                           child hi first
         end.

(** The two downward [for] loops of [heapSort_func], over the indices
    they visit. *)
Fixpoint heap_build (idxs : list nat) (data : T) (hi first : nat) : option T :=
  match idxs with
  | [] => Some data
  | i :: idxs' =>
      data <- siftDown_func hi data i hi first ;;
      heap_build idxs' data hi first
  end.

Fixpoint heap_pop (idxs : list nat) (data : T) (lo first : nat) : option T :=
  match idxs with
  | [] => Some data
  | i :: idxs' =>
      data <- siftDown_func i (Swap data first (first + i)) lo i first ;;
      heap_pop idxs' data lo first
  end.

Definition heapSort_func (data : T) (a b : nat) : option T :=
  let first := a in
  let lo := O in
  let hi := (b - a)%nat in
  data <- heap_build (rev (seq 0 ((hi - 1) / 2 + 1))) data hi first ;;
  heap_pop (rev (seq 0 hi)) data lo first.

(** [for i <= j && c(i) { i++ }], with [n = j + 1 - i]. *)
Fixpoint scan_up (c : nat -> bool) (n i : nat) : nat :=
  match n with
  | O => i
  | S n' => if c i then scan_up c n' (S i) else i
  end.

(** [for i <= j && c(j) { j-- }], with [n = j + 1 - i]. *)
Fixpoint scan_down (c : nat -> bool) (n j : nat) : nat :=
  match n with
  | O => j
  | S n' => if c j then scan_down c n' (j - 1)%nat else j
  end.

(** The [for { ... }] loop of [partition_func]. *)
Fixpoint partition_loop (n : nat) (data : T) (a i j : nat)
  : option (T * nat) :=
  let i := scan_up (fun i => Less data i a) (j + 1 - i) i in
  let j := scan_down (fun j => negb (Less data j a)) (j + 1 - i) j in
  if (j <? i)%nat then Some (data, j)
  else match n with
       | O => None
       | S n' => partition_loop n' (Swap data i j) a (i + 1)%nat (j - 1)%nat
       end.

Definition partition_func (data : T) (a b pivot : nat)
  : option (T * nat * bool) :=
  let data := Swap data a pivot in
  let i := (a + 1)%nat in
  let j := (b - 1)%nat in
  let i := scan_up (fun i => Less data i a) (j + 1 - i) i in
  let j := scan_down (fun j => negb (Less data j a)) (j + 1 - i) j in
  if (j <? i)%nat then Some (Swap data j a, j, true)
  else
    let data := Swap data i j in
    let i := (i + 1)%nat in
    let j := (j - 1)%nat in
    '(data, j) <- partition_loop (j + 1 - i) data a i j ;;
    Some (Swap data j a, j, false).

(** The [for { ... }] loop of [partitionEqual_func]. *)
Fixpoint partitionEqual_loop (n : nat) (data : T) (a i j : nat)
  : option (T * nat) :=
  let i := scan_up (fun i => negb (Less data a i)) (j + 1 - i) i in
  let j := scan_down (fun j => Less data a j) (j + 1 - i) j in
  if (j <? i)%nat then Some (data, i)
  else match n with
       | O => None
       | S n' =>
           partitionEqual_loop n' (Swap data i j) a (i + 1)%nat (j - 1)%nat
       end.

Definition partitionEqual_func (data : T) (a b pivot : nat)
  : option (T * nat) :=
  let data := Swap data a pivot in
  let i := (a + 1)%nat in
  let j := (b - 1)%nat in
  partitionEqual_loop (j + 1 - i) data a i j.

(** [for j := i - 1; j >= 1; j-- { if !Less(j, j-1) { break }; Swap(j, j-1) }] *)
Fixpoint shift_left (data : T) (j : nat) {struct j} : T :=
  match j with
  | O => data
  | S j' =>
      if negb (Less data j j') then data
      else shift_left (Swap data j j') j'
  end.

(** [for j := i + 1; j < b; j++ { if !Less(j, j-1) { break }; Swap(j, j-1) }],
    with [n = b - j]. *)
Fixpoint shift_right (n : nat) (data : T) (j : nat) : T :=
  match n with
  | O => data
  | S n' =>
      if negb (Less data j (j - 1)) then data
      else shift_right n' (Swap data j (j - 1)) (S j)
  end.

Definition maxSteps : nat := 5.
Definition shortestShifting : nat := 50.

(** [partialInsertionSort_func]; [steps] counts the iterations left of
    [for j := 0; j < maxSteps; j++]. *)
Fixpoint partialInsertionSort_loop (steps : nat) (data : T) (a b i : nat)
  : T * bool :=
  match steps with
  | O => (data, false)
  | S steps' =>
      let i := scan_up (fun i => negb (Less data i (i - 1))) (b - i) i in
      if (i =? b)%nat then (data, true)
      else if (b - a <? shortestShifting)%nat then (data, false)
      else
        let data := Swap data i (i - 1) in
        let data :=
          if (2 <=? i - a)%nat then shift_left data (i - 1) else data in
        let data :=
          if (2 <=? b - i)%nat then shift_right (b - (i + 1)) data (i + 1)
          else data in
        partialInsertionSort_loop steps' data a b i
  end.

Definition partialInsertionSort_func (data : T) (a b : nat) : T * bool :=
  partialInsertionSort_loop maxSteps data a b (a + 1).

(** [breakPatterns_func]: three swaps at pseudo-random places. *)
Fixpoint breakPatterns_loop (idxs : list nat) (random : Z) (modulus : Z)
                            (data : T) (a length idx : nat) : T :=
  match idxs with
  | [] => data
  | i :: idxs' =>
      let random := xorshift_Next random in
      let other := Z.to_nat (Z.land random (modulus - 1)) in
      let other :=
        if (length <=? other)%nat then (other - length)%nat else other in
      breakPatterns_loop idxs' random modulus
                         (Swap data (idx - 1 + i) (a + other)) a length idx
  end.

Definition breakPatterns_func (data : T) (a b : nat) : T :=
  let length := (b - a)%nat in
  if (8 <=? length)%nat then
    let random := Z.of_nat length in
    let modulus := nextPowerOfTwo length in
    let idx := (a + (length / 4) * 2 - 1)%nat in
    breakPatterns_loop (seq 0 3) random modulus data a length idx
  else data.

(** [order2_func], [median_func], [medianAdjacent_func]: the counter
    [swaps] is threaded through. *)
Definition order2_func (data : T) (a b swaps : nat) : nat * nat * nat :=
  if Less data b a then (b, a, S swaps) else (a, b, swaps).

Definition median_func (data : T) (a b c swaps : nat) : nat * nat :=
  let '(a, b, swaps) := order2_func data a b swaps in
  let '(b, c, swaps) := order2_func data b c swaps in
  let '(a, b, swaps) := order2_func data a b swaps in
  (b, swaps).

Definition medianAdjacent_func (data : T) (a swaps : nat) : nat * nat :=
  median_func data (a - 1) a (a + 1) swaps.

Definition shortestNinther : nat := 50.
Definition maxSwaps : nat := 4 * 3.

Definition choosePivot_func (data : T) (a b : nat) : nat * sortedHint :=
  let l := (b - a)%nat in
  let swaps := O in
  let i := (a + l / 4 * 1)%nat in
  let j := (a + l / 4 * 2)%nat in
  let k := (a + l / 4 * 3)%nat in
  let '(j, swaps) :=
    if (8 <=? l)%nat then
      let '(i, j, k, swaps) :=
        if (shortestNinther <=? l)%nat then
          let '(i, swaps) := medianAdjacent_func data i swaps in
          let '(j, swaps) := medianAdjacent_func data j swaps in
          let '(k, swaps) := medianAdjacent_func data k swaps in
          (i, j, k, swaps)
        else (i, j, k, swaps) in
      median_func data i j k swaps
    else (j, swaps) in
  if (swaps =? 0)%nat then (j, increasingHint)
  else if (swaps =? maxSwaps)%nat then (j, decreasingHint)
  else (j, unknownHint).

(** [reverseRange_func]: [for i < j { Swap(i, j); i++; j-- }]. *)
Fixpoint reverseRange_loop (n : nat) (data : T) (i j : nat) : option T :=
  if (i <? j)%nat then
    match n with
    | O => None
    | S n' => reverseRange_loop n' (Swap data i j) (i + 1)%nat (j - 1)%nat
    end
  else Some data.

Definition reverseRange_func (data : T) (a b : nat) : option T :=
  reverseRange_loop (b - a) data a (b - 1).

Definition maxInsertion : nat := 12.

(** [pdqsort_func]: one unfolding of [n] per iteration of the outer
    [for] loop and per recursive call. *)
Fixpoint pdqsort_func (n : nat) (data : T) (a b limit : nat)
                      (wasBalanced wasPartitioned : bool) : option T :=
  match n with
  | O => None
  | S n' =>
    let length := (b - a)%nat in
    if (length <=? maxInsertion)%nat then
      Some (insertionSort_func data a b)
    else if (limit =? 0)%nat then heapSort_func data a b
    else
      let '(data, limit) :=
        if negb wasBalanced
        then (breakPatterns_func data a b, (limit - 1)%nat)
        else (data, limit) in
      let '(pivot, hint) := choosePivot_func data a b in
      '(data, pivot, hint) <-
        (if sortedHint_eqb hint decreasingHint then
           data <- reverseRange_func data a b ;;
           Some (data, ((b - 1) - (pivot - a))%nat, increasingHint)
         else Some (data, pivot, hint)) ;;
      let '(data, sorted) :=
        if wasBalanced && wasPartitioned && sortedHint_eqb hint increasingHint
        then partialInsertionSort_func data a b
        else (data, false) in
      if sorted then Some data
      else if (0 <? a)%nat && negb (Less data (a - 1) pivot) then
        '(data, mid) <- partitionEqual_func data a b pivot ;;
        pdqsort_func n' data mid b limit wasBalanced wasPartitioned
      else
        '(data, mid, alreadyPartitioned) <- partition_func data a b pivot ;;
        let wasPartitioned := alreadyPartitioned in
        let leftLen := (mid - a)%nat in
        let rightLen := (b - mid)%nat in
        let balanceThreshold := (length / 8)%nat in
        if (leftLen <? rightLen)%nat then
          let wasBalanced := (balanceThreshold <=? leftLen)%nat in
          data <- pdqsort_func n' data a mid limit true true ;;
          pdqsort_func n' data (mid + 1) b limit wasBalanced wasPartitioned
        else
          let wasBalanced := (balanceThreshold <=? rightLen)%nat in
          data <- pdqsort_func n' data (mid + 1) b limit true true ;;
          pdqsort_func n' data a mid limit wasBalanced wasPartitioned
  end.

(** [sort.Slice]: [length] is [rv.Len()]. *)
Definition Slice_func (data : T) (length : nat) : option T :=
  let limit := bits_Len length in
  pdqsort_func (S length) data 0 length limit true true.
End LessSwap.

(** A Go slice as the [lessSwap] of [sort.Slice]: [swap] exchanges two
    cells ([reflectlite.Swapper]) and [less] is the caller's closure,
    which reads the two cells it is asked about. *)
Fixpoint set_nth {A : Type} (l : list A) (i : nat) (x : A) : list A :=
  match l, i with
  | [], _ => []
  | _ :: l', O => x :: l'
  | y :: l', S i' => y :: set_nth l' i' x
  end.

Definition slice_Swap {A : Type} (l : list A) (i j : nat) : list A :=
  match nth_error l i, nth_error l j with
  | Some x, Some y => set_nth (set_nth l i y) j x
  | _, _ => l
  end.

Definition slice_Less {A : Type} (less : A -> A -> bool)
                      (l : list A) (i j : nat) : bool :=
  match nth_error l i, nth_error l j with
  | Some x, Some y => less x y
  | _, _ => false
  end.

Definition Slice {A : Type} (x : list A) (less : A -> A -> bool)
  : option (list A) :=
  Slice_func (list A) (slice_Less less) slice_Swap x (List.length x).
End Sort.

(* ===================================================================== *)
(** ** The program *)
(* ===================================================================== *)

Record FS := {
  Device : string;
  Mount : string;
  Type_ : string;
  Total : Z;
  Free : Z;
  Used : Z;
  Usage : float64
}.

Record ColorScheme := {
  Low : string;
  Medium : string;
  High : string;
  Critical : string;
  Reset : string
}.

Definition ESC : string := String (ascii_of_nat 27) EmptyString.

Definition Colors : ColorScheme := {|
  Low := ESC ++ "[32m";
  Medium := ESC ++ "[33m";
  High := ESC ++ "[31m";
  Critical := ESC ++ "[31;1m";
  Reset := ESC ++ "[0m"
|}.

(** One entry of [readMounts]: the slice [[]string{p[0], p[1], p[2]}],
    whose three cells are read as [m[0]], [m[1]], [m[2]]. *)
Record MountEntry := {
  m0 : string;
  m1 : string;
  m2 : string
}.

(** *** Mount filter *)

Fixpoint shouldIncludeFS (fsType : string) (excludeTypes : list string) : bool :=
  match excludeTypes with
  | [] => true
  | ex :: rest =>
      if negb (ex =? "")%string && (fsType =? ex)%string then false
      else shouldIncludeFS fsType rest
  end.

Fixpoint filterMounts (mounts : list MountEntry) (excludeTypes : list string)
  : list MountEntry :=
  match mounts with
  | [] => []
  | m :: rest =>
      if shouldIncludeFS (m2 m) excludeTypes
      then m :: filterMounts rest excludeTypes
      else filterMounts rest excludeTypes
  end.

(** [main]: [filterMounts(mounts, strings.Split(config.ExcludeTypes, ","))]. *)
Definition filterByFlag (mounts : list MountEntry) (ExcludeTypes : string)
  : list MountEntry :=
  filterMounts mounts (Strings.Split ExcludeTypes ","%char).

(** *** Usage analyzer *)

(** The fields of [syscall.Statfs_t] the analyzer reads: [Blocks] and
    [Bavail] are [uint64], [Bsize] is a signed integer converted with
    [uint64(s.Bsize)]. *)
Record Statfs_t := {
  Blocks : Z;
  Bsize : Z;
  Bavail : Z
}.

Definition Errno := Z.

(** What the analyzer observes of its surroundings: the answer of
    [syscall.Statfs] to the query made in iteration [i] for a path, and
    whether [ctx.Done()] is closed when iteration [i] polls it. *)
Record Env := {
  Statfs : nat -> string -> Statfs_t + Errno;
  Done : nat -> bool
}.

Inductive LogLine :=
| LogCancelled
| LogProgress (i n : nat)
| LogWarning (path : string) (err : Errno).

(** The interactions of [analyze], in program order. *)
Inductive Event :=
| EvSelect (i : nat) (cancelled : bool)
| EvPrintf (line : LogLine)
| EvStatfs (i : nat) (path : string).

Definition usagePercent (used total : Z) : float64 :=
  if 0 <? total
  then F64.mul (F64.div (of_Z used) (of_Z total)) (of_Z 100)
  else F64.zero.

Definition mkFS (m : MountEntry) (s : Statfs_t) : FS :=
  let total := U64.mul (Blocks s) (U64.wrap (Bsize s)) in
  let free := U64.mul (Bavail s) (U64.wrap (Bsize s)) in
  let used := U64.sub total free in
  let usage := usagePercent used total in
  {| Device := m0 m; Mount := m1 m; Type_ := m2 m;
     Total := total; Free := free; Used := used; Usage := usage |}.

(** The body of [for i, m := range mounts]; [n] is [len(mounts)], [list_]
    the slice [list] built so far and [tr] the interactions so far. *)
Fixpoint analyze_loop (env : Env) (n i : nat) (mounts : list MountEntry)
                      (list_ : list FS) (tr : list Event)
  : list FS * list Event :=
  match mounts with
  | [] => (list_, tr)
  | m :: rest =>
      if Done env i then
        (list_, tr ++ [EvSelect i true; EvPrintf LogCancelled])
      else
        let tr := tr ++ [EvSelect i false] in
        let tr :=
          if (i mod 10 =? 0)%nat then tr ++ [EvPrintf (LogProgress i n)]
          else tr in
        let tr := tr ++ [EvStatfs i (m1 m)] in
        match Statfs env i (m1 m) with
        | inr err =>
            analyze_loop env n (S i) rest list_
                         (tr ++ [EvPrintf (LogWarning (m1 m) err)])
        | inl s =>
            analyze_loop env n (S i) rest (list_ ++ [mkFS m s]) tr
        end
  end.

(** [analyze]: the returned slice, paired with the interactions. *)
Definition analyze (env : Env) (mounts : list MountEntry)
  : list FS * list Event :=
  analyze_loop env (List.length mounts) 0 mounts [] [].

(** *** Byte formatter *)

Definition units : list string := ["B"; "KiB"; "MiB"; "GiB"; "TiB"; "PiB"].

(** [units[idx]]; an index outside the slice panics ([None]). *)
Definition index_units (idx : Z) : option string :=
  if idx <? 0 then None else nth_error units (Z.to_nat idx).

(** The unit index [fmtBytes] computes for [b >= 1024]. *)
Definition fmtBytes_idx (b : Z) : Z :=
  let exp := F64.div (Math.Log (of_Z b)) (Math.Log (of_Z 1024)) in
  let idx := F64.to_int exp in
  if Z.of_nat (List.length units) <=? idx
  then Z.of_nat (List.length units) - 1
  else idx.

(** [fmtBytes]; [None] stands for the run-time panic of an index out of
    range. *)
Definition fmtBytes (b : Z) (humanReadable : bool) : option string :=
  if negb humanReadable then Some (Strconv.FormatUint b)
  else if b <? 1024 then Some (Strconv.FormatUint b ++ " B")%string
  else
    let idx := fmtBytes_idx b in
    let val := F64.div (of_Z b) (Math.Pow1024 idx) in
    match index_units idx with
    | Some u => Some (Strconv.FormatFloat_f val 1 ++ " " ++ u)%string
    | None => None
    end.

(** *** Color tiers *)

Definition ForUsage (c : ColorScheme) (usage warn crit : float64)
                    (noColor : bool) : string :=
  if noColor then ""
  else if F64.ge usage crit then Critical c
  else if F64.ge usage warn then High c
  else if F64.ge usage (of_Z 70) then Medium c
  else Low c.

(** *** Sorter *)

(** The closure handed to [sort.Slice], on the two cells it compares. *)
Definition sortFS_less (by_ : string) (x y : FS) : bool :=
  if (by_ =? "mount")%string then (Mount x <? Mount y)%string
  else if (by_ =? "usage")%string then F64.gt (Usage x) (Usage y)
  else if (by_ =? "size")%string then Total y <? Total x
  else (Mount x <? Mount y)%string.

(** [sortFS]: the slice after [sort.Slice] has run on it. *)
Definition sortFS (list_ : list FS) (by_ : string) : option (list FS) :=
  Sort.Slice list_ (sortFS_less by_).

(* ===================================================================== *)
(** ** Reference notions the properties are stated with *)
(* ===================================================================== *)

(** *** Mount filter *)

(** The exclusion list without its empty entries. *)
Definition nonempty_types (excludeTypes : list string) : list string :=
  filter (fun ex => negb (ex =? "")%string) excludeTypes.

Definition mem_string (t : string) (l : list string) : bool :=
  existsb (String.eqb t) l.

Definition entry (dev mnt typ : string) : MountEntry :=
  {| m0 := dev; m1 := mnt; m2 := typ |}.

(** *** Usage analyzer *)

(** The mounts with their position in the input. *)
Definition indexed (mounts : list MountEntry) : list (nat * MountEntry) :=
  combine (seq 0 (List.length mounts)) mounts.

(** Number of mounts processed before a poll of [ctx.Done()] observes the
    cancellation, among the [k] mounts at positions [i, i+1, ...]. *)
Fixpoint processed_from (env : Env) (i k : nat) : nat :=
  match k with
  | O => O
  | S k' => if Done env i then O else S (processed_from env (S i) k')
  end.

Definition processed (env : Env) (mounts : list MountEntry) : nat :=
  processed_from env 0 (List.length mounts).

(** What the mount at position [i] contributes to the result: its stat if
    the query succeeds, nothing otherwise. *)
Definition stat_of (env : Env) (im : nat * MountEntry) : list FS :=
  match Statfs env (fst im) (m1 (snd im)) with
  | inl s => [mkFS (snd im) s]
  | inr _ => []
  end.

(** The query made for the mount at position [i] succeeds. *)
Definition succeeds (env : Env) (im : nat * MountEntry) : bool :=
  match Statfs env (fst im) (m1 (snd im)) with
  | inl _ => true
  | inr _ => false
  end.

(** The interactions of one iteration that was not cancelled. *)
Definition events_of (env : Env) (n : nat) (im : nat * MountEntry)
  : list Event :=
  [EvSelect (fst im) false]
    ++ (if (fst im mod 10 =? 0)%nat
        then [EvPrintf (LogProgress (fst im) n)] else [])
    ++ [EvStatfs (fst im) (m1 (snd im))]
    ++ match Statfs env (fst im) (m1 (snd im)) with
       | inl _ => []
       | inr err => [EvPrintf (LogWarning (m1 (snd im)) err)]
       end.

(** The interactions that end a cancelled scan. *)
Definition cancel_events (k : nat) : list Event :=
  [EvSelect k true; EvPrintf LogCancelled].

(** The analyzer's invariant on one record, for the block counts [s]. *)
Definition fs_invariant (s : Statfs_t) (fs : FS) : Prop :=
  Total fs = (Blocks s * (Bsize s mod 2 ^ 64)) mod 2 ^ 64 /\
  Free fs = (Bavail s * (Bsize s mod 2 ^ 64)) mod 2 ^ 64 /\
  Used fs = (Total fs - Free fs) mod 2 ^ 64.

(** A record was collected from the input: it is the stat of one of the
    mounts, built from the answer to its query, and satisfies the
    invariant. *)
Definition collected (env : Env) (mounts : list MountEntry) (fs : FS) : Prop :=
  exists i m s,
    nth_error mounts i = Some m /\ Statfs env i (m1 m) = inl s /\
    fs = mkFS m s /\ fs_invariant s fs.

(** *** Byte formatter *)

(** [floor(log_1024 b)] clamped to the largest unit, for [b >= 1]. *)
Definition spec_unit_index (b : Z) : Z :=
  Z.min 5 (Z.log2 b / 10).



(** *** Color tiers *)

Inductive Tier := TierLow | TierMedium | TierHigh | TierCritical.

(** First match wins, in the order critical, warning, fixed floor of 70. *)
Definition tier_of (usage warn crit : float64) : Tier :=
  if F64.ge usage crit then TierCritical
  else if F64.ge usage warn then TierHigh
  else if F64.ge usage (of_Z 70) then TierMedium
  else TierLow.

Definition tier_color (c : ColorScheme) (t : Tier) : string :=
  match t with
  | TierLow => Low c
  | TierMedium => Medium c
  | TierHigh => High c
  | TierCritical => Critical c
  end.

(** *** Sorter *)

(** Two records carry the same value of the selected key. *)
Definition same_key (by_ : string) (x y : FS) : bool :=
  if (by_ =? "mount")%string then (Mount x =? Mount y)%string
  else if (by_ =? "usage")%string then F64.eq (Usage x) (Usage y)
  else if (by_ =? "size")%string then Total x =? Total y
  else (Mount x =? Mount y)%string.

(** Stability: for every key value, the records carrying it appear in
    [out] in the order they have in [inp]. *)
Definition stable (by_ : string) (inp out : list FS) : Prop :=
  forall x : FS, filter (same_key by_ x) out = filter (same_key by_ x) inp.

(** No element stands directly before one that [less] puts first. *)
Fixpoint ordered_by {A : Type} (less : A -> A -> bool) (l : list A) : Prop :=
  match l with
  | [] => True
  | x :: l' =>
      match l' with
      | [] => True
      | y :: _ => less y x = false /\ ordered_by less l'
      end
  end.

Definition ordered (by_ : string) (l : list FS) : Prop :=
  ordered_by (sortFS_less by_) l.

(** Insertion sort as a function, on the sorted prefix kept in reverse
    (its last element first): [insert_left] walks [x] leftwards past the
    elements it is less than. *)
Fixpoint insert_left {A : Type} (less : A -> A -> bool) (x : A) (L : list A)
  : list A :=
  match L with
  | [] => [x]
  | y :: L' => if less x y then y :: insert_left less x L' else x :: L
  end.

Fixpoint insertion_fold {A : Type} (less : A -> A -> bool) (L rest : list A)
  : list A :=
  match rest with
  | [] => L
  | x :: rest' => insertion_fold less (insert_left less x L) rest'
  end.

(** [ordered_by] read on a reversed list. *)
Fixpoint descending_by {A : Type} (less : A -> A -> bool) (L : list A) : Prop :=
  match L with
  | [] => True
  | y :: L' =>
      match L' with
      | [] => True
      | z :: _ => less y z = false /\ descending_by less L'
      end
  end.

(** A run of a counted loop comes to an end ([Some]), in a state where
    [P] holds. *)
Definition ends_with {T : Type} (P : T -> Prop) (r : option T) : Prop :=
  exists d, r = Some d /\ P d.

(** *** Normal numbers of [float64]

    What the rounding lemmas on [SpecFloat]'s [binary_round_aux] are
    stated with. *)

(** The record kept while shifting [m0] to the right by [k >= 1] bits:
    the quotient, the last bit shifted out and whether a bit before it
    was set. *)
Definition shifted (m0 k : Z) : shr_record :=
  {| shr_m := m0 / 2 ^ k;
     shr_r := Z.odd (m0 / 2 ^ (k - 1));
     shr_s := negb (m0 mod 2 ^ (k - 1) =? 0) |}.

(** [2^52] and [2^53], the bounds of a 53-bit mantissa. *)
Definition two52 : Z := 4503599627370496.
Definition two53 : Z := 9007199254740992.

(** The float with the 53-bit mantissa [r] and exponent [e], where [r]
    may have reached [2^53] by rounding up. *)
Definition normalized (sx : bool) (r e : Z) : float64 :=
  if r =? two53 then S754_finite sx (Z.to_pos two52) (e + 1)
  else S754_finite sx (Z.to_pos r) e.

(** The record the first shift of [binary_round_aux] leaves. *)
Definition first_shift (mx : positive) (lx : location) : shr_record :=
  match Zpos (digits2_pos mx) - 53 with
  | Zpos p => iter_pos shr_1 p (shr_record_of_loc (Zpos mx) lx)
  | _ => shr_record_of_loc (Zpos mx) lx
  end.

(** Mantissas of the normal numbers. *)
Definition canonical (m : positive) : Prop := two52 <= Zpos m < two53.

(** Lexicographic order on exponent and mantissa. *)
Definition lex_le (e1 m1 e2 m2 : Z) : Prop := e1 < e2 \/ (e1 = e2 /\ m1 <= m2).

(** Mantissa and exponent of [normalized s r e]. *)
Definition norm_m (r : Z) : Z := if r =? two53 then two52 else r.
Definition norm_e (r e : Z) : Z := if r =? two53 then e + 1 else e.

(** [a / 2^k] rounded to nearest, ties to even. *)
Definition round_shift (a k : Z) : Z :=
  round_nearest_even (a / 2 ^ k) (loc_of_shr_record (shifted a k)).

(** Mantissa of [float64(n)] before the carry of a rounding up to
    [2^53] is propagated. *)
Definition rounded (p : positive) : Z :=
  let d := Zpos (digits2_pos p) in
  if d <=? 53 then Zpos p * 2 ^ (53 - d) else round_shift (Zpos p) (d - 53).

(** Mantissa of [float64(100)], which is [100 * 2^46 * 2^-46]. *)
Definition hundred_m : positive := 7036874417766400.

(** *** Sample data *)

Definition sample_fs (mnt : string) (total : Z) : FS :=
  {| Device := "dev"; Mount := mnt; Type_ := "ext4";
     Total := total; Free := 0; Used := total; Usage := of_Z 100 |}.

(** Thirteen records: twelve of size 1 followed by one of size 2. *)
Definition thirteen : list FS :=
  [ sample_fs "/a" 1; sample_fs "/b" 1; sample_fs "/c" 1; sample_fs "/d" 1;
    sample_fs "/e" 1; sample_fs "/f" 1; sample_fs "/g" 1; sample_fs "/h" 1;
    sample_fs "/i" 1; sample_fs "/j" 1; sample_fs "/k" 1; sample_fs "/l" 1;
    sample_fs "/m" 2 ].

(** [thirteen] as [sort.Slice] leaves it when sorting by size. *)
Definition thirteen_by_size : list FS :=
  [ sample_fs "/m" 2; sample_fs "/g" 1; sample_fs "/c" 1; sample_fs "/d" 1;
    sample_fs "/e" 1; sample_fs "/f" 1; sample_fs "/a" 1; sample_fs "/h" 1;
    sample_fs "/i" 1; sample_fs "/j" 1; sample_fs "/k" 1; sample_fs "/l" 1;
    sample_fs "/b" 1 ].

(** Two records with the same usage, as two mounts with 100 blocks of
    which 10 are available yield them. *)
Definition two_at_ninety : list FS :=
  [ {| Device := "dev1"; Mount := "/"; Type_ := "ext4";
       Total := 409600; Free := 40960; Used := 368640;
       Usage := usagePercent 368640 409600 |};
    {| Device := "dev2"; Mount := "/boot"; Type_ := "vfat";
       Total := 409600; Free := 40960; Used := 368640;
       Usage := usagePercent 368640 409600 |} ].

Definition sample_mounts : list MountEntry :=
  [ entry "dev1" "/" "ext4"; entry "dev2" "/boot" "vfat";
    entry "dev3" "/home" "ext4" ].

Definition sample_statfs : Statfs_t :=
  {| Blocks := 100; Bsize := 4096; Bavail := 10 |}.

(** Every query succeeds except the one for [/boot]; the cancellation is
    visible from the third poll on. *)
Definition sample_env : Env :=
  {| Statfs := fun _ path =>
       if (path =? "/boot")%string then inr 13 else inl sample_statfs;
     Done := fun i => (2 <=? i)%nat |}.

(** Every query succeeds; the cancellation is visible from the third
    poll on. *)
Definition sample_env_ok : Env :=
  {| Statfs := fun _ _ => inl sample_statfs;
     Done := fun i => (2 <=? i)%nat |}.

(** The queries of [sample_env], never cancelled. *)
Definition sample_env_live : Env :=
  {| Statfs := Statfs sample_env; Done := fun _ => false |}.

(** A pseudo-mount of no capacity. *)
Definition statfs_no_capacity : Statfs_t :=
  {| Blocks := 0; Bsize := 4096; Bavail := 0 |}.

Definition pseudo_env : Env :=
  {| Statfs := fun _ _ => inl statfs_no_capacity; Done := fun _ => false |}.

Definition pseudo_mounts : list MountEntry :=
  [ entry "none" "/sys/fs/pseudo" "pseudofs" ].

(** Available blocks beyond the total on a device of [2^63] bytes. *)
Definition statfs_huge : Statfs_t :=
  {| Blocks := 2 ^ 63; Bsize := 1; Bavail := 2 ^ 64 - 1 |}.

(** A mount reporting more available than total blocks on an empty
    device, and one on a device of 16 blocks. *)
Definition statfs_empty_device : Statfs_t :=
  {| Blocks := 0; Bsize := 4096; Bavail := 1 |}.

Definition statfs_over_available : Statfs_t :=
  {| Blocks := 16; Bsize := 4096; Bavail := 17 |}.

(* ===================================================================== *)
(** ** The mount table, the renderers and [main] *)
(* ===================================================================== *)

(** *** Strings as byte sequences *)

Definition LF : string := String (ascii_of_nat 10) EmptyString.

(** [s[n:]] and [s[:n]]. *)
Fixpoint drop (n : nat) (s : string) : string :=
  match n, s with
  | O, _ => s
  | S n', String _ s' => drop n' s'
  | S _, EmptyString => EmptyString
  end.

Fixpoint take (n : nat) (s : string) : string :=
  match n, s with
  | O, _ => EmptyString
  | S n', String c s' => String c (take n' s')
  | S _, EmptyString => EmptyString
  end.

(** [s[a:b]]. *)
Definition slice (a b : nat) (s : string) : string := take (b - a) (drop a s).

(** *** [unicode/utf8] *)

Module Utf8.
Definition RuneError : Z := 0xFFFD.
Definition RuneSelf : Z := 0x80.
Definition UTFMax : Z := 4.

(** The value of a byte of a string. *)
Definition byte (c : ascii) : Z := Z.of_N (N_of_ascii c).

Definition maskx : Z := 0x3F.
Definition mask2 : Z := 0x1F.
Definition mask3 : Z := 0x0F.
Definition mask4 : Z := 0x07.

(** Bounds of the continuation bytes. *)
Definition locb : Z := 0x80.
Definition hicb : Z := 0xBF.

(** Entries of the table [first]: [as_] marks an ASCII byte, [xx] an
    invalid leading byte; the others hold the size of the sequence in
    their low bits and the index of the range accepted for its second
    byte in their high bits. *)
Definition xx : Z := 0xF1.
Definition as_ : Z := 0xF0.
Definition s1 : Z := 0x02.
Definition s2 : Z := 0x13.
Definition s3 : Z := 0x03.
Definition s4 : Z := 0x23.
Definition s5 : Z := 0x34.
Definition s6 : Z := 0x04.
Definition s7 : Z := 0x44.

Definition first (b : Z) : Z :=
  if b <? 0x80 then as_
  else if b <? 0xC2 then xx
  else if b <? 0xE0 then s1
  else if b =? 0xE0 then s2
  else if b <? 0xED then s3
  else if b =? 0xED then s4
  else if b <? 0xF0 then s3
  else if b =? 0xF0 then s5
  else if b <? 0xF4 then s6
  else if b =? 0xF4 then s7
  else xx.

(** [acceptRanges]: the bounds [(lo, hi)] of the second byte. *)
Definition acceptRanges (i : Z) : Z * Z :=
  match i with
  | 0 => (locb, hicb)
  | 1 => (0xA0, hicb)
  | 2 => (locb, 0x9F)
  | 3 => (0x90, hicb)
  | 4 => (locb, 0x8F)
  | _ => (0, 0)
  end.

(** [c < lo || hi < c]. *)
Definition outside (c lo hi : Z) : bool := (c <? lo) || (hi <? c).

(** [utf8.DecodeRuneInString]: the first rune of [s] and its width in
    bytes; an invalid or short encoding yields [RuneError] of width 1. *)
Definition DecodeRuneInString (s : string) : Z * nat :=
  match s with
  | EmptyString => (RuneError, 0%nat)
  | String c0 t0 =>
      let b0 := byte c0 in
      let x := first b0 in
      if as_ <=? x then ((if Z.odd x then RuneError else b0), 1%nat)
      else
        let sz := Z.land x 7 in
        let accept := acceptRanges (Z.shiftr x 4) in
        if Z.of_nat (String.length s) <? sz then (RuneError, 1%nat)
        else
          match t0 with
          | EmptyString => (RuneError, 1%nat)
          | String c1 t1 =>
              let b1 := byte c1 in
              if outside b1 (fst accept) (snd accept) then (RuneError, 1%nat)
              else if sz <=? 2 then
                (Z.lor (Z.shiftl (Z.land b0 mask2) 6) (Z.land b1 maskx), 2%nat)
              else
                match t1 with
                | EmptyString => (RuneError, 1%nat)
                | String c2 t2 =>
                    let b2 := byte c2 in
                    if outside b2 locb hicb then (RuneError, 1%nat)
                    else if sz <=? 3 then
                      (Z.lor (Z.lor (Z.shiftl (Z.land b0 mask3) 12)
                                    (Z.shiftl (Z.land b1 maskx) 6))
                             (Z.land b2 maskx), 3%nat)
                    else
                      match t2 with
                      | EmptyString => (RuneError, 1%nat)
                      | String c3 _ =>
                          let b3 := byte c3 in
                          if outside b3 locb hicb then (RuneError, 1%nat)
                          else
                            (Z.lor (Z.lor (Z.lor (Z.shiftl (Z.land b0 mask4) 18)
                                                 (Z.shiftl (Z.land b1 maskx) 12))
                                          (Z.shiftl (Z.land b2 maskx) 6))
                                   (Z.land b3 maskx), 4%nat)
                      end
                end
          end
  end.

(** [utf8.RuneStart]: the byte is not a continuation byte. *)
Definition RuneStart (b : Z) : bool := negb (Z.land b 0xC0 =? 0x80).

(** The byte [s[i]] (0 outside the string, where Go would panic; the
    callers below stay inside). *)
Definition at_ (s : string) (i : Z) : Z :=
  match String.get (Z.to_nat i) s with
  | Some c => byte c
  | None => 0
  end.

(** The loop [for start--; start >= lim; start--] of
    [DecodeLastRuneInString], which runs at most [UTFMax] times. *)
Fixpoint scan_back (k : nat) (s : string) (start lim : Z) : Z :=
  match k with
  | O => start
  | S k' =>
      if start <? lim then start
      else if RuneStart (at_ s start) then start
      else scan_back k' s (start - 1) lim
  end.

(** [utf8.DecodeLastRuneInString]: the last rune of [s] and its width. *)
Definition DecodeLastRuneInString (s : string) : Z * nat :=
  let end_ := Z.of_nat (String.length s) in
  if end_ =? 0 then (RuneError, 0%nat)
  else
    let start := end_ - 1 in
    let r := at_ s start in
    if r <? RuneSelf then (r, 1%nat)
    else
      let lim := Z.max (end_ - UTFMax) 0 in
      let start := scan_back 5 s (start - 1) lim in
      let start := Z.max start 0 in
      let '(r, size) :=
        DecodeRuneInString (slice (Z.to_nat start) (Z.to_nat end_) s) in
      if start + Z.of_nat size =? end_ then (r, size) else (RuneError, 1%nat).

(** The iterations of [for i, r := range s]: the byte offset and the
    value of each rune, invalid bytes counting as [RuneError] of width
    1.  The counter bounds the number of runes by the number of bytes. *)
Fixpoint range_from (n : nat) (s : string) (i : nat) : list (nat * Z) :=
  match n with
  | O => []
  | S n' =>
      match s with
      | EmptyString => []
      | String _ _ =>
          let '(r, size) := DecodeRuneInString s in
          (i, r) :: range_from n' (drop size s) (i + size)
      end
  end.

Definition range (s : string) : list (nat * Z) :=
  range_from (String.length s) s 0.

(** The number of bytes [utf8.RuneCountInString] moves on by at the head
    of [s]. *)
Definition advance (s : string) : nat :=
  match s with
  | EmptyString => 0%nat
  | String c0 t0 =>
      let c := byte c0 in
      if c <? RuneSelf then 1%nat
      else
        let x := first c in
        if x =? xx then 1%nat
        else
          let size := Z.to_nat (Z.land x 7) in
          if (String.length s <? size)%nat then 1%nat
          else
            let accept := acceptRanges (Z.shiftr x 4) in
            if outside (at_ s 1) (fst accept) (snd accept) then 1%nat
            else if (size =? 2)%nat then size
            else if outside (at_ s 2) locb hicb then 1%nat
            else if (size =? 3)%nat then size
            else if outside (at_ s 3) locb hicb then 1%nat
            else size
  end.

(** [utf8.RuneCountInString]. *)
Fixpoint RuneCount_from (n : nat) (s : string) : nat :=
  match n with
  | O => O
  | S n' =>
      match s with
      | EmptyString => O
      | String _ _ => S (RuneCount_from n' (drop (advance s) s))
      end
  end.

Definition RuneCountInString (s : string) : nat :=
  RuneCount_from (String.length s) s.
End Utf8.

(** *** [unicode] *)

Module Unicode.
(** [unicode.IsSpace]: the Latin-1 spaces, then the table [White_Space]
    beyond Latin-1. *)
Definition IsSpace (r : Z) : bool :=
  if (0 <=? r) && (r <=? 0xFF) then
    (r =? 9) || (r =? 10) || (r =? 11) || (r =? 12) || (r =? 13)
    || (r =? 32) || (r =? 0x85) || (r =? 0xA0)
  else
    (r =? 0x1680) || ((0x2000 <=? r) && (r <=? 0x200a))
    || (r =? 0x2028) || (r =? 0x2029) || (r =? 0x202f)
    || (r =? 0x205f) || (r =? 0x3000).
End Unicode.

(** *** [strings.Fields] and [strings.TrimSpace] *)

Module Str.
(** The table [asciiSpace]. *)
Definition asciiSpace (b : Z) : bool :=
  (b =? 9) || (b =? 10) || (b =? 11) || (b =? 12) || (b =? 13) || (b =? 32).

(** The bytes of a string with their offsets. *)
Fixpoint bytes_from (s : string) (i : nat) : list (nat * Z) :=
  match s with
  | EmptyString => []
  | String c s' => (i, Utf8.byte c) :: bytes_from s' (S i)
  end.

(** One iteration of the loop that records the fields as spans
    [(start, end)]: [start] is the offset of the field being read, or
    negative between fields. *)
Definition span_step (f : Z -> bool) (st : Z * list (nat * nat))
                     (ir : nat * Z) : Z * list (nat * nat) :=
  let '(start, spans) := st in
  let '(end_, r) := ir in
  if f r then
    if 0 <=? start then (Z.lnot start, spans ++ [(Z.to_nat start, end_)])
    else (start, spans)
  else
    if start <? 0 then (Z.of_nat end_, spans) else (start, spans).

(** The loop over [items], followed by the field that ends with the
    string, and the strings cut out of [s]. *)
Definition spans_of (f : Z -> bool) (s : string) (items : list (nat * Z))
  : list string :=
  let '(start, spans) := fold_left (span_step f) items (-1, []) in
  let spans :=
    if 0 <=? start then spans ++ [(Z.to_nat start, String.length s)]
    else spans in
  map (fun ab => slice (fst ab) (snd ab) s) spans.

(** [strings.FieldsFunc]. *)
Definition FieldsFunc (s : string) (f : Z -> bool) : list string :=
  spans_of f s (Utf8.range s).

(** [setBits >= utf8.RuneSelf]: some byte of [s] is not ASCII. *)
Fixpoint has_high_byte (s : string) : bool :=
  match s with
  | EmptyString => false
  | String c s' => (Utf8.RuneSelf <=? Utf8.byte c) || has_high_byte s'
  end.

(** [strings.Fields]: the general loop on runes as soon as a byte is not
    ASCII; otherwise the loop on bytes, whose fields start where a run
    of spaces ends. *)
Definition Fields (s : string) : list string :=
  if has_high_byte s then FieldsFunc s Unicode.IsSpace
  else spans_of asciiSpace s (bytes_from s 0).

(** [strings.indexFunc]. *)
Fixpoint indexFunc_loop (f : Z -> bool) (truth : bool) (items : list (nat * Z))
  : Z :=
  match items with
  | [] => -1
  | (i, r) :: rest =>
      if Bool.eqb (f r) truth then Z.of_nat i
      else indexFunc_loop f truth rest
  end.

Definition indexFunc (s : string) (f : Z -> bool) (truth : bool) : Z :=
  indexFunc_loop f truth (Utf8.range s).

(** [strings.lastIndexFunc]: [for i := len(s); i > 0; ...], the counter
    bounding the number of runes by the number of bytes. *)
Fixpoint lastIndexFunc_loop (n : nat) (s : string) (f : Z -> bool)
                            (truth : bool) (i : nat) : Z :=
  match n with
  | O => -1
  | S n' =>
      if (i =? 0)%nat then -1
      else
        let '(r, size) := Utf8.DecodeLastRuneInString (take i s) in
        let i := (i - size)%nat in
        if Bool.eqb (f r) truth then Z.of_nat i
        else lastIndexFunc_loop n' s f truth i
  end.

Definition lastIndexFunc (s : string) (f : Z -> bool) (truth : bool) : Z :=
  lastIndexFunc_loop (String.length s) s f truth (String.length s).

(** [strings.TrimLeftFunc]. *)
Definition TrimLeftFunc (s : string) (f : Z -> bool) : string :=
  let i := indexFunc s f false in
  if i =? -1 then EmptyString else drop (Z.to_nat i) s.

(** [strings.TrimRightFunc]. *)
Definition TrimRightFunc (s : string) (f : Z -> bool) : string :=
  let i := lastIndexFunc s f false in
  let i :=
    if (0 <=? i) && (Utf8.RuneSelf <=? Utf8.at_ s i) then
      i + Z.of_nat (snd (Utf8.DecodeRuneInString (drop (Z.to_nat i) s)))
    else i + 1 in
  take (Z.to_nat i) s.

(** [strings.TrimFunc]. *)
Definition TrimFunc (s : string) (f : Z -> bool) : string :=
  TrimRightFunc (TrimLeftFunc s f) f.

(** The second loop of [TrimSpace], [for ; stop > start; stop--], on the
    string [s[start:]] the first loop has left. *)
Fixpoint TrimSpace_right (s : string) (stop : nat) : string :=
  match stop with
  | O => EmptyString
  | S stop' =>
      let c := Utf8.at_ s (Z.of_nat stop') in
      if Utf8.RuneSelf <=? c then TrimRightFunc (take stop s) Unicode.IsSpace
      else if asciiSpace c then TrimSpace_right s stop'
      else take stop s
  end.

(** [strings.TrimSpace]: the first loop, on the bytes from the start. *)
Fixpoint TrimSpace (s : string) : string :=
  match s with
  | EmptyString => EmptyString
  | String c s' =>
      if Utf8.RuneSelf <=? Utf8.byte c then TrimFunc s Unicode.IsSpace
      else if asciiSpace (Utf8.byte c) then TrimSpace s'
      else TrimSpace_right s (String.length s)
  end.
End Str.

(** *** Reading the mount table *)

(** The loop of [readMounts] over the lines. *)
Fixpoint readMounts_loop (lines : list string) (out : list MountEntry)
  : list MountEntry :=
  match lines with
  | [] => out
  | l :: rest =>
      match Str.Fields l with
      | p0 :: p1 :: p2 :: _ =>
          readMounts_loop rest (out ++ [ {| m0 := p0; m1 := p1; m2 := p2 |} ])
      | _ => readMounts_loop rest out
      end
  end.

(** [readMounts], given what [os.ReadFile("/proc/mounts")] returns. *)
Definition readMounts (file : string + Errno) : list MountEntry + Errno :=
  match file with
  | inr err => inr err
  | inl b =>
      let lines := Strings.Split (Str.TrimSpace b) (ascii_of_nat 10) in
      inl (readMounts_loop lines [])
  end.
(** *** Reference notions for the mount table *)

(** A string cut into pieces, each with the rune it stands for. *)
Definition concat_bytes (cs : list (Z * string)) : string :=
  String.concat "" (map snd cs).

(** The offsets of the pieces, the first one standing at [i]. *)
Fixpoint offsets (i : nat) (cs : list (Z * string)) : list (nat * Z) :=
  match cs with
  | [] => []
  | (r, bs) :: cs' => (i, r) :: offsets (i + String.length bs) cs'
  end.

(** The fields of a string cut into pieces: maximal runs of pieces whose
    rune is not a separator; [cur] is the field being read. *)
Fixpoint split_fields (f : Z -> bool) (cs : list (Z * string))
                      (cur : option string) : list string :=
  match cs with
  | [] => match cur with Some w => [w] | None => [] end
  | (r, bs) :: cs' =>
      if f r then
        match cur with
        | Some w => w :: split_fields f cs' None
        | None => split_fields f cs' None
        end
      else
        split_fields f cs'
          (Some (match cur with Some w => w ++ bs | None => bs end)%string)
  end.

(** A string cut into its runes, and into its bytes. *)
Fixpoint rune_chunks_from (n : nat) (s : string) : list (Z * string) :=
  match n with
  | O => []
  | S n' =>
      match s with
      | EmptyString => []
      | String _ _ =>
          let '(r, size) := Utf8.DecodeRuneInString s in
          (r, take size s) :: rune_chunks_from n' (drop size s)
      end
  end.

Definition rune_chunks (s : string) : list (Z * string) :=
  rune_chunks_from (String.length s) s.

Fixpoint byte_chunks (s : string) : list (Z * string) :=
  match s with
  | EmptyString => []
  | String c s' => (Utf8.byte c, String c EmptyString) :: byte_chunks s'
  end.

(** No byte of the string is an ASCII space. *)
Fixpoint no_space_bytes (s : string) : bool :=
  match s with
  | EmptyString => true
  | String c s' => negb (Str.asciiSpace (Utf8.byte c)) && no_space_bytes s'
  end.

(** A continuation byte of UTF-8. *)
Definition is_cont (c : ascii) : Prop := 128 <= Utf8.byte c < 192.

(** The string is empty or starts with a byte that is no continuation
    byte. *)
Definition starts_clean (w : string) : Prop :=
  match w with
  | EmptyString => True
  | String c _ => ~ is_cont c
  end.

(** A space on its own: a valid encoding of a rune of
    [unicode.IsSpace]. *)
Definition ws_piece (w : string) : Prop :=
  w <> EmptyString
  /\ exists r, Utf8.DecodeRuneInString w = (r, String.length w)
               /\ Unicode.IsSpace r = true.

(** The property of a piece that [DecodeRuneInString] cuts off: it is
    not empty, a space is a valid encoding, and a piece that is not a
    space holds no ASCII space. *)
Definition chunk_ok (c : Z * string) : Prop :=
  snd c <> EmptyString
  /\ (Unicode.IsSpace (fst c) = true ->
      Utf8.DecodeRuneInString (snd c) = (fst c, String.length (snd c)))
  /\ (Unicode.IsSpace (fst c) = false -> no_space_bytes (snd c) = true).

(** A field: not empty and without ASCII space. *)
Definition clean (s : string) : Prop :=
  s <> EmptyString /\ no_space_bytes s = true.

(** What a line of the mount table contributes: its first three fields,
    when it has that many. *)
Definition line_entry (l : string) : list MountEntry :=
  match Str.Fields l with
  | p0 :: p1 :: p2 :: _ => [ {| m0 := p0; m1 := p1; m2 := p2 |} ]
  | _ => []
  end.

(** The entries of the lines of a text. *)
Definition parse_mounts (b : string) : list MountEntry :=
  flat_map line_entry (Strings.Split b (ascii_of_nat 10)).

(** Strings put one after the other. *)
Definition join (ps : list string) : string :=
  fold_right String.append EmptyString ps.

(** A run of spaces: valid encodings of runes of [unicode.IsSpace], one
    after the other. *)
Definition ws_string (t : string) : Prop :=
  exists ps, Forall ws_piece ps /\ t = join ps.

(** The string holds no byte [sep]. *)
Fixpoint no_sep (sep : ascii) (s : string) : bool :=
  match s with
  | EmptyString => true
  | String c s' => negb (Ascii.eqb c sep) && no_sep sep s'
  end.

(** Some rune of the string is a space of [unicode.IsSpace]. *)
Definition has_space (s : string) : bool :=
  existsb (fun ir => Unicode.IsSpace (snd ir)) (Utf8.range s).

(** A word: a string that is not empty and holds no space. *)
Definition is_word (s : string) : bool :=
  negb (s =? "")%string && negb (has_space s).

(** The pieces of a string are the runes of what they make up. *)
Definition consistent (cs : list (Z * string)) : Prop :=
  rune_chunks (concat_bytes cs) = cs.

(** A line of [/proc/mounts]: device, mount point and type, then the
    options and the dump and pass numbers. *)
Definition mount_line (e : MountEntry) (tail : string) : string :=
  (m0 e ++ " " ++ m1 e ++ " " ++ m2 e ++ " " ++ tail)%string.

(** The text of a mount table, each line ended by a line feed. *)
Definition mount_table (rows : list (MountEntry * string)) : string :=
  join (map (fun row => (mount_line (fst row) (snd row) ++ LF)%string) rows).

(** *** The configuration and the records [main] hands to [display] *)

Record Config := {
  ShowAll : bool;
  HumanReadable : bool;
  OutputFormat : string;
  SortBy : string;
  ExcludeTypes : string;
  WarnThreshold : float64;
  CritThreshold : float64;
  NoColor : bool
}.

(** The values [parseFlags] gives the flags that are not set. *)
Definition defaultConfig : Config := {|
  ShowAll := false;
  HumanReadable := true;
  OutputFormat := "table";
  SortBy := "mount";
  ExcludeTypes := "proc,sysfs,devtmpfs,tmpfs,cgroup,devpts";
  WarnThreshold := of_Z 70;
  CritThreshold := of_Z 90;
  NoColor := false
|}.


(** *** Rendering *)

Fixpoint spaces (n : nat) : string :=
  match n with
  | O => EmptyString
  | S n' => String " " (spaces n')
  end.

(** [%-Ns]: [fmt]'s [padString] with the minus flag pads on the right, up
    to [wid] runes; a longer string is written as it is. *)
Definition padString (wid : nat) (s : string) : string :=
  (s ++ spaces (wid - Utf8.RuneCountInString s))%string.

(** [displayCSV]: what is written to the standard output. *)
Definition csv_header : string :=
  ("Device,Mount,Type,Total,Used,Free,Usage" ++ LF)%string.

Definition csv_row (d : FS) : string :=
  (Device d ++ "," ++ Mount d ++ "," ++ Type_ d ++ ","
   ++ Strconv.FormatUint (Total d) ++ "," ++ Strconv.FormatUint (Used d) ++ ","
   ++ Strconv.FormatUint (Free d) ++ ","
   ++ Strconv.FormatFloat_f (Usage d) 2 ++ LF)%string.

Fixpoint displayCSV_loop (list_ : list FS) (out : string) : string :=
  match list_ with
  | [] => out
  | d :: rest => displayCSV_loop rest (out ++ csv_row d)
  end.

Definition displayCSV (list_ : list FS) : string :=
  displayCSV_loop list_ csv_header.

(** [displayTable]: the header, then one line for each record. *)
Definition table_header : string :=
  (padString 25 "Device" ++ " " ++ padString 25 "Mount" ++ " "
   ++ padString 8 "Type" ++ " " ++ padString 10 "Total" ++ " "
   ++ padString 10 "Used" ++ " " ++ padString 10 "Free" ++ " "
   ++ "Usage" ++ LF)%string.

(** The line of one record; [None] when a call of [fmtBytes] panics,
    which happens before anything of the line is written. *)
Definition table_row (d : FS) (config : Config) : option string :=
  let color := ForUsage Colors (Usage d) (WarnThreshold config)
                        (CritThreshold config) (NoColor config) in
  let reset := if (color =? "")%string then EmptyString else Reset Colors in
  match fmtBytes (Total d) (HumanReadable config),
        fmtBytes (Used d) (HumanReadable config),
        fmtBytes (Free d) (HumanReadable config) with
  | Some total, Some used, Some free =>
      Some (padString 25 (Device d) ++ " " ++ padString 25 (Mount d) ++ " "
            ++ padString 8 (Type_ d) ++ " " ++ padString 10 total ++ " "
            ++ padString 10 used ++ " " ++ padString 10 free ++ " "
            ++ color ++ Strconv.FormatFloat_f (Usage d) 2 ++ "%" ++ reset
            ++ LF)%string
  | _, _, _ => None
  end.

(** The loop over the records: the output so far, and whether the loop
    has come to its end without a panic. *)
Fixpoint displayTable_loop (list_ : list FS) (config : Config) (out : string)
  : string * bool :=
  match list_ with
  | [] => (out, true)
  | d :: rest =>
      match table_row d config with
      | Some line => displayTable_loop rest config (out ++ line)
      | None => (out, false)
      end
  end.

Definition displayTable (list_ : list FS) (config : Config) : string * bool :=
  displayTable_loop list_ config table_header.

(** *** Reference notions for the renderers *)

(** A decimal numeral read back ([strconv.ParseUint] in base 10, without
    its bound on the size). *)
Definition parse_decimal (s : string) : option Z :=
  match NilZero.uint_of_string s with
  | Some d => Some (Z.of_N (N.of_uint d))
  | None => None
  end.


(** The environment in which [ctx.Done()] never fires. *)
Definition never_cancelled (env : Env) : Env :=
  {| Statfs := Statfs env; Done := fun _ => false |}.

Definition is_warning (e : Event) : bool :=
  match e with
  | EvPrintf (LogWarning _ _) => true
  | _ => false
  end.

Definition is_statfs (e : Event) : bool :=
  match e with
  | EvStatfs _ _ => true
  | _ => false
  end.

(** The byte is none of the digits. *)
Definition not_digit (c : ascii) : bool :=
  negb (existsb (Ascii.eqb c)
          ["0"; "1"; "2"; "3"; "4"; "5"; "6"; "7"; "8"; "9"]%char).

(** The byte occurs in no rendering of a number: it is no digit, no
    sign, no decimal point and no letter of [NaN] and [Inf]. *)
Definition not_numeric (c : ascii) : bool :=
  not_digit c
  && negb (existsb (Ascii.eqb c) ["."; "-"; "+"; "N"; "a"; "I"; "n"; "f"]%char).

(** A line of [displayCSV] without its line feed. *)
Definition csv_line (d : FS) : string :=
  (Device d ++ "," ++ Mount d ++ "," ++ Type_ d ++ ","
   ++ Strconv.FormatUint (Total d) ++ "," ++ Strconv.FormatUint (Used d) ++ ","
   ++ Strconv.FormatUint (Free d) ++ ","
   ++ Strconv.FormatFloat_f (Usage d) 2)%string.

(** The cells of a record as [displayCSV] writes them. *)
Definition csv_cells (d : FS) : list string :=
  [ Device d; Mount d; Type_ d;
    Strconv.FormatUint (Total d); Strconv.FormatUint (Used d);
    Strconv.FormatUint (Free d); Strconv.FormatFloat_f (Usage d) 2 ].

(** A string that can stand in a cell: no comma and no line feed. *)
Definition csv_safe (s : string) : bool :=
  no_sep ","%char s && no_sep (ascii_of_nat 10) s.

(** The six padded cells of a line of [displayTable], each followed by
    a blank. *)
Definition table_cells (device mount type_ total used free : string) : string :=
  (padString 25 device ++ " " ++ padString 25 mount ++ " "
   ++ padString 8 type_ ++ " " ++ padString 10 total ++ " "
   ++ padString 10 used ++ " " ++ padString 10 free ++ " ")%string.

(** The columns the six cells take. *)
Definition table_cells_width (device mount type_ total used free : string) : nat :=
  (Nat.max 25 (Utf8.RuneCountInString device) + 1
   + (Nat.max 25 (Utf8.RuneCountInString mount) + 1)
   + (Nat.max 8 (Utf8.RuneCountInString type_) + 1)
   + (Nat.max 10 (Utf8.RuneCountInString total) + 1)
   + (Nat.max 10 (Utf8.RuneCountInString used) + 1)
   + (Nat.max 10 (Utf8.RuneCountInString free) + 1))%nat.

(** *** Sample data for the mount table and the renderers *)

Definition sample_rows : list (MountEntry * string) :=
  [ (entry "/dev/sda1" "/" "ext4", "rw,relatime 0 0");
    (entry "proc" "/proc" "proc", "rw,nosuid,nodev,noexec 0 0") ].

(** A mount table with a blank line, a line of two fields and blanks
    around the fields. *)
Definition sample_mounts_text : string :=
  (LF ++ "  /dev/sdb1   /home  xfs rw 0 0" ++ LF ++ "none /broken" ++ LF
      ++ LF)%string.

Definition sample_record : FS :=
  mkFS (entry "/dev/sda1" "/" "ext4")
       {| Blocks := 1000000; Bsize := 4096; Bavail := 250000 |}.
(* ===================================================================== *)
(** * Part II: properties *)
(* ===================================================================== *)

(** ** Mount filter *)

Lemma shouldIncludeFS_spec (fsType : string) (excludeTypes : list string) :
  shouldIncludeFS fsType excludeTypes
  = negb (mem_string fsType (nonempty_types excludeTypes)).
Proof.
  induction excludeTypes as [|ex rest IH]; simpl; [reflexivity|].
  destruct (String.eqb_spec ex "") as [->|Hne]; simpl.
  - exact IH.
  - destruct (String.eqb_spec fsType ex); simpl; [reflexivity | exact IH].
Qed.

Lemma mem_string_In (t : string) (l : list string) :
  mem_string t l = true <-> In t l.
Proof.
  unfold mem_string. rewrite existsb_exists. split.
  - intros [x [Hin Heq]]. apply String.eqb_eq in Heq. now subst.
  - intros Hin. exists t. split; [assumption | apply String.eqb_refl].
Qed.

Lemma nonempty_types_In (t : string) (l : list string) :
  In t (nonempty_types l) <-> In t l /\ t <> "".
Proof.
  unfold nonempty_types. rewrite filter_In, negb_true_iff, String.eqb_neq.
  reflexivity.
Qed.

Lemma filterMounts_filter (mounts : list MountEntry) (ex : list string) :
  filterMounts mounts ex
  = filter (fun m => negb (mem_string (m2 m) (nonempty_types ex))) mounts.
Proof.
  induction mounts as [|m rest IH]; simpl; [reflexivity|].
  rewrite shouldIncludeFS_spec, IH. reflexivity.
Qed.

Lemma nonempty_types_idem (ex : list string) :
  nonempty_types (nonempty_types ex) = nonempty_types ex.
Proof.
  unfold nonempty_types. induction ex as [|e ex IH]; simpl; [reflexivity|].
  destruct (e =? "")%string eqn:E; simpl; [exact IH|].
  rewrite E. simpl. now rewrite IH.
Qed.

Lemma Split_not_nil (s : string) (sep : ascii) : Strings.Split s sep <> [].
Proof.
  destruct s as [|c s]; simpl; [discriminate|].
  destruct (Ascii.eqb c sep); [discriminate|].
  destruct (Strings.Split s sep); discriminate.
Qed.

Lemma Split_snoc_sep (s : string) (sep : ascii) :
  Strings.Split (s ++ String sep EmptyString) sep
  = Strings.Split s sep ++ [EmptyString].
Proof.
  induction s as [|c s IH]; simpl.
  - rewrite Ascii.eqb_refl. reflexivity.
  - destruct (Ascii.eqb c sep); rewrite IH; [reflexivity|].
    pose proof (Split_not_nil s sep) as Hne.
    destruct (Strings.Split s sep); [congruence | reflexivity].
Qed.

(** [Split] cuts at the separators and nowhere else: joining the pieces
    with the separator gives the string back, and no piece holds one. *)
Lemma Split_concat (s : string) (sep : ascii) :
  String.concat (String sep EmptyString) (Strings.Split s sep) = s.
Proof.
  induction s as [|c s IH]; simpl; [reflexivity|].
  pose proof (Split_not_nil s sep) as Hne.
  destruct (Ascii.eqb_spec c sep) as [->|Hc].
  - simpl. destruct (Strings.Split s sep) as [|p ps] eqn:E; [congruence|].
    simpl in *. now rewrite IH.
  - destruct (Strings.Split s sep) as [|p ps] eqn:E; [congruence|].
    simpl in *. destruct ps; simpl in *; now rewrite <- IH.
Qed.

Lemma Split_no_sep (s : string) (sep : ascii) :
  Forall (fun piece => ~ In sep (list_ascii_of_string piece))
         (Strings.Split s sep).
Proof.
  induction s as [|c s IH]; simpl.
  - constructor; [intros [] | constructor].
  - destruct (Ascii.eqb_spec c sep) as [->|Hc].
    + constructor; [intros [] | exact IH].
    + destruct (Strings.Split s sep) as [|p ps]; simpl.
      * constructor; [|constructor]. simpl. intros [H|[]]. congruence.
      * inversion IH as [|? ? Hp Hps]; subst.
        constructor; [|assumption]. simpl. intros [H|H]; [congruence|auto].
Qed.

Lemma nonempty_types_app (l1 l2 : list string) :
  nonempty_types (l1 ++ l2) = nonempty_types l1 ++ nonempty_types l2.
Proof. apply filter_app. Qed.

(** C5. The filter keeps, in input order, exactly the entries whose type
    is not a (non-empty) member of the exclusion list; empty entries of
    the list, as a trailing comma or an empty flag value produce them,
    exclude nothing; excluding [proc] and [tmpfs] from entries of exactly
    these types leaves nothing. *)
Theorem C5_filterMounts_exact :
  (forall mounts ex,
      filterMounts mounts ex
      = filter (fun m => negb (mem_string (m2 m) (nonempty_types ex))) mounts)
  /\ (forall mounts ex m,
         In m (filterMounts mounts ex)
         <-> In m mounts /\ ~ (In (m2 m) ex /\ m2 m <> ""%string))
  /\ (forall mounts ex,
         filterMounts mounts ex = filterMounts mounts (nonempty_types ex))
  /\ (forall mounts ex, filterMounts mounts (""%string :: ex) = filterMounts mounts ex)
  /\ (forall mounts flag,
         filterByFlag mounts (flag ++ ",") = filterByFlag mounts flag)
  /\ (forall mounts, filterByFlag mounts "" = mounts)
  /\ filterByFlag [entry "proc" "/proc" "proc"; entry "tmpfs" "/run" "tmpfs"]
                  "proc,tmpfs" = [].
Proof.
  split; [apply filterMounts_filter|].
  split.
  { intros mounts ex m.
    rewrite filterMounts_filter, filter_In, negb_true_iff. split.
    - intros [Hin Hmem]. split; [assumption|]. intros [Hex Hne].
      assert (Hm : mem_string (m2 m) (nonempty_types ex) = true)
        by (apply mem_string_In, nonempty_types_In; auto).
      congruence.
    - intros [Hin Hn]. split; [assumption|].
      destruct (mem_string (m2 m) (nonempty_types ex)) eqn:E; [|reflexivity].
      exfalso. apply Hn. apply mem_string_In, nonempty_types_In in E. tauto. }
  split.
  { intros. rewrite !filterMounts_filter, nonempty_types_idem. reflexivity. }
  split.
  { intros. rewrite !filterMounts_filter. reflexivity. }
  split.
  { intros. unfold filterByFlag. rewrite Split_snoc_sep.
    rewrite !filterMounts_filter, nonempty_types_app, app_nil_r.
    reflexivity. }
  split.
  { intros. unfold filterByFlag. simpl. rewrite filterMounts_filter. simpl.
    induction mounts as [|m rest IH]; simpl; [reflexivity | now rewrite IH]. }
  reflexivity.
Qed.



(** ** Usage analyzer *)

Section Analyzer.
Variable env : Env.

Local Arguments Nat.modulo : simpl never.

(** The loop, started at position [i] with [list_] and [tr] accumulated,
    adds the stats and interactions of the positions it processes. *)
Lemma analyze_loop_spec (n : nat) (mounts : list MountEntry) :
  forall (i : nat) (list_ : list FS) (tr : list Event),
    let k := processed_from env i (List.length mounts) in
    let ims := firstn k (combine (seq i (List.length mounts)) mounts) in
    analyze_loop env n i mounts list_ tr
    = (list_ ++ flat_map (stat_of env) ims,
       tr ++ flat_map (events_of env n) ims
          ++ (if (k <? List.length mounts)%nat then cancel_events (i + k) else [])).
Proof.
  induction mounts as [|m rest IH]; intros i list_ tr; simpl.
  - rewrite !app_nil_r. reflexivity.
  - destruct (Done env i) eqn:Hdone; simpl.
    + rewrite !app_nil_r, Nat.add_0_r. reflexivity.
    + unfold stat_of at 1, events_of at 1. simpl.
      destruct (Statfs env i (m1 m)) as [s|err] eqn:Hst; rewrite IH;
        destruct (i mod 10 =? 0)%nat; simpl;
        rewrite <- ?app_assoc; simpl; rewrite ?Nat.add_succ_r;
        reflexivity.
Qed.

Lemma analyze_result (mounts : list MountEntry) :
  fst (analyze env mounts)
  = flat_map (stat_of env) (firstn (processed env mounts) (indexed mounts)).
Proof.
  unfold analyze. rewrite analyze_loop_spec. reflexivity.
Qed.

Lemma analyze_trace (mounts : list MountEntry) :
  snd (analyze env mounts)
  = flat_map (events_of env (List.length mounts))
             (firstn (processed env mounts) (indexed mounts))
    ++ (if (processed env mounts <? List.length mounts)%nat
        then cancel_events (processed env mounts) else []).
Proof.
  unfold analyze. rewrite analyze_loop_spec. reflexivity.
Qed.

Lemma processed_from_le (i k : nat) : (processed_from env i k <= k)%nat.
Proof.
  revert i. induction k as [|k IH]; intros i; simpl; [lia|].
  destruct (Done env i); [lia|]. specialize (IH (S i)). lia.
Qed.

(** Polls before the first cancelled one see no cancellation. *)
Lemma processed_from_exact (N : nat) :
  forall i k,
    (N < k)%nat ->
    (forall j, (j < N)%nat -> Done env (i + j) = false) ->
    Done env (i + N) = true ->
    processed_from env i k = N.
Proof.
  induction N as [|N IH]; intros i k Hk Hlive Hdone.
  - destruct k; [lia|]. simpl. rewrite Nat.add_0_r in Hdone.
    now rewrite Hdone.
  - destruct k; [lia|]. simpl.
    rewrite <- (Nat.add_0_r i) at 1. rewrite Hlive by lia.
    f_equal. apply IH; [lia| |].
    + intros j Hj. replace (S i + j)%nat with (i + S j)%nat by lia.
      apply Hlive. lia.
    + replace (S i + N)%nat with (i + S N)%nat by lia. exact Hdone.
Qed.

Lemma processed_from_all (k : nat) :
  forall i,
    (forall j, (j < k)%nat -> Done env (i + j) = false) ->
    processed_from env i k = k.
Proof.
  induction k as [|k IH]; intros i Hlive; simpl; [reflexivity|].
  rewrite <- (Nat.add_0_r i) at 1. rewrite Hlive by lia.
  f_equal. apply IH. intros j Hj.
  replace (S i + j)%nat with (i + S j)%nat by lia. apply Hlive. lia.
Qed.

Lemma processed_from_live (k : nat) :
  forall i j, (j < processed_from env i k)%nat -> Done env (i + j) = false.
Proof.
  induction k as [|k IH]; intros i j Hj; simpl in Hj; [lia|].
  destruct (Done env i) eqn:Hd; [lia|].
  destruct j as [|j]; [now rewrite Nat.add_0_r|].
  replace (i + S j)%nat with (S i + j)%nat by lia. apply IH. lia.
Qed.

Lemma indexed_length (mounts : list MountEntry) :
  List.length (indexed mounts) = List.length mounts.
Proof.
  unfold indexed. rewrite length_combine, length_seq. lia.
Qed.

Lemma indexed_nth_error (mounts : list MountEntry) (i : nat) (m : MountEntry) :
  nth_error mounts i = Some m -> nth_error (indexed mounts) i = Some (i, m).
Proof.
  unfold indexed. intros H.
  enough (G : forall b, nth_error (combine (seq b (List.length mounts)) mounts) i
                        = Some ((b + i)%nat, m)) by apply (G 0%nat).
  revert i H.
  induction mounts as [|x rest IH]; intros i H b; simpl in *.
  - destruct i; discriminate.
  - destruct i as [|i]; simpl in *.
    + injection H as ->. now rewrite Nat.add_0_r.
    + rewrite (IH i H (S b)). f_equal. f_equal. lia.
Qed.

Lemma indexed_nth_error_inv (mounts : list MountEntry) (j i : nat) (m : MountEntry) :
  nth_error (indexed mounts) j = Some (i, m) ->
  i = j /\ nth_error mounts j = Some m.
Proof.
  intros H.
  destruct (nth_error mounts j) as [m'|] eqn:E.
  - rewrite (indexed_nth_error _ _ _ E) in H. injection H as -> ->. auto.
  - apply nth_error_None in E.
    assert (nth_error (indexed mounts) j = None)
      by (apply nth_error_None; rewrite indexed_length; exact E).
    congruence.
Qed.

Lemma in_reached (mounts : list MountEntry) (k i : nat) (m : MountEntry) :
  In (i, m) (firstn k (indexed mounts)) <->
  (i < k)%nat /\ nth_error mounts i = Some m.
Proof.
  split.
  - intros H. apply In_nth_error in H as [j Hj].
    rewrite nth_error_firstn in Hj.
    destruct (j <? k)%nat eqn:Hlt; [|discriminate].
    apply indexed_nth_error_inv in Hj as [-> Hm].
    apply Nat.ltb_lt in Hlt. auto.
  - intros [Hlt Hm]. apply (nth_error_In _ i).
    rewrite nth_error_firstn.
    apply Nat.ltb_lt in Hlt. rewrite Hlt.
    now apply indexed_nth_error.
Qed.

Lemma indexed_firstn (mounts : list MountEntry) (N : nat) :
  (N <= List.length mounts)%nat ->
  indexed (firstn N mounts) = firstn N (indexed mounts).
Proof.
  intros _. unfold indexed. generalize 0%nat as b. revert N.
  induction mounts as [|m rest IH]; intros N b.
  - destruct N; reflexivity.
  - destruct N as [|N]; simpl; [reflexivity|]. now rewrite IH.
Qed.

Lemma stat_of_length (l : list (nat * MountEntry)) :
  (List.length (flat_map (stat_of env) l) <= List.length l)%nat.
Proof.
  induction l as [|im l IH]; simpl; [lia|].
  rewrite length_app. unfold stat_of at 1.
  destruct (Statfs env (fst im) (m1 (snd im))); simpl; lia.
Qed.

Lemma stat_of_length_all (l : list (nat * MountEntry)) :
  Forall (fun im => succeeds env im = true) l ->
  List.length (flat_map (stat_of env) l) = List.length l.
Proof.
  induction 1 as [|im l Him _ IH]; simpl; [reflexivity|].
  rewrite length_app, IH. unfold succeeds in Him. unfold stat_of.
  destruct (Statfs env (fst im) (m1 (snd im))); [reflexivity|discriminate].
Qed.

Lemma stat_of_filter (l : list (nat * MountEntry)) :
  Forall2 (fun fs im =>
             exists s, Statfs env (fst im) (m1 (snd im)) = inl s /\
                       fs = mkFS (snd im) s)
          (flat_map (stat_of env) l) (filter (succeeds env) l).
Proof.
  induction l as [|im l IH]; simpl; [constructor|].
  unfold stat_of at 1, succeeds at 1.
  destruct (Statfs env (fst im) (m1 (snd im))) as [s|err] eqn:E; simpl.
  - constructor; [exists s; auto | exact IH].
  - exact IH.
Qed.

Lemma analyze_In (mounts : list MountEntry) (fs : FS) :
  In fs (fst (analyze env mounts)) <->
  exists i m s,
    (i < processed env mounts)%nat /\ nth_error mounts i = Some m /\
    Statfs env i (m1 m) = inl s /\ fs = mkFS m s.
Proof.
  rewrite analyze_result, in_flat_map. split.
  - intros [[i m] [Hin Hfs]]. apply in_reached in Hin as [Hlt Hm].
    unfold stat_of in Hfs. simpl in Hfs.
    destruct (Statfs env i (m1 m)) as [s|] eqn:E; [|contradiction].
    destruct Hfs as [<-|[]]. exists i, m, s. auto.
  - intros (i & m & s & Hlt & Hm & Hs & ->).
    exists (i, m). split; [now apply in_reached|].
    unfold stat_of. simpl. rewrite Hs. now left.
Qed.

Lemma processed_le (mounts : list MountEntry) :
  (processed env mounts <= List.length mounts)%nat.
Proof. apply processed_from_le. Qed.

Lemma trace_In_iteration (mounts : list MountEntry) (i : nat) (m : MountEntry) (e : Event) :
  (i < processed env mounts)%nat ->
  nth_error mounts i = Some m ->
  In e (events_of env (List.length mounts) (i, m)) ->
  In e (snd (analyze env mounts)).
Proof.
  intros Hlt Hm He. rewrite analyze_trace. apply in_or_app. left.
  apply in_flat_map. exists (i, m). split; [now apply in_reached | exact He].
Qed.

(** C10. The analyzer's result is the order-preserving image of the
    mounts processed before a cancellation is observed (a prefix of the
    input), restricted to those whose query succeeded: nothing is
    reordered, duplicated or inserted. *)
Theorem C10_analyze_order_preserving (mounts : list MountEntry) :
  let reached := firstn (processed env mounts) (indexed mounts) in
  fst (analyze env mounts) = flat_map (stat_of env) reached
  /\ Forall2 (fun fs im =>
                exists s, Statfs env (fst im) (m1 (snd im)) = inl s /\
                          fs = mkFS (snd im) s)
             (fst (analyze env mounts)) (filter (succeeds env) reached)
  /\ map Mount (fst (analyze env mounts))
     = map (fun im => m1 (snd im)) (filter (succeeds env) reached).
Proof.
  intros reached.
  assert (H1 : fst (analyze env mounts) = flat_map (stat_of env) reached)
    by apply analyze_result.
  assert (H2 := stat_of_filter reached). rewrite <- H1 in H2.
  repeat split; try assumption.
  clear H1. induction H2 as [|fs im l l' (s & _ & ->) _ IH]; simpl;
    [reflexivity | now rewrite IH].
Qed.

(** C3 (amended). When the cancellation becomes visible after [N] of
    the mounts have been processed, the scan, which polls the flag before
    each query, stops at its next poll without querying any further
    mount, and returns exactly the stats accumulated so far: one for each
    of the [N] processed mounts whose query succeeded, so [N] records when
    all [N] queries succeeded and fewer when some mount was skipped.  The
    result is an ordinary slice, no error value accompanies it. *)
Theorem C3_cancellation_partial (mounts : list MountEntry) (N : nat) :
  (N < List.length mounts)%nat ->
  (forall i, (i < N)%nat -> Done env i = false) ->
  Done env N = true ->
  let result := fst (analyze env mounts) in
  let reached := firstn N (indexed mounts) in
  snd (analyze env mounts)
  = flat_map (events_of env (List.length mounts)) reached ++ cancel_events N
  /\ result = flat_map (stat_of env) reached
  /\ result = fst (analyze env (firstn N mounts))
  /\ (List.length result <= N)%nat
  /\ ((forall i m, (i < N)%nat -> nth_error mounts i = Some m ->
                   exists s, Statfs env i (m1 m) = inl s) ->
      List.length result = N).
Proof.
  intros HN Hlive Hdone result reached.
  assert (Hk : processed env mounts = N)
    by (apply processed_from_exact; auto).
  assert (Hres : result = flat_map (stat_of env) reached)
    by (unfold result, reached; rewrite analyze_result, Hk; reflexivity).
  assert (Hlen : List.length reached = N).
  { unfold reached. rewrite length_firstn, indexed_length. lia. }
  split.
  { rewrite analyze_trace, Hk.
    apply Nat.ltb_lt in HN. rewrite HN. reflexivity. }
  split; [exact Hres|].
  split.
  { rewrite Hres, analyze_result. unfold processed.
    rewrite length_firstn, Nat.min_l by lia.
    rewrite processed_from_all by (intros; apply Hlive; assumption).
    rewrite indexed_firstn by lia.
    rewrite firstn_firstn, Nat.min_id. reflexivity. }
  split.
  { rewrite Hres, <- Hlen. apply stat_of_length. }
  intros Hok. rewrite Hres, <- Hlen. apply stat_of_length_all.
  apply Forall_forall. intros [i m] Hin.
  apply in_reached in Hin as [Hlt Hm].
  destruct (Hok i m Hlt Hm) as [s Hs].
  unfold succeeds. simpl. now rewrite Hs.
Qed.

(** C4. A mount whose query fails is skipped: it contributes no record,
    a warning is logged, and the scan goes on; every other mount the scan
    reaches is queried and, when its query succeeds, is in the result.
    A scan that is never cancelled reaches every mount. *)
Theorem C4_failed_mount_skipped
        (mounts : list MountEntry) (i : nat) (m : MountEntry) (err : Errno) :
  nth_error mounts i = Some m ->
  (i < processed env mounts)%nat ->
  Statfs env i (m1 m) = inr err ->
  let k := processed env mounts in
  fst (analyze env mounts)
  = flat_map (stat_of env) (firstn i (indexed mounts))
    ++ flat_map (stat_of env) (skipn (S i) (firstn k (indexed mounts)))
  /\ In (EvPrintf (LogWarning (m1 m) err)) (snd (analyze env mounts))
  /\ (forall j m', (j < k)%nat -> nth_error mounts j = Some m' ->
                   In (EvStatfs j (m1 m')) (snd (analyze env mounts)))
  /\ (forall j m' s, (j < k)%nat -> nth_error mounts j = Some m' ->
                     Statfs env j (m1 m') = inl s ->
                     In (mkFS m' s) (fst (analyze env mounts)))
  /\ ((forall j, Done env j = false) -> k = List.length mounts).
Proof.
  intros Hm Hlt Hfail k.
  split.
  { rewrite analyze_result. fold k.
    assert (Hnth : nth_error (firstn k (indexed mounts)) i = Some (i, m)).
    { rewrite nth_error_firstn. apply Nat.ltb_lt in Hlt. fold k in Hlt.
      rewrite Hlt. now apply indexed_nth_error. }
    rewrite <- (firstn_skipn_middle _ _ Hnth) at 1.
    rewrite firstn_firstn, Nat.min_l by (unfold k; lia).
    rewrite flat_map_app. simpl. unfold stat_of at 2. simpl.
    rewrite Hfail. reflexivity. }
  split.
  { apply (trace_In_iteration mounts i m); auto.
    unfold events_of. simpl. rewrite Hfail.
    right. apply in_or_app. right. right. now left. }
  split.
  { intros j m' Hj Hm'. apply (trace_In_iteration mounts j m'); auto.
    unfold events_of. simpl.
    right. apply in_or_app. right. now left. }
  split.
  { intros j m' s Hj Hm' Hs. apply analyze_In. exists j, m', s. auto. }
  intros Hlive. apply processed_from_all. intros j _. apply Hlive.
Qed.

Lemma usagePercent_zero_total (used : Z) : usagePercent used 0 = F64.zero.
Proof. reflexivity. Qed.

End Analyzer.

(** ** [sort.Slice]: what holds through any [lessSwap] *)

Section SortInvariant.
Variable T : Type.
Variable Less : T -> nat -> nat -> bool.
Variable Swap : T -> nat -> nat -> T.

(** A property of the slice that no [Swap] breaks. *)
Variable P : T -> Prop.
Hypothesis P_Swap : forall d i j, P d -> P (Swap d i j).

Lemma ends_with_Some (d : T) : P d -> ends_with P (Some d).
Proof. intros H. exists d. auto. Qed.

Lemma insertion_inner_inv (a j : nat) :
  forall d, P d -> P (Sort.insertion_inner T Less Swap d a j).
Proof.
  induction j as [|j IH]; intros d Hd; simpl; [assumption|].
  destruct ((a <? S j)%nat && Less d (S j) j); auto.
Qed.

Lemma insertionSort_inv (a b : nat) (d : T) :
  P d -> P (Sort.insertionSort_func T Less Swap d a b).
Proof.
  unfold Sort.insertionSort_func.
  generalize (seq (a + 1) (b - (a + 1))) as idxs. intros idxs. revert d.
  induction idxs as [|i idxs IH]; intros d Hd; simpl; [assumption|].
  apply IH. now apply insertion_inner_inv.
Qed.

Lemma siftDown_ends (n : nat) :
  forall d root hi first,
    (hi - root <= n)%nat -> P d ->
    ends_with P (Sort.siftDown_func T Less Swap n d root hi first).
Proof.
  induction n as [|n IH]; intros d root hi first Hn Hd; simpl;
    match goal with
    | |- context [(hi <=? ?c)%nat] => destruct (hi <=? c)%nat eqn:E
    end; try (now apply ends_with_Some); apply Nat.leb_gt in E.
  - lia.
  - match goal with
    | |- context [if negb ?c then _ else _] => destruct c
    end; simpl; [|now apply ends_with_Some].
    apply IH; [|now apply P_Swap].
    match goal with
    | |- context [if ?c then _ else _] => destruct c
    end; lia.
Qed.

Lemma heap_build_ends (idxs : list nat) (hi first : nat) :
  forall d, P d -> ends_with P (Sort.heap_build T Less Swap idxs d hi first).
Proof.
  induction idxs as [|i idxs IH]; intros d Hd; simpl;
    [now apply ends_with_Some|].
  destruct (siftDown_ends hi d i hi first ltac:(lia) Hd) as (d' & -> & Hd').
  now apply IH.
Qed.

Lemma heap_pop_ends (idxs : list nat) (lo first : nat) :
  lo = 0%nat ->
  forall d, P d -> ends_with P (Sort.heap_pop T Less Swap idxs d lo first).
Proof.
  intros ->. induction idxs as [|i idxs IH]; intros d Hd; simpl;
    [now apply ends_with_Some|].
  destruct (siftDown_ends i (Swap d first (first + i)) 0 i first
                          ltac:(lia) (P_Swap _ _ _ Hd)) as (d' & -> & Hd').
  now apply IH.
Qed.

Lemma heapSort_ends (d : T) (a b : nat) :
  P d -> ends_with P (Sort.heapSort_func T Less Swap d a b).
Proof.
  intros Hd. unfold Sort.heapSort_func.
  destruct (heap_build_ends (rev (seq 0 ((b - a - 1) / 2 + 1))) (b - a) a d Hd)
    as (d' & -> & Hd').
  now apply heap_pop_ends.
Qed.

Lemma scan_up_bounds (c : nat -> bool) (n : nat) :
  forall i, (i <= Sort.scan_up c n i <= i + n)%nat.
Proof.
  induction n as [|n IH]; intros i; simpl; [lia|].
  destruct (c i); [|lia]. specialize (IH (S i)). lia.
Qed.

Lemma scan_down_bounds (c : nat -> bool) (n : nat) :
  forall j, (j - n <= Sort.scan_down c n j <= j)%nat.
Proof.
  induction n as [|n IH]; intros j; simpl; [lia|].
  destruct (c j); [|lia]. specialize (IH (j - 1)%nat). lia.
Qed.

(** Names the results [i1], [j1] of the two scans a partition loop starts
    with, and records their bounds. *)
Ltac name_scans i1 j1 :=
  match goal with
  | |- context [Sort.scan_down ?c2 (?j + 1 - Sort.scan_up ?c1 ?k ?i) ?j] =>
      let Hi := fresh "Hi" in
      let Hj := fresh "Hj" in
      pose proof (scan_up_bounds c1 k i) as Hi;
      pose proof (scan_down_bounds c2 (j + 1 - Sort.scan_up c1 k i) j) as Hj;
      set (i1 := Sort.scan_up c1 k i) in *;
      set (j1 := Sort.scan_down c2 (j + 1 - i1) j) in *
  end.

(** The loop of [partition_func] ends, with [j] inside the scanned range. *)
Lemma partition_loop_ends (n : nat) :
  forall d a i j,
    (j + 1 - i <= n)%nat -> P d ->
    exists d' j',
      Sort.partition_loop T Less Swap n d a i j = Some (d', j') /\ P d' /\
      (j' <= j)%nat /\ (Nat.min i (j + 1) <= j' + 1)%nat.
Proof.
  induction n as [|n IH]; intros d a i j Hn Hd; simpl;
    name_scans i1 j1;
    destruct (j1 <? i1)%nat eqn:E.
  - exists d, j1. repeat split; auto; lia.
  - apply Nat.ltb_ge in E. lia.
  - exists d, j1. repeat split; auto; lia.
  - apply Nat.ltb_ge in E.
    destruct (IH (Swap d i1 j1) a (i1 + 1)%nat (j1 - 1)%nat ltac:(lia)
                 (P_Swap _ _ _ Hd)) as (d' & j' & -> & Hd' & H1 & H2).
    exists d', j'. repeat split; auto; lia.
Qed.

Lemma partition_ends (d : T) (a b pivot : nat) :
  (a < b)%nat -> P d ->
  exists d' mid ap,
    Sort.partition_func T Less Swap d a b pivot = Some (d', mid, ap) /\ P d' /\
    (a <= mid < b)%nat.
Proof.
  intros Hab Hd. unfold Sort.partition_func.
  name_scans i1 j1.
  destruct (j1 <? i1)%nat eqn:E.
  - eexists _, j1, true. repeat split; auto; lia.
  - apply Nat.ltb_ge in E.
    destruct (partition_loop_ends (j1 - 1 + 1 - (i1 + 1))
                (Swap (Swap d a pivot) i1 j1) a (i1 + 1)%nat (j1 - 1)%nat
                (Nat.le_refl _) (P_Swap _ _ _ (P_Swap _ _ _ Hd)))
      as (d' & j' & -> & Hd' & H1 & H2).
    eexists _, j', false. repeat split; auto; lia.
Qed.

Lemma partitionEqual_loop_ends (n : nat) :
  forall d a i j,
    (j + 1 - i <= n)%nat -> P d ->
    exists d' i',
      Sort.partitionEqual_loop T Less Swap n d a i j = Some (d', i') /\ P d' /\
      (i <= i')%nat.
Proof.
  induction n as [|n IH]; intros d a i j Hn Hd; simpl;
    name_scans i1 j1;
    destruct (j1 <? i1)%nat eqn:E.
  - exists d, i1. repeat split; auto; lia.
  - apply Nat.ltb_ge in E. lia.
  - exists d, i1. repeat split; auto; lia.
  - apply Nat.ltb_ge in E.
    destruct (IH (Swap d i1 j1) a (i1 + 1)%nat (j1 - 1)%nat ltac:(lia)
                 (P_Swap _ _ _ Hd)) as (d' & i' & -> & Hd' & H1).
    exists d', i'. repeat split; auto; lia.
Qed.

Lemma partitionEqual_ends (d : T) (a b pivot : nat) :
  P d ->
  exists d' mid,
    Sort.partitionEqual_func T Less Swap d a b pivot = Some (d', mid) /\ P d' /\
    (a < mid)%nat.
Proof.
  intros Hd. unfold Sort.partitionEqual_func.
  destruct (partitionEqual_loop_ends (b - 1 + 1 - (a + 1)) (Swap d a pivot) a
              (a + 1)%nat (b - 1)%nat (Nat.le_refl _) (P_Swap _ _ _ Hd))
    as (d' & i' & -> & Hd' & H1).
  exists d', i'. repeat split; auto; lia.
Qed.

Lemma shift_left_inv (j : nat) :
  forall d, P d -> P (Sort.shift_left T Less Swap d j).
Proof.
  induction j as [|j IH]; intros d Hd; simpl; [assumption|].
  destruct (negb (Less d (S j) j)); auto.
Qed.

Lemma shift_right_inv (n : nat) :
  forall d j, P d -> P (Sort.shift_right T Less Swap n d j).
Proof.
  induction n as [|n IH]; intros d j Hd; simpl; [assumption|].
  destruct (negb (Less d j (j - 1))); auto.
Qed.

Lemma partialInsertionSort_loop_inv (steps : nat) :
  forall d a b i,
    P d -> P (fst (Sort.partialInsertionSort_loop T Less Swap steps d a b i)).
Proof.
  induction steps as [|steps IH]; intros d a b i Hd; simpl; [assumption|].
  match goal with |- context [Sort.scan_up ?c ?k i] =>
    set (i1 := Sort.scan_up c k i) end.
  destruct (i1 =? b)%nat; [assumption|].
  destruct (b - a <? Sort.shortestShifting)%nat; [assumption|].
  apply IH.
  repeat match goal with
         | |- context [if ?c then _ else _] => destruct c
         end;
    repeat first [ assumption | apply P_Swap
                 | apply shift_left_inv | apply shift_right_inv ].
Qed.

Lemma partialInsertionSort_inv (d : T) (a b : nat) :
  P d -> P (fst (Sort.partialInsertionSort_func T Less Swap d a b)).
Proof. apply partialInsertionSort_loop_inv. Qed.

Lemma breakPatterns_inv (d : T) (a b : nat) :
  P d -> P (Sort.breakPatterns_func T Swap d a b).
Proof.
  intros Hd. unfold Sort.breakPatterns_func.
  destruct (8 <=? b - a)%nat; [|assumption].
  generalize (Z.of_nat (b - a)) as random.
  generalize (seq 0 3) as idxs. intros idxs. revert d Hd.
  induction idxs as [|i idxs IH]; intros d Hd random; simpl; [assumption|].
  apply IH. now apply P_Swap.
Qed.

Lemma reverseRange_loop_ends (n : nat) :
  forall d i j,
    (j - i <= n)%nat -> P d ->
    ends_with P (Sort.reverseRange_loop T Swap n d i j).
Proof.
  induction n as [|n IH]; intros d i j Hn Hd; simpl;
    destruct (i <? j)%nat eqn:E; try (now apply ends_with_Some).
  - apply Nat.ltb_lt in E. lia.
  - apply Nat.ltb_lt in E. apply IH; [lia | now apply P_Swap].
Qed.

Lemma reverseRange_ends (d : T) (a b : nat) :
  P d -> ends_with P (Sort.reverseRange_func T Swap d a b).
Proof. intros Hd. apply reverseRange_loop_ends; [lia | assumption]. Qed.

(** [pdqsort_func] ends whenever its counter exceeds the length of the
    range: every iteration and every recursive call works on a strictly
    shorter range. *)
Lemma pdqsort_ends (n : nat) :
  forall d a b limit wasBalanced wasPartitioned,
    (b - a < n)%nat -> P d ->
    ends_with P (Sort.pdqsort_func T Less Swap n d a b limit
                                 wasBalanced wasPartitioned).
Proof.
  induction n as [|n IH]; intros d a b limit wb wp Hn Hd; [lia|].
  cbn [Sort.pdqsort_func].
  destruct (b - a <=? Sort.maxInsertion)%nat eqn:Hlen.
  { apply ends_with_Some. now apply insertionSort_inv. }
  apply Nat.leb_gt in Hlen. unfold Sort.maxInsertion in Hlen.
  destruct (limit =? 0)%nat; [now apply heapSort_ends|].
  assert (Hbp : exists d1 limit1,
             (if negb wb
              then (Sort.breakPatterns_func T Swap d a b, (limit - 1)%nat)
              else (d, limit)) = (d1, limit1) /\ P d1).
  { destruct wb; simpl; eauto using breakPatterns_inv. }
  destruct Hbp as (d1 & limit1 & -> & Hd1).
  destruct (Sort.choosePivot_func T Less d1 a b) as [pivot hint].
  assert (Hrev : exists d2 pivot2 hint2,
             (if Sort.sortedHint_eqb hint Sort.decreasingHint
              then
                match Sort.reverseRange_func T Swap d1 a b with
                | Some data =>
                    Some (data, (b - 1 - (pivot - a))%nat, Sort.increasingHint)
                | None => None
                end
              else Some (d1, pivot, hint)) = Some (d2, pivot2, hint2) /\ P d2).
  { destruct (Sort.sortedHint_eqb hint Sort.decreasingHint); [|eauto].
    destruct (reverseRange_ends d1 a b Hd1) as (d2 & -> & Hd2). eauto. }
  destruct Hrev as (d2 & pivot2 & hint2 & -> & Hd2).
  assert (Hpis : exists d3 sorted,
             (if wb && wp && Sort.sortedHint_eqb hint2 Sort.increasingHint
              then Sort.partialInsertionSort_func T Less Swap d2 a b
              else (d2, false)) = (d3, sorted) /\ P d3).
  { destruct (wb && wp && Sort.sortedHint_eqb hint2 Sort.increasingHint);
      [|eauto].
    pose proof (partialInsertionSort_inv d2 a b Hd2) as H.
    destruct (Sort.partialInsertionSort_func T Less Swap d2 a b) as [d3 sorted].
    eauto. }
  destruct Hpis as (d3 & sorted & -> & Hd3).
  destruct sorted; [now apply ends_with_Some|].
  destruct ((0 <? a)%nat && negb (Less d3 (a - 1) pivot2)).
  - destruct (partitionEqual_ends d3 a b pivot2 Hd3)
      as (d4 & mid & -> & Hd4 & Hmid).
    apply IH; [lia | assumption].
  - destruct (partition_ends d3 a b pivot2 ltac:(lia) Hd3)
      as (d4 & mid & ap & -> & Hd4 & Hmid).
    destruct (mid - a <? b - mid)%nat.
    + destruct (IH d4 a mid limit1 true true ltac:(lia) Hd4)
        as (d5 & -> & Hd5).
      apply IH; [lia | assumption].
    + destruct (IH d4 (mid + 1)%nat b limit1 true true ltac:(lia) Hd4)
        as (d5 & -> & Hd5).
      apply IH; [lia | assumption].
Qed.

Lemma Slice_func_ends (d : T) (length : nat) :
  P d -> ends_with P (Sort.Slice_func T Less Swap d length).
Proof.
  intros Hd. unfold Sort.Slice_func. apply pdqsort_ends; [lia | assumption].
Qed.

(** Up to [maxInsertion] elements, [sort.Slice] is the insertion sort. *)
Lemma Slice_func_short (d : T) (length : nat) :
  (length <= Sort.maxInsertion)%nat ->
  Sort.Slice_func T Less Swap d length
  = Some (Sort.insertionSort_func T Less Swap d 0 length).
Proof.
  intros H. unfold Sort.Slice_func. cbn [Sort.pdqsort_func].
  rewrite Nat.sub_0_r. apply Nat.leb_le in H. now rewrite H.
Qed.

End SortInvariant.

(** ** [sort.Slice] on a Go slice *)

Section SliceFacts.
Variable A : Type.
Variable less : A -> A -> bool.

Lemma nth_error_set_nth_eq (l : list A) (i : nat) (x : A) :
  (i < List.length l)%nat -> nth_error (Sort.set_nth l i x) i = Some x.
Proof.
  revert i. induction l as [|a l IH]; intros i Hi; simpl in *; [lia|].
  destruct i as [|i]; simpl; [reflexivity|]. apply IH. lia.
Qed.

Lemma nth_error_set_nth_ne (l : list A) (i j : nat) (x : A) :
  i <> j -> nth_error (Sort.set_nth l i x) j = nth_error l j.
Proof.
  revert i j. induction l as [|a l IH]; intros i j Hij; simpl.
  - destruct i; reflexivity.
  - destruct i as [|i], j as [|j]; simpl; try reflexivity; try lia.
    apply IH. lia.
Qed.

(** Overwriting the cell that holds [x] with [y] trades [x] for [y]. *)
Lemma set_nth_Permutation (l : list A) (i : nat) (x y : A) :
  nth_error l i = Some x ->
  Permutation (y :: l) (x :: Sort.set_nth l i y).
Proof.
  revert i. induction l as [|a l IH]; intros i Hi.
  - destruct i; discriminate.
  - destruct i as [|i]; simpl in *.
    + injection Hi as ->. apply perm_swap.
    + eapply Permutation_trans; [apply perm_swap|].
      eapply Permutation_trans; [apply perm_skip, (IH i Hi)|].
      apply perm_swap.
Qed.

Lemma slice_Swap_Permutation (l : list A) (i j : nat) :
  Permutation l (Sort.slice_Swap l i j).
Proof.
  unfold Sort.slice_Swap.
  destruct (nth_error l i) as [x|] eqn:Hi; [|apply Permutation_refl].
  destruct (nth_error l j) as [y|] eqn:Hj; [|apply Permutation_refl].
  apply (Permutation_cons_inv (a := y)).
  eapply Permutation_trans; [apply (set_nth_Permutation l i x y Hi)|].
  apply set_nth_Permutation.
  destruct (Nat.eq_dec i j) as [->|Hne].
  - rewrite nth_error_set_nth_eq by (apply nth_error_Some; congruence).
    congruence.
  - rewrite nth_error_set_nth_ne by assumption. exact Hj.
Qed.

(** Every run of [sort.Slice] ends, on a permutation of its input. *)
Lemma Slice_Permutation (l : list A) :
  exists l', Sort.Slice l less = Some l' /\ Permutation l l'.
Proof.
  unfold Sort.Slice.
  apply (Slice_func_ends (list A) (Sort.slice_Less less) Sort.slice_Swap
                         (Permutation l)).
  - intros d i j Hd. eapply Permutation_trans; [exact Hd|].
    apply slice_Swap_Permutation.
  - apply Permutation_refl.
Qed.

Lemma nth_error_middle (pre post : list A) (y x : A) :
  nth_error (pre ++ y :: x :: post) (List.length pre) = Some y /\
  nth_error (pre ++ y :: x :: post) (S (List.length pre)) = Some x.
Proof.
  induction pre as [|a pre IH]; simpl; auto.
Qed.

Lemma slice_Swap_adjacent (pre post : list A) (y x : A) :
  Sort.slice_Swap (pre ++ y :: x :: post) (S (List.length pre)) (List.length pre)
  = pre ++ x :: y :: post.
Proof.
  unfold Sort.slice_Swap.
  destruct (nth_error_middle pre post y x) as [-> ->].
  induction pre as [|a pre IH]; simpl; [reflexivity|]. now rewrite IH.
Qed.

(** The inner loop of the insertion sort, started on the cell behind the
    sorted prefix [rev L], is [insert_left]. *)
Lemma insertion_inner_insert_left (L : list A) :
  forall (x : A) (rest : list A),
    Sort.insertion_inner (list A) (Sort.slice_Less less) Sort.slice_Swap
                         (rev L ++ x :: rest) 0 (List.length L)
    = rev (insert_left less x L) ++ rest.
Proof.
  induction L as [|y L IH]; intros x rest; simpl; [reflexivity|].
  rewrite <- app_assoc. simpl.
  rewrite <- (length_rev L).
  unfold Sort.slice_Less at 1.
  destruct (nth_error_middle (rev L) rest y x) as [-> ->].
  destruct (less x y) eqn:E; simpl.
  - rewrite slice_Swap_adjacent, length_rev, IH, <- app_assoc. reflexivity.
  - rewrite <- !app_assoc. reflexivity.
Qed.

Lemma insert_left_length (x : A) (L : list A) :
  List.length (insert_left less x L) = S (List.length L).
Proof.
  induction L as [|y L IH]; simpl; [reflexivity|].
  destruct (less x y); simpl; [now rewrite IH | reflexivity].
Qed.

Lemma insertion_loop_fold (rest : list A) :
  forall L : list A,
    fold_left (fun data i =>
                 Sort.insertion_inner (list A) (Sort.slice_Less less)
                                      Sort.slice_Swap data 0 i)
              (seq (List.length L) (List.length rest)) (rev L ++ rest)
    = rev (insertion_fold less L rest).
Proof.
  induction rest as [|x rest IH]; intros L; simpl.
  - now rewrite app_nil_r.
  - rewrite insertion_inner_insert_left.
    rewrite <- (insert_left_length x L). apply IH.
Qed.

(** The in-place insertion sort computes the functional one. *)
Lemma insertionSort_func_fold (l : list A) :
  Sort.insertionSort_func (list A) (Sort.slice_Less less) Sort.slice_Swap
                          l 0 (List.length l)
  = rev (insertion_fold less [] l).
Proof.
  unfold Sort.insertionSort_func. destruct l as [|x l]; [reflexivity|].
  simpl. rewrite Nat.sub_0_r.
  apply (insertion_loop_fold l [x]).
Qed.

Lemma Slice_short (l : list A) :
  (List.length l <= 12)%nat ->
  Sort.Slice l less = Some (rev (insertion_fold less [] l)).
Proof.
  intros H. unfold Sort.Slice.
  rewrite Slice_func_short by exact H.
  now rewrite insertionSort_func_fold.
Qed.

(** *** The functional insertion sort is stable and orders its input *)

(** [p] selects elements that [less] never separates. *)
Variable p : A -> bool.
Hypothesis p_class :
  forall a b, less a b = true -> p a = true -> p b = true -> False.

Lemma insert_left_filter (x : A) (L : list A) :
  filter p (rev (insert_left less x L)) = filter p (rev L ++ [x]).
Proof.
  induction L as [|y L IH]; simpl; [reflexivity|].
  destruct (less x y) eqn:E; simpl.
  - rewrite !filter_app, IH, !filter_app. simpl.
    rewrite <- !app_assoc. f_equal.
    destruct (p x) eqn:Px, (p y) eqn:Py; simpl; try reflexivity.
    exfalso. exact (p_class x y E Px Py).
  - reflexivity.
Qed.

Lemma insertion_fold_filter (rest : list A) :
  forall L,
    filter p (rev (insertion_fold less L rest)) = filter p (rev L ++ rest).
Proof.
  induction rest as [|x rest IH]; intros L; simpl.
  - now rewrite app_nil_r.
  - rewrite IH, !filter_app, insert_left_filter, filter_app, <- app_assoc.
    simpl. destruct (p x); reflexivity.
Qed.

End SliceFacts.

Section Ordered.
Variable A : Type.
Variable less : A -> A -> bool.
Hypothesis less_asym : forall a b, less a b = true -> less b a = false.

Lemma insert_left_descending (x : A) (L : list A) :
  descending_by less L -> descending_by less (insert_left less x L).
Proof.
  induction L as [|y L IH]; intros HL; simpl; [exact I|].
  destruct (less x y) eqn:E.
  - simpl in HL. destruct L as [|z L]; simpl.
    + split; [now apply less_asym | exact I].
    + destruct HL as [Hyz HL]. specialize (IH HL). simpl in IH.
      destruct (less x z) eqn:E'; simpl; split; auto.
  - split; assumption.
Qed.

Lemma insertion_fold_descending (rest : list A) :
  forall L, descending_by less L ->
            descending_by less (insertion_fold less L rest).
Proof.
  induction rest as [|x rest IH]; intros L HL; simpl; [assumption|].
  apply IH. now apply insert_left_descending.
Qed.

Lemma ordered_by_snoc (l : list A) (y z : A) :
  ordered_by less (l ++ [z]) -> less y z = false ->
  ordered_by less ((l ++ [z]) ++ [y]).
Proof.
  induction l as [|a l IH]; intros H Hyz; simpl in *.
  - auto.
  - destruct (l ++ [z]) as [|b t] eqn:E.
    + destruct l; discriminate.
    + simpl. destruct H as [Hba H]. split; [assumption|]. now apply IH.
Qed.

Lemma descending_rev (L : list A) :
  descending_by less L -> ordered_by less (rev L).
Proof.
  induction L as [|y L IH]; intros H; simpl; [exact I|].
  destruct L as [|z L]; [exact I|].
  destruct H as [Hyz H]. specialize (IH H). simpl in *.
  now apply ordered_by_snoc.
Qed.

End Ordered.

(** ** Comparisons of [float64] *)

Lemma SFcompare_antisym (x y : float64) :
  SFcompare y x = option_map CompOpp (SFcompare x y).
Proof.
  destruct x as [sx|sx| |sx mx ex], y as [sy|sy| |sy my ey]; simpl;
    try reflexivity;
    try (destruct sx; reflexivity);
    try (destruct sy; reflexivity);
    try (destruct sx, sy; reflexivity).
  pose proof (Pos.compare_cont_antisym mx my Eq) as Hm. simpl in Hm.
  destruct sx, sy; simpl; try reflexivity;
    rewrite (Z.compare_antisym ex ey);
    destruct (ex ?= ey); simpl; try reflexivity;
    rewrite <- Hm; try reflexivity;
    now rewrite CompOpp_involutive.
Qed.

(** Floats that compare equal compare alike with every third float. *)
Lemma SFcompare_Eq_subst (x a : float64) :
  SFcompare x a = Some Eq -> forall b, SFcompare b a = SFcompare b x.
Proof.
  intros H b.
  destruct x as [sx|sx| |sx mx ex], a as [sa|sa| |sa ma ea]; simpl in H;
    try discriminate;
    try (destruct sx; discriminate);
    try (destruct sa; discriminate).
  - destruct b; reflexivity.
  - destruct sx, sa; try discriminate; reflexivity.
  - assert (Hs : sx = sa /\ ex = ea /\ mx = ma).
    { destruct sx, sa; try discriminate;
        destruct (ex ?= ea) eqn:He; try discriminate;
        apply Z.compare_eq_iff in He;
        destruct (Pos.compare_cont Eq mx ma) eqn:Hm; try discriminate;
        apply Pos.compare_eq_iff in Hm; auto. }
    destruct Hs as (-> & -> & ->). reflexivity.
Qed.

Lemma float_eq_class (x a b : float64) :
  F64.eq x a = true -> F64.eq x b = true -> F64.lt b a = false.
Proof.
  unfold F64.eq, F64.lt, SFeqb, SFltb. intros Ha Hb.
  destruct (SFcompare x a) as [[| |]|] eqn:Ea; try discriminate.
  destruct (SFcompare x b) as [[| |]|] eqn:Eb; try discriminate.
  rewrite (SFcompare_Eq_subst x a Ea b), (SFcompare_antisym x b), Eb.
  reflexivity.
Qed.

Lemma float_lt_asym (a b : float64) :
  F64.lt a b = true -> F64.lt b a = false.
Proof.
  unfold F64.lt, SFltb. intros H. rewrite (SFcompare_antisym a b).
  destruct (SFcompare a b) as [[| |]|]; try discriminate; reflexivity.
Qed.

Lemma string_ltb_irrefl (s : string) : (s <? s)%string = false.
Proof.
  unfold String.ltb.
  assert (H : String.compare s s = Eq).
  { induction s as [|c s IH]; simpl; [reflexivity|].
    unfold Ascii.compare. now rewrite N.compare_refl. }
  now rewrite H.
Qed.

Lemma string_ltb_asym (s t : string) :
  (s <? t)%string = true -> (t <? s)%string = false.
Proof.
  unfold String.ltb. rewrite (String.compare_antisym s t).
  destruct (String.compare t s); simpl; intros H; try discriminate; reflexivity.
Qed.

(** ** Sorter *)

(** The comparison never separates two records of one key class. *)
Lemma sortFS_less_class (by_ : string) (x a b : FS) :
  sortFS_less by_ a b = true ->
  same_key by_ x a = true -> same_key by_ x b = true -> False.
Proof.
  unfold sortFS_less, same_key.
  assert (Hmount : (Mount a <? Mount b)%string = true ->
                   (Mount x =? Mount a)%string = true ->
                   (Mount x =? Mount b)%string = true -> False).
  { intros Hlt Ha Hb. apply String.eqb_eq in Ha, Hb.
    rewrite <- Ha, <- Hb, string_ltb_irrefl in Hlt. discriminate. }
  destruct (by_ =? "mount")%string; [exact Hmount|].
  destruct (by_ =? "usage")%string.
  { intros Hlt Ha Hb.
    pose proof (float_eq_class _ _ _ Ha Hb) as H.
    unfold F64.gt in Hlt. unfold F64.lt in H. congruence. }
  destruct (by_ =? "size")%string; [|exact Hmount].
  intros Hlt Ha Hb. apply Z.ltb_lt in Hlt. apply Z.eqb_eq in Ha, Hb. lia.
Qed.

Lemma sortFS_less_asym (by_ : string) (a b : FS) :
  sortFS_less by_ a b = true -> sortFS_less by_ b a = false.
Proof.
  unfold sortFS_less.
  destruct (by_ =? "mount")%string; [apply string_ltb_asym|].
  destruct (by_ =? "usage")%string; [apply (float_lt_asym (Usage b) (Usage a))|].
  destruct (by_ =? "size")%string; [|apply string_ltb_asym].
  intros H. apply Z.ltb_lt in H. apply Z.ltb_ge. lia.
Qed.

(** [sortFS] always returns, with the records of its input. *)
Lemma sortFS_Permutation (list_ : list FS) (by_ : string) :
  exists sorted, sortFS list_ by_ = Some sorted /\ Permutation list_ sorted.
Proof. apply Slice_Permutation. Qed.

(** C1 (amended). On a sequence of at most twelve records, where
    [sort.Slice] runs its insertion sort, the sort is stable for every
    key: the records of one key value keep their relative order, and the
    result is the input reordered so that it is sorted by the key. *)
Theorem C1_sortFS_stable_upto_12 (list_ : list FS) (by_ : string) :
  (List.length list_ <= 12)%nat ->
  exists sorted,
    sortFS list_ by_ = Some sorted /\
    stable by_ list_ sorted /\
    Permutation list_ sorted /\
    ordered by_ sorted.
Proof.
  intros Hlen.
  destruct (sortFS_Permutation list_ by_) as (sorted & Hsort & Hperm).
  exists sorted. split; [exact Hsort|].
  unfold sortFS in Hsort. rewrite Slice_short in Hsort by exact Hlen.
  injection Hsort as <-.
  split; [|split; [exact Hperm|]].
  - intros x.
    apply (insertion_fold_filter FS (sortFS_less by_) (same_key by_ x)
                                 (sortFS_less_class by_ x) list_ []).
  - apply descending_rev, insertion_fold_descending; [|exact I].
    apply sortFS_less_asym.
Qed.

(** C1 (counterexample). Thirteen records, the first twelve of one size:
    sorting by size moves the seventh before the first, and the second
    behind all the others. *)
Lemma C1_sortFS_unstable_13 :
  sortFS thirteen "size" = Some thirteen_by_size /\
  ~ stable "size" thirteen thirteen_by_size.
Proof.
  split; [vm_compute; reflexivity|].
  intros H. specialize (H (sample_fs "/a" 1)).
  vm_compute in H. discriminate H.
Qed.

(** ** Rounding of binary64, from the definitions of [SpecFloat] *)

Lemma digits2_pos_spec (p : positive) :
  2 ^ (Zpos (digits2_pos p) - 1) <= Zpos p < 2 ^ Zpos (digits2_pos p).
Proof.
  induction p as [p IH|p IH|]; simpl digits2_pos.
  - rewrite Pos2Z.inj_succ.
    replace (Z.succ (Zpos (digits2_pos p)) - 1) with (Z.succ (Zpos (digits2_pos p) - 1)) by lia.
    rewrite !Z.pow_succ_r by lia. lia.
  - rewrite Pos2Z.inj_succ.
    replace (Z.succ (Zpos (digits2_pos p)) - 1) with (Z.succ (Zpos (digits2_pos p) - 1)) by lia.
    rewrite !Z.pow_succ_r by lia. lia.
  - simpl. lia.
Qed.

Lemma digits2_pos_unique (p : positive) (d : Z) :
  2 ^ (d - 1) <= Zpos p < 2 ^ d -> Zpos (digits2_pos p) = d.
Proof.
  intros [Hlo Hhi]. pose proof (digits2_pos_spec p) as [Slo Shi].
  set (d' := Zpos (digits2_pos p)) in *.
  assert (Hd' : 0 < d') by (unfold d'; lia).
  assert (Hd : 0 < d).
  { destruct (Z.lt_ge_cases 0 d) as [H|H]; [assumption|].
    exfalso. assert (2 ^ d <= 2 ^ 0) by (apply Z.pow_le_mono_r; lia).
    simpl in H0. lia. }
  destruct (Z.lt_trichotomy d' d) as [H|[H|H]]; [|assumption|]; exfalso.
  - assert (2 ^ d' <= 2 ^ (d - 1)) by (apply Z.pow_le_mono_r; lia). lia.
  - assert (2 ^ d <= 2 ^ (d' - 1)) by (apply Z.pow_le_mono_r; lia). lia.
Qed.

Lemma shr_m_shr_1 (x : shr_record) :
  0 <= shr_m x -> shr_m (shr_1 x) = shr_m x / 2.
Proof.
  destruct x as [m r s]. simpl. intros Hm.
  destruct m as [|[p|p|]|p]; simpl; try reflexivity; try lia.
  - rewrite <- Z.div2_div. reflexivity.
  - rewrite <- Z.div2_div. reflexivity.
Qed.

Lemma shr_m_iter (p : positive) :
  forall x, 0 <= shr_m x ->
            shr_m (iter_pos shr_1 p x) = shr_m x / 2 ^ Zpos p.
Proof.
  induction p as [p IH|p IH|]; intros x Hx; cbn [iter_pos].
  - assert (H1 : 0 <= shr_m (shr_1 x))
      by (rewrite shr_m_shr_1 by assumption; apply Z.div_pos; lia).
    assert (H2 : 0 <= shr_m (iter_pos shr_1 p (shr_1 x)))
      by (rewrite IH by assumption; apply Z.div_pos; lia).
    rewrite IH, IH, shr_m_shr_1 by assumption.
    rewrite !Z.div_div by lia.
    f_equal. rewrite Pos2Z.inj_xI, <- !Z.pow_add_r, <- Z.pow_succ_r by lia.
    f_equal. lia.
  - assert (H2 : 0 <= shr_m (iter_pos shr_1 p x))
      by (rewrite IH by assumption; apply Z.div_pos; lia).
    rewrite IH, IH by assumption.
    rewrite !Z.div_div by lia.
    f_equal. rewrite Pos2Z.inj_xO, <- !Z.pow_add_r by lia.
    f_equal. lia.
  - rewrite shr_m_shr_1 by assumption. reflexivity.
Qed.

Lemma shr_1_eq (m : Z) (r s : bool) :
  0 <= m ->
  shr_1 {| shr_m := m; shr_r := r; shr_s := s |}
  = {| shr_m := m / 2; shr_r := Z.odd m; shr_s := r || s |}.
Proof.
  intros Hm. destruct m as [|[p|p|]|p]; try lia; unfold shr_1;
    rewrite <- ?Z.div2_div; reflexivity.
Qed.

Lemma shr_1_shifted (m0 k : Z) :
  0 <= m0 -> 1 <= k -> shr_1 (shifted m0 k) = shifted m0 (k + 1).
Proof.
  intros Hm Hk. unfold shifted.
  rewrite shr_1_eq by (apply Z.div_pos; lia).
  replace (k + 1 - 1) with k by lia.
  f_equal.
  - rewrite Z.div_div by lia. f_equal.
    rewrite Z.pow_add_r by lia. reflexivity.
  - replace (2 ^ k) with (2 ^ (k - 1) * 2).
    2:{ replace k with (k - 1 + 1) at 2 by lia.
        rewrite Z.pow_add_r by lia. reflexivity. }
    rewrite Z.rem_mul_r by lia.
    rewrite Zmod_odd.
    pose proof (Z.mod_pos_bound m0 (2 ^ (k - 1)) ltac:(lia)) as Hb.
    destruct (Z.odd (m0 / 2 ^ (k - 1))); simpl.
    + symmetry. apply negb_true_iff, Z.eqb_neq. nia.
    + f_equal. f_equal. lia.
Qed.

Lemma iter_shifted (m0 : Z) (p : positive) :
  0 <= m0 ->
  forall k, 1 <= k ->
            iter_pos shr_1 p (shifted m0 k) = shifted m0 (k + Zpos p).
Proof.
  intros Hm. induction p as [p IH|p IH|]; intros k Hk; cbn [iter_pos].
  - rewrite shr_1_shifted, IH, IH by lia. f_equal. lia.
  - rewrite IH, IH by lia. f_equal. lia.
  - now apply shr_1_shifted.
Qed.

Lemma shr_1_init (m0 : Z) :
  0 <= m0 ->
  shr_1 {| shr_m := m0; shr_r := false; shr_s := false |} = shifted m0 1.
Proof.
  intros Hm. rewrite shr_1_eq by assumption. unfold shifted. simpl.
  rewrite Z.div_1_r, Z.mod_1_r. reflexivity.
Qed.

Lemma iter_init (m0 : Z) (p : positive) :
  0 <= m0 ->
  iter_pos shr_1 p {| shr_m := m0; shr_r := false; shr_s := false |}
  = shifted m0 (Zpos p).
Proof.
  intros Hm. induction p as [p IH|p IH|]; cbn [iter_pos].
  - rewrite shr_1_init, !iter_shifted by lia. f_equal. lia.
  - rewrite IH, iter_shifted by lia. f_equal. lia.
  - now apply shr_1_init.
Qed.

Lemma fexp_normal (e : Z) : -1074 <= e - 53 -> fexp prec emax e = e - 53.
Proof. unfold fexp, SpecFloat.emin, prec, emax. lia. Qed.

Lemma round_nearest_even_bounds (t : Z) (l : location) :
  t <= round_nearest_even t l <= t + 1.
Proof.
  destruct l as [|[| |]]; simpl; try lia. destruct (Z.even t); lia.
Qed.

Lemma shr_record_of_loc_m (m : Z) (l : location) :
  shr_m (shr_record_of_loc m l) = m.
Proof. destruct l as [|[| |]]; reflexivity. Qed.

Lemma first_shift_m (mx : positive) (lx : location) :
  53 <= Zpos (digits2_pos mx) ->
  shr_m (first_shift mx lx) = Zpos mx / 2 ^ (Zpos (digits2_pos mx) - 53).
Proof.
  intros Hd. unfold first_shift.
  destruct (Zpos (digits2_pos mx) - 53) as [|p|p] eqn:E; try lia.
  - rewrite shr_record_of_loc_m. simpl. now rewrite Z.div_1_r.
  - rewrite shr_m_iter by (rewrite shr_record_of_loc_m; lia).
    now rewrite shr_record_of_loc_m.
Qed.

Lemma first_shift_range (mx : positive) (lx : location) :
  53 <= Zpos (digits2_pos mx) ->
  two52 <= shr_m (first_shift mx lx) < two53.
Proof.
  intros Hd. rewrite first_shift_m by assumption.
  pose proof (digits2_pos_spec mx) as [Hlo Hhi].
  set (d := Zpos (digits2_pos mx)) in *.
  assert (Hp : 0 < 2 ^ (d - 53)) by (apply Z.pow_pos_nonneg; lia).
  assert (E1 : 2 ^ (d - 1) = two52 * 2 ^ (d - 53)).
  { change two52 with (2 ^ 52). rewrite <- Z.pow_add_r by lia. f_equal. lia. }
  assert (E2 : 2 ^ d = two53 * 2 ^ (d - 53)).
  { change two53 with (2 ^ 53). rewrite <- Z.pow_add_r by lia. f_equal. lia. }
  split.
  - apply Z.div_le_lower_bound; lia.
  - apply Z.div_lt_upper_bound; lia.
Qed.

(** [binary_round_aux] on a mantissa of at least 53 bits, in the range
    of the normal numbers: shift, round, and shift once more when the
    rounding carried into a 54th bit. *)
Lemma binary_round_aux_normal (sx : bool) (mx : positive) (ex : Z) (lx : location) :
  let d := Zpos (digits2_pos mx) in
  53 <= d -> -1074 <= d + ex - 53 -> d + ex - 52 <= 971 ->
  binary_round_aux prec emax sx (Zpos mx) ex lx
  = normalized sx
      (round_nearest_even (shr_m (first_shift mx lx))
                          (loc_of_shr_record (first_shift mx lx)))
      (ex + (d - 53)).
Proof.
  intros d Hd Hlo Hhi.
  pose proof (first_shift_range mx lx Hd) as Ht.
  unfold binary_round_aux, shr_fexp.
  change (Zdigits2 (Zpos mx)) with d.
  rewrite fexp_normal by lia.
  replace (d + ex - 53 - ex) with (d - 53) by lia.
  assert (Hshr : shr (shr_record_of_loc (Zpos mx) lx) ex (d - 53)
                 = (first_shift mx lx, ex + (d - 53))).
  { unfold shr, first_shift. fold d.
    destruct (d - 53) as [|p|p] eqn:E; try lia.
    - now rewrite Z.add_0_r.
    - reflexivity. }
  rewrite Hshr.
  set (rec := first_shift mx lx) in *.
  pose proof (round_nearest_even_bounds (shr_m rec) (loc_of_shr_record rec)) as Hr.
  set (r := round_nearest_even (shr_m rec) (loc_of_shr_record rec)) in *.
  set (e' := ex + (d - 53)) in *.
  unfold normalized.
  destruct (r =? two53) eqn:Er.
  - apply Z.eqb_eq in Er. rewrite Er.
    change (Zdigits2 two53) with 54.
    rewrite fexp_normal by (unfold e'; lia).
    replace (54 + e' - 53 - e') with 1 by lia.
    cbn -[Z.leb Z.add Z.sub].
    assert (Hle : (e' + 1 <=? emax - prec) = true)
      by (apply Z.leb_le; unfold e', emax, prec; lia).
    rewrite Hle. reflexivity.
  - apply Z.eqb_neq in Er.
    assert (Hrpos : 0 < r) by (unfold two52 in Ht; lia).
    destruct r as [|pr|pr] eqn:Epr; try lia.
    assert (Hdig : Zpos (digits2_pos pr) = 53).
    { apply digits2_pos_unique. change (2 ^ (53 - 1)) with two52.
      change (2 ^ 53) with two53. lia. }
    change (Zdigits2 (Zpos pr)) with (Zpos (digits2_pos pr)).
    rewrite Hdig, fexp_normal by (unfold e'; lia).
    replace (53 + e' - 53 - e') with 0 by lia.
    cbn -[Z.leb Z.add Z.sub].
    assert (Hle : (e' <=? emax - prec) = true)
      by (apply Z.leb_le; unfold e', emax, prec; lia).
    rewrite Hle. reflexivity.
Qed.

(** ** Conversion of integers *)

Lemma iter_xO_pow (p n : positive) :
  Zpos (Pos.iter xO p n) = Zpos p * 2 ^ Zpos n.
Proof.
  induction n as [|n IH] using Pos.peano_ind.
  - simpl. lia.
  - rewrite Pos.iter_succ, Pos2Z.inj_xO, IH, Pos2Z.inj_succ, Z.pow_succ_r by lia.
    lia.
Qed.

Lemma digits2_pos_mul_pow (p : positive) (k : Z) :
  0 <= k ->
  Zpos (digits2_pos (Z.to_pos (Zpos p * 2 ^ k))) = Zpos (digits2_pos p) + k.
Proof.
  intros Hk. pose proof (digits2_pos_spec p) as [Hlo Hhi].
  assert (Hp : 0 < 2 ^ k) by (apply Z.pow_pos_nonneg; lia).
  apply digits2_pos_unique. rewrite Z2Pos.id by nia.
  replace (Zpos (digits2_pos p) + k - 1) with (Zpos (digits2_pos p) - 1 + k) by lia.
  rewrite !Z.pow_add_r by lia. nia.
Qed.

(** Up to 53 bits the conversion is exact: the integer is shifted into
    a 53-bit mantissa. *)
Lemma of_Z_exact (p : positive) :
  let d := Zpos (digits2_pos p) in
  d <= 53 ->
  of_Z (Zpos p) = S754_finite false (Z.to_pos (Zpos p * 2 ^ (53 - d))) (d - 53).
Proof.
  intros d Hd. unfold of_Z, binary_normalize, binary_round.
  rewrite Z.add_0_r. fold d.
  rewrite fexp_normal by lia.
  unfold shl_align. replace (d - 53 - 0) with (d - 53) by lia.
  destruct (d - 53) as [|q|q] eqn:E; try lia.
  - (* exactly 53 bits *)
    replace (53 - d) with 0 by lia. rewrite Z.mul_1_r. simpl Z.to_pos.
    rewrite binary_round_aux_normal by (fold d; lia).
    unfold first_shift. fold d. rewrite E.
    simpl shr_m. simpl loc_of_shr_record. simpl round_nearest_even.
    pose proof (digits2_pos_spec p) as Hs. fold d in Hs.
    replace d with 53 in Hs by lia.
    unfold normalized.
    assert (Hne : (Zpos p =? two53) = false)
      by (apply Z.eqb_neq; change two53 with (2 ^ 53); lia).
    rewrite Hne. reflexivity.
  - (* fewer bits: the mantissa is shifted left *)
    assert (Hq : 53 - d = Zpos q) by lia.
    assert (Hm : Zpos (Pos.iter xO p q) = Zpos p * 2 ^ (53 - d))
      by (rewrite Hq; apply iter_xO_pow).
    assert (Hdig : Zpos (digits2_pos (Pos.iter xO p q)) = 53).
    { replace (Pos.iter xO p q) with (Z.to_pos (Zpos p * 2 ^ (53 - d)))
        by (rewrite <- Hm; reflexivity).
      rewrite digits2_pos_mul_pow by lia. fold d. lia. }
    rewrite binary_round_aux_normal by (rewrite Hdig; lia).
    unfold first_shift. rewrite Hdig. simpl Z.sub.
    simpl shr_m. simpl loc_of_shr_record. simpl round_nearest_even.
    pose proof (digits2_pos_spec (Pos.iter xO p q)) as Hs.
    rewrite Hdig in Hs.
    unfold normalized.
    assert (Hne : (Zpos (Pos.iter xO p q) =? two53) = false)
      by (apply Z.eqb_neq; change two53 with (2 ^ 53); lia).
    rewrite Hne, Z.add_0_r.
    change (Z.pos_sub 53 (digits2_pos p)) with (53 - d).
    rewrite <- Hm. reflexivity.
Qed.

(** Beyond 53 bits the low bits are rounded away. *)
Lemma of_Z_rounded (p : positive) :
  let d := Zpos (digits2_pos p) in
  53 < d <= 1000 ->
  of_Z (Zpos p)
  = normalized false
      (round_nearest_even (Zpos p / 2 ^ (d - 53))
                          (loc_of_shr_record (shifted (Zpos p) (d - 53))))
      (d - 53).
Proof.
  intros d Hd. unfold of_Z, binary_normalize, binary_round.
  rewrite Z.add_0_r. fold d.
  rewrite fexp_normal by lia.
  unfold shl_align. replace (d - 53 - 0) with (d - 53) by lia.
  destruct (d - 53) as [|q|q] eqn:E; try lia.
  rewrite binary_round_aux_normal by (fold d; lia).
  rewrite first_shift_m by (fold d; lia).
  unfold first_shift. fold d. rewrite E.
  change (shr_record_of_loc (Zpos p) loc_Exact)
    with {| shr_m := Zpos p; shr_r := false; shr_s := false |}.
  rewrite iter_init by lia. rewrite Z.add_0_l. reflexivity.
Qed.

(** ** Order of the positive normal numbers *)

Lemma SFleb_lex (m1 m2 : positive) (e1 e2 : Z) :
  lex_le e1 (Zpos m1) e2 (Zpos m2) ->
  SFleb (S754_finite false m1 e1) (S754_finite false m2 e2) = true.
Proof.
  unfold lex_le, SFleb, SFcompare. intros [H|[He Hm]].
  - apply Z.compare_lt_iff in H. now rewrite H.
  - subst e2. rewrite Z.compare_refl.
    change (Pos.compare_cont Eq m1 m2) with (Pos.compare m1 m2).
    destruct (Pos.compare_spec m1 m2) as [E|E|E]; try reflexivity. lia.
Qed.

Lemma normalized_finite (s : bool) (r e : Z) :
  normalized s r e = S754_finite s (Z.to_pos (norm_m r)) (norm_e r e).
Proof. unfold normalized, norm_m, norm_e. now destruct (r =? two53). Qed.

Lemma norm_m_canonical (r : Z) :
  two52 <= r <= two53 -> canonical (Z.to_pos (norm_m r)).
Proof.
  unfold canonical, norm_m, two52, two53. intros H.
  destruct (Z.eqb_spec r 9007199254740992); rewrite Z2Pos.id; lia.
Qed.

Lemma norm_m_pos (r : Z) :
  two52 <= r <= two53 -> Zpos (Z.to_pos (norm_m r)) = norm_m r.
Proof.
  unfold norm_m, two52, two53. intros H.
  destruct (Z.eqb_spec r 9007199254740992); rewrite Z2Pos.id; lia.
Qed.

Lemma norm_lex_le (r1 e1 r2 e2 : Z) :
  two52 <= r1 <= two53 -> two52 <= r2 <= two53 ->
  lex_le e1 r1 e2 r2 ->
  lex_le (norm_e r1 e1) (norm_m r1) (norm_e r2 e2) (norm_m r2).
Proof.
  unfold lex_le, norm_e, norm_m, two52, two53. intros H1 H2 H.
  destruct (Z.eqb_spec r1 9007199254740992), (Z.eqb_spec r2 9007199254740992); lia.
Qed.

Lemma norm_e_bounds (r e : Z) : e <= norm_e r e <= e + 1.
Proof. unfold norm_e. destruct (r =? two53); lia. Qed.

(** ** Rounding to nearest even of a right shift *)

Lemma round_shift_cases (a k : Z) :
  0 <= a -> 1 <= k ->
  let t := a / 2 ^ k in
  (round_shift a k = t /\ 2 * a <= 2 ^ k * (2 * t + 1)) \/
  (round_shift a k = t + 1 /\ 2 ^ k * (2 * t + 1) <= 2 * a).
Proof.
  intros Ha Hk t. unfold round_shift, shifted. fold t.
  set (h := 2 ^ (k - 1)).
  assert (Hh : 0 < h) by (apply Z.pow_pos_nonneg; lia).
  assert (E2 : 2 ^ k = h * 2).
  { unfold h. replace k with (k - 1 + 1) at 1 by lia.
    rewrite Z.pow_add_r by lia. reflexivity. }
  set (u := a / h).
  assert (Ht : u / 2 = t).
  { unfold u, t. rewrite Z.div_div by lia. now rewrite E2. }
  pose proof (Z.div_mod a h ltac:(lia)) as Ea. fold u in Ea.
  pose proof (Z.mod_pos_bound a h Hh) as Hr.
  pose proof (Z.div_mod u 2 ltac:(lia)) as Eu. rewrite Ht in Eu.
  pose proof (Z.mod_pos_bound u 2 ltac:(lia)) as Hu.
  rewrite E2.
  assert (Hodd : Z.odd u = true -> u = 2 * t + 1).
  { intros Ho. rewrite Zmod_odd, Ho in Eu. lia. }
  assert (Heven : Z.odd u = false -> u = 2 * t).
  { intros Ho. rewrite Zmod_odd, Ho in Eu. lia. }
  destruct (Z.odd u) eqn:Ho; destruct (Z.eqb_spec (a mod h) 0) as [Hz|Hz];
    cbn [negb loc_of_shr_record round_nearest_even].
  - specialize (Hodd eq_refl). subst u.
    destruct (Z.even t); [left|right]; split; try reflexivity; nia.
  - specialize (Hodd eq_refl). subst u. right. split; [reflexivity|nia].
  - specialize (Heven eq_refl). subst u. left. split; [reflexivity|nia].
  - specialize (Heven eq_refl). subst u. left. split; [reflexivity|nia].
Qed.

Lemma round_shift_mono (a b k : Z) :
  0 <= a <= b -> 1 <= k -> round_shift a k <= round_shift b k.
Proof.
  intros Hab Hk.
  assert (Hp : 0 < 2 ^ k) by (apply Z.pow_pos_nonneg; lia).
  assert (Hdiv : a / 2 ^ k <= b / 2 ^ k) by (apply Z.div_le_mono; lia).
  destruct (Z.eq_dec a b) as [->|Hne]; [lia|].
  pose proof (round_shift_cases a k ltac:(lia) Hk) as Ca.
  pose proof (round_shift_cases b k ltac:(lia) Hk) as Cb.
  cbv zeta in Ca, Cb.
  set (ta := a / 2 ^ k) in *. set (tb := b / 2 ^ k) in *.
  destruct (Z.eq_dec ta tb) as [E|E].
  - rewrite <- E in Cb. destruct Ca as [[Ra Ia]|[Ra Ia]], Cb as [[Rb Ib]|[Rb Ib]]; lia.
  - destruct Ca as [[Ra Ia]|[Ra Ia]], Cb as [[Rb Ib]|[Rb Ib]]; lia.
Qed.

Lemma round_shift_range (p : positive) :
  let d := Zpos (digits2_pos p) in
  53 < d -> two52 <= round_shift (Zpos p) (d - 53) <= two53.
Proof.
  intros d Hd. unfold round_shift.
  pose proof (round_nearest_even_bounds (Zpos p / 2 ^ (d - 53))
                (loc_of_shr_record (shifted (Zpos p) (d - 53)))) as Hb.
  pose proof (first_shift_range p loc_Exact ltac:(fold d; lia)) as Hr.
  rewrite first_shift_m in Hr by (fold d; lia). fold d in Hr. lia.
Qed.

(** ** The float of a positive integer *)

Lemma rounded_range (p : positive) : two52 <= rounded p <= two53.
Proof.
  unfold rounded. destruct (Z.leb_spec (Zpos (digits2_pos p)) 53) as [H|H].
  - pose proof (digits2_pos_spec p) as [Hlo Hhi].
    set (d := Zpos (digits2_pos p)) in *.
    assert (Hp : 0 < 2 ^ (53 - d)) by (apply Z.pow_pos_nonneg; lia).
    assert (E1 : two52 = 2 ^ (d - 1) * 2 ^ (53 - d)).
    { change two52 with (2 ^ 52). rewrite <- Z.pow_add_r by lia. f_equal. lia. }
    assert (E2 : two53 = 2 ^ d * 2 ^ (53 - d)).
    { change two53 with (2 ^ 53). rewrite <- Z.pow_add_r by lia. f_equal. lia. }
    rewrite E1, E2. nia.
  - now apply round_shift_range.
Qed.

Lemma of_Z_normalized (p : positive) :
  let d := Zpos (digits2_pos p) in
  d <= 1000 ->
  of_Z (Zpos p) = normalized false (rounded p) (d - 53).
Proof.
  intros d Hd. unfold rounded. fold d.
  destruct (Z.leb_spec d 53) as [H|H].
  - rewrite of_Z_exact by (fold d; lia). fold d.
    pose proof (rounded_range p) as Hr. unfold rounded in Hr. fold d in Hr.
    destruct (Z.leb_spec d 53) as [_|H']; [|lia].
    unfold normalized.
    destruct (Z.eqb_spec (Zpos p * 2 ^ (53 - d)) two53) as [E|E]; [|reflexivity].
    exfalso. pose proof (digits2_pos_spec p) as [Hlo Hhi]. fold d in Hlo, Hhi.
    assert (Hp : 0 < 2 ^ (53 - d)) by (apply Z.pow_pos_nonneg; lia).
    assert (E2 : two53 = 2 ^ d * 2 ^ (53 - d)).
    { change two53 with (2 ^ 53). rewrite <- Z.pow_add_r by lia. f_equal. lia. }
    rewrite E2 in E. nia.
  - rewrite of_Z_rounded by (fold d; lia). reflexivity.
Qed.

Lemma digits2_pos_mono (a b : positive) :
  Zpos a <= Zpos b -> Zpos (digits2_pos a) <= Zpos (digits2_pos b).
Proof.
  intros Hab. pose proof (digits2_pos_spec a) as [Alo _].
  pose proof (digits2_pos_spec b) as [_ Bhi].
  destruct (Z.le_gt_cases (Zpos (digits2_pos a)) (Zpos (digits2_pos b))) as [H|H];
    [assumption|exfalso].
  assert (2 ^ Zpos (digits2_pos b) <= 2 ^ (Zpos (digits2_pos a) - 1))
    by (apply Z.pow_le_mono_r; lia).
  lia.
Qed.

Lemma rounded_mono (a b : positive) :
  Zpos a <= Zpos b ->
  lex_le (Zpos (digits2_pos a) - 53) (rounded a)
         (Zpos (digits2_pos b) - 53) (rounded b).
Proof.
  intros Hab. pose proof (digits2_pos_mono a b Hab) as Hd.
  destruct (Z.eq_dec (Zpos (digits2_pos a)) (Zpos (digits2_pos b))) as [E|E];
    [right|left; lia].
  split; [lia|]. unfold rounded. rewrite <- E.
  destruct (Z.leb_spec (Zpos (digits2_pos a)) 53) as [H|H].
  - apply Z.mul_le_mono_nonneg_r; [apply Z.pow_nonneg|]; lia.
  - apply round_shift_mono; lia.
Qed.

(** [float64] conversion of unsigned integers is monotone, and lands
    on a normal number with a small exponent. *)
Lemma of_Z_canonical (n : Z) :
  0 < n < 2 ^ 64 ->
  exists m e, of_Z n = S754_finite false m e /\ canonical m /\ -52 <= e <= 12.
Proof.
  intros Hn. destruct n as [|p|p]; try lia.
  pose proof (digits2_pos_spec p) as [Hlo Hhi].
  assert (Hd : Zpos (digits2_pos p) <= 64).
  { destruct (Z.le_gt_cases (Zpos (digits2_pos p)) 64) as [H|H]; [assumption|exfalso].
    assert (2 ^ 64 <= 2 ^ (Zpos (digits2_pos p) - 1)) by (apply Z.pow_le_mono_r; lia).
    lia. }
  rewrite of_Z_normalized by lia. rewrite normalized_finite.
  eexists _, _. split; [reflexivity|]. split.
  - apply norm_m_canonical, rounded_range.
  - pose proof (norm_e_bounds (rounded p) (Zpos (digits2_pos p) - 53)). lia.
Qed.

Lemma of_Z_mono (a b : Z) (ma mb : positive) (ea eb : Z) :
  0 < a <= b -> b < 2 ^ 64 ->
  of_Z a = S754_finite false ma ea ->
  of_Z b = S754_finite false mb eb ->
  lex_le ea (Zpos ma) eb (Zpos mb).
Proof.
  intros Hab Hb Ea Eb.
  destruct a as [|p|p]; try lia. destruct b as [|q|q]; try lia.
  assert (Hdq : Zpos (digits2_pos q) <= 64).
  { pose proof (digits2_pos_spec q) as [Hlo Hhi].
    destruct (Z.le_gt_cases (Zpos (digits2_pos q)) 64) as [H|H]; [assumption|exfalso].
    assert (2 ^ 64 <= 2 ^ (Zpos (digits2_pos q) - 1)) by (apply Z.pow_le_mono_r; lia).
    lia. }
  pose proof (digits2_pos_mono p q ltac:(lia)) as Hdp.
  rewrite of_Z_normalized, normalized_finite in Ea by lia.
  rewrite of_Z_normalized, normalized_finite in Eb by lia.
  injection Ea as Ema Eea. injection Eb as Emb Eeb.
  subst ma mb ea eb.
  rewrite !norm_m_pos by apply rounded_range.
  apply norm_lex_le; try apply rounded_range.
  apply rounded_mono. lia.
Qed.

(** ** Quotient and product of positive normal numbers *)

Lemma digits2_pos_between (p : positive) (a b : Z) :
  2 ^ a <= Zpos p < 2 ^ b -> a < Zpos (digits2_pos p) <= b.
Proof.
  intros [Hlo Hhi]. pose proof (digits2_pos_spec p) as [Slo Shi].
  set (d := Zpos (digits2_pos p)) in *.
  assert (Hd : 0 < d) by (unfold d; lia).
  split.
  - destruct (Z.lt_ge_cases a d) as [H|H]; [assumption|exfalso].
    assert (2 ^ d <= 2 ^ a) by (apply Z.pow_le_mono_r; lia). lia.
  - destruct (Z.le_gt_cases d b) as [H|H]; [assumption|exfalso].
    destruct (Z.lt_ge_cases b 0) as [Hb|Hb].
    + rewrite Z.pow_neg_r in Hhi by assumption. lia.
    + assert (2 ^ b <= 2 ^ (d - 1)) by (apply Z.pow_le_mono_r; lia). lia.
Qed.

Lemma canonical_digits (m : positive) :
  canonical m -> Zpos (digits2_pos m) = 53.
Proof.
  unfold canonical. intros H. apply digits2_pos_unique.
  change (2 ^ (53 - 1)) with two52. change (2 ^ 53) with two53. exact H.
Qed.

Lemma binary_round_aux_canonical (mx : positive) (ex : Z) (lx : location) :
  let d := Zpos (digits2_pos mx) in
  53 <= d -> -1074 <= d + ex - 53 -> d + ex - 52 <= 971 ->
  exists r,
    binary_round_aux prec emax false (Zpos mx) ex lx
    = S754_finite false (Z.to_pos (norm_m r)) (norm_e r (ex + (d - 53)))
    /\ two52 <= r <= two53
    /\ Zpos mx / 2 ^ (d - 53) <= r.
Proof.
  intros d H1 H2 H3.
  rewrite binary_round_aux_normal by assumption. fold d.
  rewrite normalized_finite.
  eexists. split; [reflexivity|].
  pose proof (first_shift_range mx lx H1) as Hr.
  pose proof (round_nearest_even_bounds (shr_m (first_shift mx lx))
                (loc_of_shr_record (first_shift mx lx))) as Hb.
  split; [lia|].
  pose proof (first_shift_m mx lx H1) as Hm. fold d in Hm. lia.
Qed.

Lemma div_canonical (mx my : positive) (ex ey : Z) :
  canonical mx -> canonical my -> -900 <= ex - ey <= 900 ->
  exists m e,
    F64.div (S754_finite false mx ex) (S754_finite false my ey)
    = S754_finite false m e
    /\ canonical m
    /\ ex - ey - 53 <= e <= ex - ey - 51
    /\ (lex_le ey (Zpos my) ex (Zpos mx) -> -52 <= e).
Proof.
  intros Cx Cy He.
  pose proof (canonical_digits mx Cx) as Dx.
  pose proof (canonical_digits my Cy) as Dy.
  unfold F64.div, SFdiv, SFdiv_core_binary. cbn [Zdigits2 xorb].
  rewrite Dx, Dy.
  replace (53 + ex - (53 + ey)) with (ex - ey) by lia.
  rewrite fexp_normal by lia.
  rewrite Z.min_l by lia.
  replace (ex - ey - (ex - ey - 53)) with 53 by lia.
  cbv iota. rewrite Z.shiftl_mul_pow2 by lia.
  change (2 ^ 53) with two53.
  set (n := Zpos mx * two53).
  pose proof (Z.div_eucl_eq n (Zpos my) ltac:(lia)) as Heucl.
  pose proof (Z.mod_pos_bound n (Zpos my) ltac:(lia)) as Hmod.
  unfold Z.modulo in Hmod.
  destruct (Z.div_eucl n (Zpos my)) as [q r] eqn:E.
  unfold canonical, two52, two53 in Cx, Cy.
  assert (Hq : two52 <= q < 2 * two53).
  { unfold n, two52, two53 in *. nia. }
  destruct q as [|mq|mq]; try (unfold two52 in Hq; lia).
  assert (Hd : 52 < Zpos (digits2_pos mq) <= 54).
  { apply digits2_pos_between. change (2 ^ 52) with two52.
    change (2 ^ 54) with (2 * two53). exact Hq. }
  destruct (binary_round_aux_canonical mq (ex - ey - 53) (new_location (Zpos my) r))
    as (r' & Er & Hr & Ht); try lia.
  rewrite Er. eexists _, _. split; [reflexivity|].
  split; [now apply norm_m_canonical|].
  pose proof (norm_e_bounds r' (ex - ey - 53 + (Zpos (digits2_pos mq) - 53))) as Hn.
  split; [lia|].
  intros [Hlt|[Heq Hm]]; [lia|].
  assert (Hq' : two53 <= Zpos mq) by (unfold n, two53 in *; nia).
  assert (53 < Zpos (digits2_pos mq)).
  { apply (digits2_pos_between mq 53 54). change (2 ^ 53) with two53.
    change (2 ^ 54) with (2 * two53). lia. }
  lia.
Qed.

Lemma mul_canonical (mx my : positive) (ex ey : Z) :
  canonical mx -> canonical my -> -900 <= ex + ey <= 800 ->
  exists m e,
    F64.mul (S754_finite false mx ex) (S754_finite false my ey)
    = S754_finite false m e
    /\ canonical m
    /\ (-52 <= ex -> lex_le ey (Zpos my) e (Zpos m)).
Proof.
  intros Cx Cy He.
  unfold F64.mul, SFmul. cbn [xorb].
  unfold canonical in Cx, Cy.
  assert (Hp : 2 ^ 104 <= Zpos (mx * my) < 2 ^ 106).
  { rewrite Pos2Z.inj_mul. unfold two52, two53 in *.
    change (2 ^ 104) with (4503599627370496 * 4503599627370496).
    change (2 ^ 106) with (9007199254740992 * 9007199254740992). nia. }
  pose proof (digits2_pos_between _ _ _ Hp) as Hd.
  destruct (binary_round_aux_canonical (mx * my) (ex + ey) loc_Exact)
    as (r & Er & Hr & Ht); try lia.
  rewrite Er. eexists _, _. split; [reflexivity|].
  split; [now apply norm_m_canonical|].
  intros Hex. rewrite norm_m_pos by assumption.
  set (d := Zpos (digits2_pos (mx * my))) in *.
  assert (Hmy : norm_m (Zpos my) = Zpos my /\ norm_e (Zpos my) ey = ey).
  { unfold norm_m, norm_e. destruct (Z.eqb_spec (Zpos my) two53); [lia|tauto]. }
  destruct Hmy as [Hm1 Hm2]. rewrite <- Hm1 at 1. rewrite <- Hm2 at 1.
  apply norm_lex_le; [lia|assumption|].
  unfold lex_le.
  destruct (Z.eq_dec (ex + ey + (d - 53)) ey) as [E|E]; [right|left; lia].
  split; [lia|].
  assert (d = 105) by lia. assert (ex = -52) by lia.
  apply Z.le_trans with (2 := Ht).
  replace (d - 53) with 52 by lia. change (2 ^ 52) with two52.
  apply Z.div_le_lower_bound; [unfold two52; lia|].
  rewrite Pos2Z.inj_mul. unfold two52, two53 in *. nia.
Qed.

(** ** The usage percentage *)

Lemma of_Z_100 : of_Z 100 = S754_finite false hundred_m (-46).
Proof. reflexivity. Qed.

Lemma hundred_canonical : canonical hundred_m.
Proof. unfold canonical, hundred_m, two52, two53. lia. Qed.

(** The percentage is a finite float for all unsigned operands. *)
Lemma usagePercent_finite (used total : Z) :
  0 <= used < 2 ^ 64 -> total < 2 ^ 64 ->
  is_finite (usagePercent used total) = true.
Proof.
  intros Hu Ht. unfold usagePercent.
  destruct (Z.ltb_spec 0 total) as [Hpos|Hpos]; [|reflexivity].
  destruct (of_Z_canonical total ltac:(lia)) as (mt & et & Et & Ct & Ht').
  rewrite Et, of_Z_100.
  destruct (Z.eq_dec used 0) as [->|Hnz]; [reflexivity|].
  destruct (of_Z_canonical used ltac:(lia)) as (mu & eu & Eu & Cu & Hu').
  rewrite Eu.
  destruct (div_canonical mu mt eu et Cu Ct ltac:(lia)) as (mq & eq_ & Ediv & Cq & Hq & _).
  rewrite Ediv.
  destruct (mul_canonical mq hundred_m eq_ (-46) Cq hundred_canonical ltac:(lia))
    as (m & e & Em & _).
  now rewrite Em.
Qed.

(** As soon as the used bytes reach the total, the percentage is at
    least 100. *)
Lemma usagePercent_ge_100 (used total : Z) :
  0 < total <= used -> used < 2 ^ 64 ->
  F64.ge (usagePercent used total) (of_Z 100) = true.
Proof.
  intros Ht Hu. unfold usagePercent.
  destruct (Z.ltb_spec 0 total) as [Hpos|Hpos]; [|lia].
  destruct (of_Z_canonical total ltac:(lia)) as (mt & et & Et & Ct & Ht').
  destruct (of_Z_canonical used ltac:(lia)) as (mu & eu & Eu & Cu & Hu').
  pose proof (of_Z_mono total used mt mu et eu ltac:(lia) Hu Et Eu) as Hle.
  rewrite Et, Eu, of_Z_100.
  destruct (div_canonical mu mt eu et Cu Ct ltac:(lia)) as (mq & eq_ & Ediv & Cq & Hq & Hone).
  rewrite Ediv. specialize (Hone Hle).
  destruct (mul_canonical mq hundred_m eq_ (-46) Cq hundred_canonical ltac:(lia))
    as (m & e & Em & Cm & Hm).
  rewrite Em. unfold F64.ge. apply SFleb_lex. apply Hm. exact Hone.
Qed.


(** ** The invariant of the collected records *)

Lemma mkFS_invariant (m : MountEntry) (s : Statfs_t) :
  fs_invariant s (mkFS m s).
Proof. repeat split. Qed.

Lemma mkFS_in_range (m : MountEntry) (s : Statfs_t) :
  U64.in_range (Total (mkFS m s)) /\
  U64.in_range (Free (mkFS m s)) /\
  U64.in_range (Used (mkFS m s)).
Proof.
  simpl. unfold U64.in_range, U64.mul, U64.sub, U64.wrap, U64.modulus.
  repeat split; apply Z.mod_pos_bound; lia.
Qed.

(** Without overflow the three sizes are the exact products and their
    exact difference. *)
Lemma mkFS_exact (m : MountEntry) (s : Statfs_t) :
  0 <= Bsize s < 2 ^ 63 -> 0 <= Bavail s <= Blocks s ->
  Blocks s * Bsize s < 2 ^ 64 ->
  Total (mkFS m s) = Blocks s * Bsize s /\
  Free (mkFS m s) = Bavail s * Bsize s /\
  Used (mkFS m s) = Total (mkFS m s) - Free (mkFS m s).
Proof.
  intros Hb Ha Hno. simpl. unfold U64.mul, U64.sub, U64.wrap, U64.modulus.
  rewrite (Z.mod_small (Bsize s)) by lia.
  assert (Hfree : 0 <= Bavail s * Bsize s <= Blocks s * Bsize s) by nia.
  rewrite (Z.mod_small (Blocks s * Bsize s)) by nia.
  rewrite (Z.mod_small (Bavail s * Bsize s)) by nia.
  repeat split. apply Z.mod_small. nia.
Qed.

(** C7. No record of the analyzer carries a NaN or an infinity as its
    usage: the division is guarded, a record whose total is zero has
    usage [0], and for every other record the quotient and the product
    stay within the finite floats. *)
Theorem C7_zero_total_zero_usage
        (env : Env) (mounts : list MountEntry) (fs : FS) :
  In fs (fst (analyze env mounts)) ->
  (Total fs = 0 -> Usage fs = F64.zero)
  /\ F64.is_finite (Usage fs) = true.
Proof.
  intros Hin.
  apply analyze_In in Hin as (i & m & s & _ & _ & _ & ->).
  destruct (mkFS_in_range m s) as (Ht & _ & Hu).
  unfold U64.in_range, U64.modulus in Ht, Hu.
  change (Usage (mkFS m s))
    with (usagePercent (Used (mkFS m s)) (Total (mkFS m s))).
  split.
  - intros Htot. rewrite Htot. apply usagePercent_zero_total.
  - apply usagePercent_finite; lia.
Qed.

(** C8. Every record the analyzer returns is the stat of a mount of the
    input and satisfies [Used = Total - Free] on unsigned 64-bit integers,
    with [Total = Blocks * Bsize] and [Free = Bavail * Bsize] (available
    blocks); the sorter returns the same records, reordered. *)
Theorem C8_used_is_total_minus_free
        (env : Env) (mounts : list MountEntry) (by_ : string) :
  Forall (collected env mounts) (fst (analyze env mounts))
  /\ exists sorted,
       sortFS (fst (analyze env mounts)) by_ = Some sorted /\
       Permutation (fst (analyze env mounts)) sorted /\
       Forall (collected env mounts) sorted.
Proof.
  assert (Hall : Forall (collected env mounts) (fst (analyze env mounts))).
  { apply Forall_forall. intros fs Hin.
    apply analyze_In in Hin as (i & m & s & _ & Hm & Hs & ->).
    exists i, m, s. auto using mkFS_invariant. }
  split; [exact Hall|].
  destruct (sortFS_Permutation (fst (analyze env mounts)) by_)
    as (sorted & Hsort & Hperm).
  exists sorted. repeat split; try assumption.
  eapply Permutation_Forall; eassumption.
Qed.

(** C9 (amended). When the available bytes exceed the total bytes, the
    subtraction wraps: [Used = Total - Free + 2^64], a value above
    [Total]; the usage is then [0] for a total of zero and otherwise the
    float64 quotient [float64(Used) / float64(Total) * 100], a finite
    float that is at least 100. *)
Theorem C9_used_wraps_when_free_exceeds_total (m : MountEntry) (s : Statfs_t) :
  Total (mkFS m s) < Free (mkFS m s) ->
  Used (mkFS m s) = Total (mkFS m s) - Free (mkFS m s) + 2 ^ 64
  /\ Total (mkFS m s) < Used (mkFS m s) < 2 ^ 64
  /\ (Total (mkFS m s) = 0 -> Usage (mkFS m s) = F64.zero)
  /\ (0 < Total (mkFS m s) ->
      Usage (mkFS m s)
      = F64.mul (F64.div (of_Z (Used (mkFS m s))) (of_Z (Total (mkFS m s))))
                (of_Z 100)
      /\ F64.ge (Usage (mkFS m s)) (of_Z 100) = true
      /\ F64.is_finite (Usage (mkFS m s)) = true).
Proof.
  intros Hlt.
  destruct (mkFS_in_range m s) as (Ht & Hf & Hu).
  unfold U64.in_range, U64.modulus in Ht, Hf, Hu.
  assert (Hused : Used (mkFS m s)
                  = Total (mkFS m s) - Free (mkFS m s) + 2 ^ 64).
  { change (Used (mkFS m s))
      with ((Total (mkFS m s) - Free (mkFS m s)) mod 2 ^ 64).
    symmetry. apply (Z.mod_unique _ _ (-1)); lia. }
  split; [exact Hused|]. split; [lia|]. split.
  - intros H0. change (Usage (mkFS m s))
      with (usagePercent (Used (mkFS m s)) (Total (mkFS m s))).
    now rewrite H0.
  - intros Hpos. change (Usage (mkFS m s))
      with (usagePercent (Used (mkFS m s)) (Total (mkFS m s))).
    split; [|split].
    + unfold usagePercent. apply Z.ltb_lt in Hpos. now rewrite Hpos.
    + apply usagePercent_ge_100; lia.
    + apply usagePercent_finite; lia.
Qed.

(** C9 (counterexample). On a device without blocks that reports one
    available block, the available bytes exceed the total, the used bytes
    wrap, and the usage is [0], not above 100. *)
Lemma C9_usage_zero_on_empty_device :
  Total (mkFS (entry "dev" "/mnt" "ext4") statfs_empty_device)
  < Free (mkFS (entry "dev" "/mnt" "ext4") statfs_empty_device)
  /\ Used (mkFS (entry "dev" "/mnt" "ext4") statfs_empty_device) = 2 ^ 64 - 4096
  /\ Usage (mkFS (entry "dev" "/mnt" "ext4") statfs_empty_device) = F64.zero
  /\ F64.gt (Usage (mkFS (entry "dev" "/mnt" "ext4") statfs_empty_device))
            (of_Z 100) = false.
Proof.
  repeat split; vm_compute; reflexivity.
Qed.

(** With a total above zero the wrapped quotient is usually far above
    100 ... *)
Example usage_over_available :
  Used (mkFS (entry "dev" "/mnt" "ext4") statfs_over_available) = 2 ^ 64 - 4096
  /\ F64.gt (Usage (mkFS (entry "dev" "/mnt" "ext4") statfs_over_available))
            (of_Z 100) = true.
Proof. split; vm_compute; reflexivity. Qed.

(** ... but the conversion to float64 can round the excess away, so
    that the bound 100 is reached: here [Used = 2^63 + 1] and
    [Total = 2^63], and the usage is exactly 100. *)
Example usage_rounded_to_100 :
  Total (mkFS (entry "dev" "/mnt" "ext4") statfs_huge) = 2 ^ 63
  /\ Used (mkFS (entry "dev" "/mnt" "ext4") statfs_huge) = 2 ^ 63 + 1
  /\ Usage (mkFS (entry "dev" "/mnt" "ext4") statfs_huge) = of_Z 100.
Proof. repeat split; vm_compute; reflexivity. Qed.

(** ** Byte formatter *)

Lemma fmtBytes_raw (b : Z) : fmtBytes b false = Some (Strconv.FormatUint b).
Proof. reflexivity. Qed.


(** [spec_unit_index] is the clamped floor of the logarithm to base 1024. *)
Lemma spec_unit_index_floor (b : Z) :
  1 <= b < 1024 ^ 6 ->
  1024 ^ spec_unit_index b <= b < 1024 ^ (spec_unit_index b + 1).
Proof.
  intros Hb. unfold spec_unit_index.
  assert (Hlog : 2 ^ Z.log2 b <= b < 2 ^ (Z.log2 b + 1)).
  { pose proof (Z.log2_spec b ltac:(lia)) as H.
    rewrite <- Z.add_1_r in H. exact H. }
  assert (H0 : 0 <= Z.log2 b) by apply Z.log2_nonneg.
  assert (H60 : Z.log2 b < 60).
  { apply Z.log2_lt_pow2; [|replace (2 ^ 60) with (1024 ^ 6) by reflexivity];
      lia. }
  assert (Hq : 0 <= Z.log2 b / 10 <= 5).
  { split; [apply Z.div_pos; lia|].
    enough (Z.log2 b / 10 < 6) by lia. apply Z.div_lt_upper_bound; lia. }
  rewrite Z.min_r by lia.
  set (q := Z.log2 b / 10) in *.
  assert (Hdm : 10 * q <= Z.log2 b < 10 * q + 10).
  { unfold q. pose proof (Z.mod_pos_bound (Z.log2 b) 10 ltac:(lia)).
    pose proof (Z.div_mod (Z.log2 b) 10 ltac:(lia)). lia. }
  change 1024 with (2 ^ 10). rewrite <- !Z.pow_mul_r by lia.
  split.
  - eapply Z.le_trans; [|apply Hlog]. apply Z.pow_le_mono_r; lia.
  - eapply Z.lt_le_trans; [apply Hlog|]. apply Z.pow_le_mono_r; lia.
Qed.




(** ** Color tiers *)

Lemma float_ge_of_lt (x y : float64) :
  F64.lt x y = true -> F64.ge x y = false.
Proof.
  unfold F64.lt, F64.ge, SFltb, SFleb. intros H.
  rewrite (SFcompare_antisym x y).
  destruct (SFcompare x y) as [[| |]|]; try discriminate; reflexivity.
Qed.

(** C6. With colors enabled, the tier is chosen by the first test that
    succeeds, in the order critical threshold, warning threshold, fixed
    floor of 70, else low; the four tiers have four different colors
    (with colors disabled no color is returned).  So 69 is low under the
    thresholds 70 and 90, 75 is medium under thresholds above 75, and 92
    is critical under the critical threshold 90 whatever the warning
    threshold. *)
Theorem C6_ForUsage_first_match :
  (forall usage warn crit,
      ForUsage Colors usage warn crit false
      = tier_color Colors (tier_of usage warn crit))
  /\ NoDup (map (tier_color Colors) [TierLow; TierMedium; TierHigh; TierCritical])
  /\ (forall usage warn crit,
         (tier_of usage warn crit = TierCritical <-> F64.ge usage crit = true)
         /\ (tier_of usage warn crit = TierHigh <->
             F64.ge usage crit = false /\ F64.ge usage warn = true)
         /\ (tier_of usage warn crit = TierMedium <->
             F64.ge usage crit = false /\ F64.ge usage warn = false /\
             F64.ge usage (of_Z 70) = true)
         /\ (tier_of usage warn crit = TierLow <->
             F64.ge usage crit = false /\ F64.ge usage warn = false /\
             F64.ge usage (of_Z 70) = false))
  /\ (forall usage warn crit, ForUsage Colors usage warn crit true = ""%string)
  /\ tier_of (of_Z 69) (of_Z 70) (of_Z 90) = TierLow
  /\ (forall warn crit,
         F64.lt (of_Z 75) warn = true -> F64.lt (of_Z 75) crit = true ->
         tier_of (of_Z 75) warn crit = TierMedium)
  /\ (forall warn, tier_of (of_Z 92) warn (of_Z 90) = TierCritical).
Proof.
  split.
  { intros usage warn crit. unfold ForUsage, tier_of.
    destruct (F64.ge usage crit); [reflexivity|].
    destruct (F64.ge usage warn); [reflexivity|].
    destruct (F64.ge usage (of_Z 70)); reflexivity. }
  split.
  { simpl. repeat constructor; simpl; intuition discriminate. }
  split.
  { intros usage warn crit. unfold tier_of.
    destruct (F64.ge usage crit), (F64.ge usage warn),
      (F64.ge usage (of_Z 70));
      repeat split; try discriminate; try reflexivity;
      intros; repeat match goal with H : _ /\ _ |- _ => destruct H end;
      discriminate. }
  split; [reflexivity|].
  split; [reflexivity|].
  split.
  { intros warn crit Hw Hc. unfold tier_of.
    rewrite (float_ge_of_lt _ _ Hc), (float_ge_of_lt _ _ Hw). reflexivity. }
  intros warn. reflexivity.
Qed.

(** ** Instances on the sample data *)

(** C1 at the two records of equal usage: they keep their order. *)
Lemma C1_stable_two_at_ninety :
  exists sorted,
    sortFS two_at_ninety "usage" = Some sorted /\
    stable "usage" two_at_ninety sorted /\
    Permutation two_at_ninety sorted /\
    ordered "usage" sorted.
Proof.
  apply (C1_sortFS_stable_upto_12 two_at_ninety "usage").
  simpl. lia.
Defined.

(** C3 on three mounts whose queries succeed, cancelled after two of
    them: two records are returned. *)
Lemma C3_cancelled_after_two :
  snd (analyze sample_env_ok sample_mounts)
  = flat_map (events_of sample_env_ok 3) (firstn 2 (indexed sample_mounts))
    ++ cancel_events 2
  /\ fst (analyze sample_env_ok sample_mounts)
     = fst (analyze sample_env_ok (firstn 2 sample_mounts))
  /\ List.length (fst (analyze sample_env_ok sample_mounts)) = 2%nat.
Proof.
  destruct (C3_cancellation_partial sample_env_ok sample_mounts 2)
    as (Htr & _ & Hres & _ & Hlen).
  - simpl. lia.
  - intros i Hi. destruct i as [|[|i]]; [reflexivity | reflexivity | lia].
  - reflexivity.
  - split; [exact Htr|]. split; [exact Hres|].
    apply Hlen. intros i m _ _. exists sample_statfs. reflexivity.
Defined.

(** C3 (counterexample). Three mounts, the query for the second one
    fails, and the cancellation is visible at the third poll: two mounts
    have been processed and one record is returned. *)
Lemma C3_one_record_after_two_mounts :
  processed sample_env sample_mounts = 2%nat
  /\ snd (analyze sample_env sample_mounts)
     = [ EvSelect 0 false; EvPrintf (LogProgress 0 3); EvStatfs 0 "/";
         EvSelect 1 false; EvStatfs 1 "/boot";
         EvPrintf (LogWarning "/boot" 13);
         EvSelect 2 true; EvPrintf LogCancelled ]
  /\ fst (analyze sample_env sample_mounts)
     = [ mkFS (entry "dev1" "/" "ext4") sample_statfs ]
  /\ List.length (fst (analyze sample_env sample_mounts)) <> 2%nat.
Proof.
  split; [reflexivity|].
  split; [reflexivity|].
  split; [reflexivity|].
  simpl. discriminate.
Qed.

(** C4 on three mounts that are never cancelled: the query for [/boot]
    fails, the mounts before and after it are in the result. *)
Lemma C4_boot_skipped :
  fst (analyze sample_env_live sample_mounts)
  = [ mkFS (entry "dev1" "/" "ext4") sample_statfs;
      mkFS (entry "dev3" "/home" "ext4") sample_statfs ]
  /\ In (EvPrintf (LogWarning "/boot" 13))
        (snd (analyze sample_env_live sample_mounts)).
Proof.
  destruct (C4_failed_mount_skipped sample_env_live sample_mounts 1
              (entry "dev2" "/boot" "vfat") 13)
    as (Hres & Hwarn & _).
  - reflexivity.
  - vm_compute. lia.
  - reflexivity.
  - split; [exact Hres | exact Hwarn].
Defined.

(** C7 on a pseudo-mount without capacity. *)
Lemma C7_pseudo_mount_usage :
  Usage (mkFS (entry "none" "/sys/fs/pseudo" "pseudofs") statfs_no_capacity)
  = F64.zero
  /\ F64.is_finite
       (Usage (mkFS (entry "none" "/sys/fs/pseudo" "pseudofs") statfs_no_capacity))
     = true.
Proof.
  destruct (C7_zero_total_zero_usage pseudo_env pseudo_mounts
              (mkFS (entry "none" "/sys/fs/pseudo" "pseudofs") statfs_no_capacity))
    as [Hzero Hfin].
  - left. reflexivity.
  - split; [apply Hzero; reflexivity | exact Hfin].
Defined.

(** C9 on a device of 16 blocks that reports 17 available. *)
Lemma C9_over_available_wraps :
  Used (mkFS (entry "dev" "/mnt" "ext4") statfs_over_available)
  = 65536 - 69632 + 2 ^ 64.
Proof.
  apply (C9_used_wraps_when_free_exceeds_total
           (entry "dev" "/mnt" "ext4") statfs_over_available).
  reflexivity.
Defined.

(* ===================================================================== *)
(** * Part III: the mount table reader, the renderers and the whole run *)
(* ===================================================================== *)

(** ** Strings as byte sequences *)

Lemma append_nil_r (s : string) : (s ++ "")%string = s.
Proof. induction s as [|c s IH]; simpl; [reflexivity | now rewrite IH]. Qed.

Lemma append_assoc (a b c : string) :
  ((a ++ b) ++ c)%string = (a ++ (b ++ c))%string.
Proof. induction a as [|x a IH]; simpl; [reflexivity | now rewrite IH]. Qed.

Lemma length_append (a b : string) :
  String.length (a ++ b) = (String.length a + String.length b)%nat.
Proof. induction a as [|x a IH]; simpl; [reflexivity | now rewrite IH]. Qed.

Lemma take_append (a b : string) : take (String.length a) (a ++ b) = a.
Proof. induction a as [|x a IH]; simpl; [now destruct b | now rewrite IH]. Qed.

Lemma drop_append (a b : string) : drop (String.length a) (a ++ b) = b.
Proof. induction a as [|x a IH]; simpl; [reflexivity | exact IH]. Qed.

Lemma take_drop (n : nat) (s : string) : (take n s ++ drop n s)%string = s.
Proof.
  revert s. induction n as [|n IH]; intros s; simpl; [reflexivity|].
  destruct s as [|c s]; simpl; [reflexivity | now rewrite IH].
Qed.

Lemma take_length (n : nat) (s : string) :
  (n <= String.length s)%nat -> String.length (take n s) = n.
Proof.
  revert s. induction n as [|n IH]; intros s H; simpl; [reflexivity|].
  destruct s as [|c s]; simpl in *; [lia | rewrite IH; lia].
Qed.

Lemma drop_length (n : nat) (s : string) :
  String.length (drop n s) = (String.length s - n)%nat.
Proof.
  revert s. induction n as [|n IH]; intros s; simpl; [lia|].
  destruct s as [|c s]; simpl; [reflexivity | apply IH].
Qed.

Lemma take_all (n : nat) (s : string) :
  (String.length s <= n)%nat -> take n s = s.
Proof.
  revert s. induction n as [|n IH]; intros s H.
  - destruct s; simpl in *; [reflexivity | lia].
  - destruct s as [|c s]; simpl in *; [reflexivity | rewrite IH; [reflexivity | lia]].
Qed.

Lemma slice_middle (a b c : string) :
  slice (String.length a) (String.length a + String.length b) (a ++ b ++ c) = b.
Proof.
  unfold slice. rewrite drop_append.
  replace (String.length a + String.length b - String.length a)%nat
    with (String.length b) by lia.
  apply take_append.
Qed.

(** ** [strings.Fields] *)

(** The loop on spans computes the fields of the pieces. *)
Lemma spans_loop_spec (f : Z -> bool) (W : string) :
  forall (cs : list (Z * string)) (P : string) (start : Z)
         (spans : list (nat * nat)) (cur : option string),
    W = (P ++ concat_bytes cs)%string ->
    ((start < 0 /\ cur = None) \/
     (exists P0 w, P = (P0 ++ w)%string /\ start = Z.of_nat (String.length P0)
                   /\ cur = Some w)) ->
    let st := fold_left (Str.span_step f) (offsets (String.length P) cs)
                        (start, spans) in
    map (fun ab => slice (fst ab) (snd ab) W)
        (if 0 <=? fst st
         then snd st ++ [(Z.to_nat (fst st), String.length W)]
         else snd st)
    = map (fun ab => slice (fst ab) (snd ab) W) spans ++ split_fields f cs cur.
Proof.
  induction cs as [|[r bs] cs IH]; intros P start spans cur HW Hst; simpl.
  - unfold concat_bytes in HW. simpl in HW. rewrite append_nil_r in HW. subst W.
    destruct Hst as [[Hneg ->]|(P0 & w & -> & -> & ->)].
    + destruct (Z.leb_spec 0 start); [lia|]. now rewrite app_nil_r.
    + destruct (Z.leb_spec 0 (Z.of_nat (String.length P0))); [|lia].
      rewrite map_app. simpl. rewrite Nat2Z.id, length_append.
      f_equal. f_equal.
      pose proof (slice_middle P0 w "") as Hmid.
      rewrite append_nil_r in Hmid. exact Hmid.
  - assert (HW' : W = ((P ++ bs) ++ concat_bytes cs)%string).
    { rewrite HW, append_assoc. unfold concat_bytes. simpl.
      destruct (map snd cs) eqn:E; simpl; [now rewrite append_nil_r|reflexivity]. }
    assert (Hlen : (String.length P + String.length bs)%nat
                   = String.length (P ++ bs)) by now rewrite length_append.
    rewrite Hlen.
    destruct (f r) eqn:Hf.
    + destruct Hst as [[Hneg ->]|(P0 & w & -> & -> & ->)].
      * destruct (Z.leb_spec 0 start); [lia|].
        apply (IH (P ++ bs)%string start spans None HW'). left. auto.
      * destruct (Z.leb_spec 0 (Z.of_nat (String.length P0))); [|lia].
        rewrite (IH ((P0 ++ w) ++ bs)%string _ _ None HW')
          by (left; split; [unfold Z.lnot; lia | reflexivity]).
        rewrite map_app. simpl. rewrite <- app_assoc. simpl.
        f_equal. f_equal. rewrite Nat2Z.id, length_append.
        rewrite HW', !append_assoc. apply slice_middle.
    + destruct Hst as [[Hneg ->]|(P0 & w & -> & -> & ->)].
      * destruct (Z.ltb_spec start 0); [|lia].
        apply (IH (P ++ bs)%string _ spans (Some bs) HW').
        right. exists P, bs. auto.
      * destruct (Z.ltb_spec (Z.of_nat (String.length P0)) 0); [lia|].
        apply (IH ((P0 ++ w) ++ bs)%string _ spans (Some (w ++ bs)%string) HW').
        right. exists P0, (w ++ bs)%string. rewrite append_assoc. auto.
Qed.

Lemma spans_of_chunks (f : Z -> bool) (s : string) (cs : list (Z * string)) :
  concat_bytes cs = s ->
  Str.spans_of f s (offsets 0 cs) = split_fields f cs None.
Proof.
  intros Hs. unfold Str.spans_of.
  pose proof (spans_loop_spec f s cs "" (-1) [] None) as H.
  simpl in H. specialize (H (eq_sym Hs)).
  assert (Hneg : -1 < 0) by lia.
  specialize (H (or_introl (conj Hneg eq_refl))).
  destruct (fold_left (Str.span_step f) (offsets 0 cs) (-1, [])) as [start spans].
  exact H.
Qed.

Lemma concat_bytes_cons (r : Z) (bs : string) (cs : list (Z * string)) :
  concat_bytes ((r, bs) :: cs) = (bs ++ concat_bytes cs)%string.
Proof.
  unfold concat_bytes. simpl.
  destruct (map snd cs); simpl; [now rewrite append_nil_r | reflexivity].
Qed.

Lemma concat_bytes_app (cs1 cs2 : list (Z * string)) :
  concat_bytes (cs1 ++ cs2) = (concat_bytes cs1 ++ concat_bytes cs2)%string.
Proof.
  induction cs1 as [|[r bs] cs1 IH]; [reflexivity|].
  simpl app. rewrite !concat_bytes_cons, IH, append_assoc. reflexivity.
Qed.

Ltac split_decode :=
  repeat match goal with
         | |- context [if ?b then _ else _] => destruct b eqn:?
         | |- context [match ?t with EmptyString => _ | String _ _ => _ end] =>
             destruct t
         end.

(** A rune takes at least one byte and no more than the string has. *)
Lemma decode_size (c : ascii) (s : string) :
  (1 <= snd (Utf8.DecodeRuneInString (String c s)) <= S (String.length s))%nat.
Proof.
  unfold Utf8.DecodeRuneInString. split_decode; simpl; lia.
Qed.

Lemma rune_chunks_from_concat (n : nat) :
  forall s, (String.length s <= n)%nat -> concat_bytes (rune_chunks_from n s) = s.
Proof.
  induction n as [|n IH]; intros s Hlen.
  - destruct s; simpl in *; [reflexivity | lia].
  - destruct s as [|c s]; [reflexivity|].
    cbn [rune_chunks_from].
    pose proof (decode_size c s) as Hsz.
    destruct (Utf8.DecodeRuneInString (String c s)) as [r size]. simpl in Hsz.
    rewrite concat_bytes_cons, IH, take_drop; [reflexivity|].
    rewrite drop_length. cbn [String.length] in *. lia.
Qed.

Lemma range_from_offsets (n : nat) :
  forall s i, Utf8.range_from n s i = offsets i (rune_chunks_from n s).
Proof.
  induction n as [|n IH]; intros s i; [reflexivity|].
  destruct s as [|c s]; [reflexivity|].
  cbn [Utf8.range_from rune_chunks_from].
  pose proof (decode_size c s) as Hsz.
  destruct (Utf8.DecodeRuneInString (String c s)) as [r size]. simpl in Hsz.
  cbn [offsets]. rewrite IH, take_length by (simpl; lia). reflexivity.
Qed.

Lemma FieldsFunc_chunks (s : string) (f : Z -> bool) :
  Str.FieldsFunc s f = split_fields f (rune_chunks s) None.
Proof.
  unfold Str.FieldsFunc, Utf8.range. rewrite range_from_offsets.
  apply spans_of_chunks. apply rune_chunks_from_concat. lia.
Qed.

Lemma bytes_from_offsets (s : string) :
  forall i, Str.bytes_from s i = offsets i (byte_chunks s).
Proof.
  induction s as [|c s IH]; intros i; [reflexivity|].
  simpl. rewrite IH. do 2 f_equal. lia.
Qed.

Lemma byte_chunks_concat (s : string) : concat_bytes (byte_chunks s) = s.
Proof.
  induction s as [|c s IH]; [reflexivity|].
  simpl byte_chunks. rewrite concat_bytes_cons, IH. reflexivity.
Qed.

Lemma split_fields_ext (f g : Z -> bool) (cs : list (Z * string)) :
  Forall (fun c => f (fst c) = g (fst c)) cs ->
  forall cur, split_fields f cs cur = split_fields g cs cur.
Proof.
  induction 1 as [|[r bs] cs Hr _ IH]; intros cur; [reflexivity|].
  simpl in *. rewrite Hr. destruct (g r); [destruct cur|]; now rewrite IH.
Qed.

Lemma byte_range (c : ascii) : 0 <= Utf8.byte c < 256.
Proof.
  unfold Utf8.byte. pose proof (N_ascii_bounded c). lia.
Qed.

(** On ASCII strings the runes are the bytes. *)
Lemma rune_chunks_ascii (s : string) :
  Str.has_high_byte s = false ->
  forall n, (String.length s <= n)%nat -> rune_chunks_from n s = byte_chunks s.
Proof.
  induction s as [|c s IH]; intros Hhi n Hn.
  - destruct n; reflexivity.
  - simpl in Hhi. apply orb_false_iff in Hhi as [Hc Hs].
    destruct n; [simpl in Hn; lia|].
    cbn [rune_chunks_from byte_chunks].
    assert (Hd : Utf8.DecodeRuneInString (String c s) = (Utf8.byte c, 1%nat)).
    { unfold Utf8.DecodeRuneInString, Utf8.first.
      apply Z.leb_gt in Hc. unfold Utf8.RuneSelf in Hc.
      destruct (Z.ltb_spec (Utf8.byte c) 128); [|lia]. reflexivity. }
    rewrite Hd. simpl take. simpl drop. rewrite IH; [reflexivity|assumption|].
    simpl in Hn. lia.
Qed.

Lemma asciiSpace_IsSpace (b : Z) :
  0 <= b < 128 -> Str.asciiSpace b = Unicode.IsSpace b.
Proof.
  intros Hb. unfold Str.asciiSpace, Unicode.IsSpace.
  destruct (Z.leb_spec 0 b); [|lia]. destruct (Z.leb_spec b 255); [|lia].
  simpl. destruct (Z.eqb_spec b 133); [lia|]. destruct (Z.eqb_spec b 160); [lia|].
  now rewrite !orb_false_r.
Qed.

Lemma byte_chunks_ascii (s : string) :
  Str.has_high_byte s = false ->
  Forall (fun c => Str.asciiSpace (fst c) = Unicode.IsSpace (fst c)) (byte_chunks s).
Proof.
  induction s as [|c s IH]; intros Hhi; [constructor|].
  simpl in Hhi. apply orb_false_iff in Hhi as [Hc Hs].
  constructor; [|auto]. simpl. apply asciiSpace_IsSpace.
  apply Z.leb_gt in Hc. unfold Utf8.RuneSelf in Hc.
  pose proof (byte_range c). lia.
Qed.

(** Both paths of [strings.Fields] cut the runes of the string at the
    spaces of [unicode.IsSpace]. *)
Lemma Fields_chunks (s : string) :
  Str.Fields s = split_fields Unicode.IsSpace (rune_chunks s) None.
Proof.
  unfold Str.Fields. destruct (Str.has_high_byte s) eqn:Hhi.
  - apply FieldsFunc_chunks.
  - rewrite bytes_from_offsets, spans_of_chunks by apply byte_chunks_concat.
    unfold rune_chunks. rewrite rune_chunks_ascii by (auto; lia).
    apply split_fields_ext, byte_chunks_ascii, Hhi.
Qed.

Lemma asciiSpace_low (b : Z) : Str.asciiSpace b = true -> b < 33.
Proof.
  unfold Str.asciiSpace. rewrite !orb_true_iff, !Z.eqb_eq. lia.
Qed.

Lemma asciiSpace_high (b : Z) : 33 <= b -> Str.asciiSpace b = false.
Proof.
  intros H. destruct (Str.asciiSpace b) eqn:E; [|reflexivity].
  apply asciiSpace_low in E. lia.
Qed.

Lemma IsSpace_RuneError : Unicode.IsSpace Utf8.RuneError = false.
Proof. reflexivity. Qed.

Ltac bool_hyps :=
  repeat match goal with
         | H : (_ <? _) = true |- _ => apply Z.ltb_lt in H
         | H : (_ <? _) = false |- _ => apply Z.ltb_ge in H
         | H : (_ <=? _) = true |- _ => apply Z.leb_le in H
         | H : (_ <=? _) = false |- _ => apply Z.leb_gt in H
         | H : (_ =? _) = true |- _ => apply Z.eqb_eq in H
         | H : (_ =? _) = false |- _ => apply Z.eqb_neq in H
         | H : (_ || _)%bool = false |- _ => apply orb_false_iff in H as [? ?]
         | H : (_ || _)%bool = true |- _ => apply orb_true_iff in H as [?|?]
         end.

Lemma first_ascii (b : Z) : b < 128 -> Utf8.first b = Utf8.as_.
Proof.
  intros H. unfold Utf8.first. destruct (Z.ltb_spec b 128); [reflexivity | lia].
Qed.

Lemma first_high (b : Z) :
  128 <= b -> (Utf8.as_ <=? Utf8.first b) = true -> Utf8.first b = Utf8.xx.
Proof.
  intros Hb. unfold Utf8.first.
  repeat match goal with
         | |- context [if ?b then _ else _] => destruct b eqn:?
         end; try reflexivity; bool_hyps; try lia; intros Has; vm_compute in Has;
    discriminate.
Qed.

Lemma first_lead (b : Z) :
  (Utf8.as_ <=? Utf8.first b) = false ->
  194 <= b
  /\ 128 <= fst (Utf8.acceptRanges (Z.shiftr (Utf8.first b) 4))
  /\ snd (Utf8.acceptRanges (Z.shiftr (Utf8.first b) 4)) < 192
  /\ 2 <= Z.land (Utf8.first b) 7 <= 4.
Proof.
  unfold Utf8.first.
  repeat match goal with
         | |- context [if ?b then _ else _] => destruct b eqn:?
         end; intros Has; try (vm_compute in Has; discriminate);
    bool_hyps; (split; [lia|]); vm_compute;
    repeat split; try discriminate; reflexivity.
Qed.

(** The shapes of a decoded rune: an ASCII byte; an invalid byte; or a
    sequence of two to four bytes led by a byte that is no continuation
    byte and followed by continuation bytes. *)
Lemma decode_shape (c : ascii) (s : string) (r : Z) (size : nat) :
  Utf8.DecodeRuneInString (String c s) = (r, size) ->
  (size = 1%nat /\ Utf8.byte c < 128 /\ r = Utf8.byte c)
  \/ (size = 1%nat /\ 128 <= Utf8.byte c /\ r = Utf8.RuneError)
  \/ (size = 2%nat /\ 194 <= Utf8.byte c /\
      exists c1 t, s = String c1 t /\ is_cont c1)
  \/ (size = 3%nat /\ 194 <= Utf8.byte c /\
      exists c1 c2 t, s = String c1 (String c2 t) /\ is_cont c1 /\ is_cont c2)
  \/ (size = 4%nat /\ 194 <= Utf8.byte c /\
      exists c1 c2 c3 t,
        s = String c1 (String c2 (String c3 t))
        /\ is_cont c1 /\ is_cont c2 /\ is_cont c3).
Proof.
  pose proof (byte_range c) as Hb0.
  unfold Utf8.DecodeRuneInString.
  destruct (Z.ltb_spec (Utf8.byte c) 128) as [Hlow|Hhigh].
  { rewrite first_ascii by assumption. simpl. intros [= <- <-]. left. auto. }
  destruct (Utf8.as_ <=? Utf8.first (Utf8.byte c)) eqn:Has.
  { rewrite (first_high _ Hhigh Has). simpl. intros [= <- <-]. right. left. auto. }
  destruct (first_lead _ Has) as (Hlead & Hlo & Hhi & Hsz).
  set (acc := Utf8.acceptRanges (Z.shiftr (Utf8.first (Utf8.byte c)) 4)) in *.
  unfold Utf8.outside, Utf8.locb, Utf8.hicb.
  split_decode; intros [= <- <-]; bool_hyps;
    try (right; left; repeat split; (assumption || lia || reflexivity));
    right; right.
  - left. split; [reflexivity|]. split; [assumption|].
    eexists _, _. split; [reflexivity|]. unfold is_cont. lia.
  - right. left. split; [reflexivity|]. split; [assumption|].
    eexists _, _, _. split; [reflexivity|]. unfold is_cont. lia.
  - right. right. split; [reflexivity|]. split; [assumption|].
    eexists _, _, _, _. split; [reflexivity|]. unfold is_cont. lia.
Qed.

(** A valid encoding is decoded from its own bytes, whatever follows. *)
Lemma decode_ext (c : ascii) (s : string) (r : Z) (size : nat) :
  Utf8.DecodeRuneInString (String c s) = (r, size) ->
  r <> Utf8.RuneError \/ (2 <= size)%nat ->
  forall y,
    Utf8.DecodeRuneInString (take size (String c s) ++ y) = (r, size).
Proof.
  intros H Hvalid y.
  destruct (decode_shape _ _ _ _ H)
    as [(-> & Hlow & ->)|[(-> & Hhi & ->)|[(-> & Hlead & c1 & t & -> & H1)
       |[(-> & Hlead & c1 & c2 & t & -> & H1 & H2)
        |(-> & Hlead & c1 & c2 & c3 & t & -> & H1 & H2 & H3)]]]].
  - simpl. unfold Utf8.DecodeRuneInString. now rewrite first_ascii.
  - destruct Hvalid as [Hne|Hsz]; [congruence | lia].
  - revert H. simpl take. simpl append. unfold Utf8.DecodeRuneInString.
    destruct (Utf8.as_ <=? Utf8.first (Utf8.byte c)) eqn:Has; [intros [=]|].
    destruct (first_lead _ Has) as (_ & _ & _ & Hsz).
    cbn [String.length]. split_decode; intros [= <-]; bool_hyps;
      try reflexivity; try discriminate; lia.
  - revert H. simpl take. simpl append. unfold Utf8.DecodeRuneInString.
    destruct (Utf8.as_ <=? Utf8.first (Utf8.byte c)) eqn:Has; [intros [=]|].
    destruct (first_lead _ Has) as (_ & _ & _ & Hsz).
    cbn [String.length]. split_decode; intros [= <-]; bool_hyps;
      try reflexivity; try discriminate; lia.
  - revert H. simpl take. simpl append. unfold Utf8.DecodeRuneInString.
    destruct (Utf8.as_ <=? Utf8.first (Utf8.byte c)) eqn:Has; [intros [=]|].
    destruct (first_lead _ Has) as (_ & _ & _ & Hsz).
    cbn [String.length]. split_decode; intros [= <-]; bool_hyps;
      try reflexivity; try discriminate; lia.
Qed.

(** What follows a string does not change the decoding of its runes,
    provided it does not start with a continuation byte. *)
Lemma decode_local (c : ascii) (s w : string) :
  starts_clean w ->
  Utf8.DecodeRuneInString (String c s ++ w)
  = Utf8.DecodeRuneInString (String c s).
Proof.
  intros Hw.
  destruct (Utf8.DecodeRuneInString (String c s)) as [r size] eqn:H.
  destruct (decode_shape _ _ _ _ H)
    as [(-> & Hlow & ->)|[(-> & Hhi & ->)|Hmulti]].
  - simpl. unfold Utf8.DecodeRuneInString. now rewrite first_ascii.
  - (* an invalid byte stays invalid *)
    revert H. simpl append. unfold Utf8.DecodeRuneInString.
    destruct (Utf8.as_ <=? Utf8.first (Utf8.byte c)) eqn:Has;
      [rewrite (first_high _ Hhi Has); reflexivity|].
    destruct (first_lead _ Has) as (_ & Hlo & Hhi' & Hsz).
    set (acc := Utf8.acceptRanges (Z.shiftr (Utf8.first (Utf8.byte c)) 4)) in *.
    unfold Utf8.outside, Utf8.locb, Utf8.hicb.
    destruct s as [|c1 [|c2 [|c3 t]]]; destruct w as [|cw w'];
      simpl append; cbn [String.length];
      unfold starts_clean, is_cont in Hw;
      split_decode; intros [=]; bool_hyps; try reflexivity; try lia.
  - assert (Hsz : (2 <= size)%nat)
      by (destruct Hmulti as [(-> & _)|[(-> & _)|(-> & _)]]; lia).
    pose proof (decode_ext _ _ _ _ H (or_intror Hsz) (drop size (String c s) ++ w))
      as Hext.
    rewrite <- append_assoc, take_drop in Hext. exact Hext.
Qed.

Lemma rune_chunks_from_any (n : nat) :
  forall m s, (String.length s <= n)%nat -> (String.length s <= m)%nat ->
              rune_chunks_from n s = rune_chunks_from m s.
Proof.
  induction n as [|n IH]; intros m s Hn Hm.
  - destruct s; simpl in *; [now destruct m | lia].
  - destruct s as [|c s]; [now destruct m|].
    destruct m as [|m]; [simpl in Hm; lia|].
    cbn [rune_chunks_from].
    pose proof (decode_size c s) as Hsz.
    destruct (Utf8.DecodeRuneInString (String c s)) as [r size]. simpl in Hsz.
    f_equal.
    assert (Hd : (String.length (drop size (String c s)) <= String.length s)%nat)
      by (rewrite drop_length; cbn [String.length]; lia).
    cbn [String.length] in Hn, Hm. apply IH; lia.
Qed.

Lemma rune_chunks_from_fuel (n : nat) (s : string) :
  (String.length s <= n)%nat -> rune_chunks_from n s = rune_chunks s.
Proof.
  intros H. unfold rune_chunks. apply rune_chunks_from_any; lia.
Qed.

Lemma rune_chunks_cons (c : ascii) (s : string) :
  rune_chunks (String c s)
  = (fst (Utf8.DecodeRuneInString (String c s)),
     take (snd (Utf8.DecodeRuneInString (String c s))) (String c s))
    :: rune_chunks (drop (snd (Utf8.DecodeRuneInString (String c s))) (String c s)).
Proof.
  unfold rune_chunks at 1. cbn [rune_chunks_from String.length].
  pose proof (decode_size c s) as Hsz.
  destruct (Utf8.DecodeRuneInString (String c s)) as [r size]. simpl in *.
  f_equal. apply rune_chunks_from_fuel.
  rewrite drop_length. cbn [String.length]. lia.
Qed.

Lemma take_append_le (n : nat) (a b : string) :
  (n <= String.length a)%nat -> take n (a ++ b) = take n a.
Proof.
  revert a. induction n as [|n IH]; intros a H; [reflexivity|].
  destruct a as [|x a]; simpl in *; [lia | rewrite IH; [reflexivity | lia]].
Qed.

Lemma drop_append_le (n : nat) (a b : string) :
  (n <= String.length a)%nat -> drop n (a ++ b) = (drop n a ++ b)%string.
Proof.
  revert a. induction n as [|n IH]; intros a H; [reflexivity|].
  destruct a as [|x a]; simpl in *; [lia | apply IH; lia].
Qed.

(** The runes of a string followed by another that starts cleanly. *)
Lemma rune_chunks_app (u w : string) :
  starts_clean w -> rune_chunks (u ++ w) = rune_chunks u ++ rune_chunks w.
Proof.
  intros Hw.
  remember (String.length u) as n eqn:Hn.
  revert u Hn. induction n as [n IH] using lt_wf_ind. intros u Hn.
  destruct u as [|c s]; [reflexivity|].
  change (String c s ++ w)%string with (String c (s ++ w)).
  rewrite (rune_chunks_cons c (s ++ w)), (rune_chunks_cons c s).
  change (String c (s ++ w)) with (String c s ++ w)%string.
  rewrite decode_local by assumption.
  pose proof (decode_size c s) as Hsz.
  destruct (Utf8.DecodeRuneInString (String c s)) as [r size].
  cbn [fst snd] in Hsz |- *.
  rewrite take_append_le, drop_append_le by (cbn [String.length]; lia).
  rewrite <- app_comm_cons. f_equal.
  apply (IH (String.length (drop size (String c s)))); [|reflexivity].
  rewrite drop_length. subst n. cbn [String.length]. lia.
Qed.

(** A valid encoding in front of a string is its first rune. *)
Lemma rune_chunks_prefix (w y : string) (r : Z) :
  w <> EmptyString ->
  Utf8.DecodeRuneInString w = (r, String.length w) ->
  r <> Utf8.RuneError \/ (2 <= String.length w)%nat ->
  rune_chunks (w ++ y) = (r, w) :: rune_chunks y.
Proof.
  intros Hne Hd Hvalid. destruct w as [|c s]; [congruence|].
  pose proof (decode_ext c s r _ Hd Hvalid y) as Hext.
  rewrite take_all in Hext by lia.
  change (String c s ++ y)%string with (String c (s ++ y)) in *.
  rewrite rune_chunks_cons, Hext. cbn [fst snd].
  change (String c (s ++ y)) with (String c s ++ y)%string.
  rewrite take_append, drop_append. reflexivity.
Qed.

Lemma rune_chunks_ok (s : string) : Forall chunk_ok (rune_chunks s).
Proof.
  remember (String.length s) as n eqn:Hn.
  revert s Hn. induction n as [n IH] using lt_wf_ind. intros s Hn.
  destruct s as [|c s]; [constructor|].
  rewrite rune_chunks_cons.
  pose proof (decode_size c s) as Hsz.
  destruct (Utf8.DecodeRuneInString (String c s)) as [r size] eqn:Hd.
  cbn [fst snd] in Hsz |- *. constructor.
  - unfold chunk_ok. cbn [fst snd].
    split; [destruct size; [lia | discriminate]|].
    split.
    + intros Hsp. rewrite take_length by (cbn [String.length]; lia).
      assert (Hv : r <> Utf8.RuneError \/ (2 <= size)%nat)
        by (left; intros ->; discriminate Hsp).
      pose proof (decode_ext c s r size Hd Hv "") as Hext.
      now rewrite append_nil_r in Hext.
    + destruct (decode_shape _ _ _ _ Hd)
        as [(-> & Hlow & ->)|[(-> & Hhi & ->)|[(-> & Hlead & c1 & t & -> & H1)
           |[(-> & Hlead & c1 & c2 & t & -> & H1 & H2)
            |(-> & Hlead & c1 & c2 & c3 & t & -> & H1 & H2 & H3)]]]];
        unfold is_cont in *; simpl take; intros Hsp;
        cbn [no_space_bytes]; rewrite ?asciiSpace_high by lia; try reflexivity.
      rewrite asciiSpace_IsSpace, Hsp by (pose proof (byte_range c); lia).
      reflexivity.
  - apply (IH (String.length (drop size (String c s)))); [|reflexivity].
    rewrite drop_length. subst n. cbn [String.length]. lia.
Qed.

(** ** The fields of a line *)

Lemma no_space_bytes_app (a b : string) :
  no_space_bytes (a ++ b) = no_space_bytes a && no_space_bytes b.
Proof.
  induction a as [|c a IH]; simpl; [reflexivity|].
  now rewrite IH, andb_assoc.
Qed.

Lemma append_not_nil_r (a b : string) : b <> EmptyString -> (a ++ b)%string <> EmptyString.
Proof. destruct a; simpl; [auto | discriminate]. Qed.

Lemma split_fields_clean (cs : list (Z * string)) :
  Forall chunk_ok cs ->
  forall cur, (forall w, cur = Some w -> clean w) ->
              Forall clean (split_fields Unicode.IsSpace cs cur).
Proof.
  induction 1 as [|[r bs] cs (Hne & _ & Hbs) _ IH]; intros cur Hcur; simpl.
  - destruct cur as [w|]; [|constructor]. constructor; [auto | constructor].
  - cbn [fst snd] in *. destruct (Unicode.IsSpace r) eqn:Hr.
    + destruct cur as [w|].
      * constructor; [auto|]. apply IH. discriminate.
      * apply IH. discriminate.
    + apply IH. intros w [= <-]. destruct cur as [w|].
      * destruct (Hcur w eq_refl) as [Hw1 Hw2]. split.
        -- now apply append_not_nil_r.
        -- rewrite no_space_bytes_app, Hw2, Hbs; reflexivity.
      * split; auto.
Qed.

Lemma Fields_clean (s : string) : Forall clean (Str.Fields s).
Proof.
  rewrite Fields_chunks. apply split_fields_clean; [apply rune_chunks_ok|].
  discriminate.
Qed.

Lemma split_fields_app_sep (f : Z -> bool) (cs1 cs2 : list (Z * string))
      (r : Z) (bs : string) :
  f r = true ->
  forall cur,
    split_fields f (cs1 ++ (r, bs) :: cs2) cur
    = split_fields f cs1 cur ++ split_fields f cs2 None.
Proof.
  intros Hr. induction cs1 as [|[r1 b1] cs1 IH]; intros cur; simpl.
  - rewrite Hr. now destruct cur.
  - destruct (f r1); [destruct cur|]; rewrite IH; reflexivity.
Qed.

Lemma ws_piece_clean_start (w : string) : ws_piece w -> starts_clean w.
Proof.
  intros [Hne (r & Hd & Hsp)]. destruct w as [|c s]; [exact I|].
  simpl. unfold is_cont.
  destruct (decode_shape _ _ _ _ Hd)
    as [(_ & Hlow & _)|[(_ & _ & ->)|[(_ & Hlead & _)|[(_ & Hlead & _)|(_ & Hlead & _)]]]];
    try lia.
  discriminate Hsp.
Qed.

Lemma ws_piece_chunks (w y : string) :
  ws_piece w ->
  exists r, Unicode.IsSpace r = true /\ rune_chunks (w ++ y) = (r, w) :: rune_chunks y.
Proof.
  intros [Hne (r & Hd & Hsp)]. exists r. split; [assumption|].
  apply rune_chunks_prefix; try assumption.
  left. intros ->. discriminate Hsp.
Qed.

(** [Fields] cuts at a space, whatever stands on its two sides. *)
Lemma Fields_sep (x w y : string) :
  ws_piece w -> Str.Fields (x ++ w ++ y) = Str.Fields x ++ Str.Fields y.
Proof.
  intros Hw. rewrite !Fields_chunks.
  destruct (ws_piece_chunks w y Hw) as (r & Hsp & Hch).
  rewrite rune_chunks_app, Hch.
  - now apply split_fields_app_sep.
  - destruct w as [|c w]; [destruct Hw as [Hne _]; congruence|].
    apply (ws_piece_clean_start _ Hw).
Qed.

Lemma Fields_nil : Str.Fields "" = [].
Proof. reflexivity. Qed.

Lemma Fields_ws_l (w y : string) : ws_piece w -> Str.Fields (w ++ y) = Str.Fields y.
Proof. intros Hw. apply (Fields_sep "" w y Hw). Qed.

Lemma Fields_ws_r (x w : string) : ws_piece w -> Str.Fields (x ++ w) = Str.Fields x.
Proof.
  intros Hw. pose proof (Fields_sep x w "" Hw) as H.
  now rewrite append_nil_r, Fields_nil, app_nil_r in H.
Qed.

(** ** [strings.TrimSpace] removes runs of spaces *)

Lemma string_snoc (q : string) :
  q <> EmptyString -> exists q' c, q = (q' ++ String c EmptyString)%string.
Proof.
  induction q as [|x q IH]; intros Hne; [congruence|].
  destruct q as [|y q].
  - exists EmptyString, x. reflexivity.
  - destruct IH as (q' & c & E); [discriminate|].
    exists (String x q'), c. simpl. now rewrite <- E.
Qed.

Lemma at_app (a : string) (c : ascii) (rest : string) :
  Utf8.at_ (a ++ String c rest) (Z.of_nat (String.length a)) = Utf8.byte c.
Proof.
  unfold Utf8.at_. rewrite Nat2Z.id.
  pose proof (append_correct2 a (String c rest) 0) as H. simpl in H.
  now rewrite <- H.
Qed.

Lemma scan_back_le (k : nat) (s : string) (lim : Z) :
  forall st, Utf8.scan_back k s st lim <= st.
Proof.
  induction k as [|k IH]; intros st; simpl; [lia|].
  destruct (st <? lim); [lia|].
  destruct (Utf8.RuneStart (Utf8.at_ s st)); [lia|].
  specialize (IH (st - 1)). lia.
Qed.

Lemma decode_single_high (c : ascii) :
  128 <= Utf8.byte c ->
  Utf8.DecodeRuneInString (String c EmptyString) = (Utf8.RuneError, 1%nat).
Proof.
  intros Hc.
  destruct (Utf8.DecodeRuneInString (String c "")) as [r size] eqn:Hd.
  destruct (decode_shape _ _ _ _ Hd)
    as [(-> & Hlow & ->)|[(-> & Hhi & ->)|[(-> & Hlead & c1 & t & E & H1)
       |[(-> & Hlead & c1 & c2 & t & E & H1 & H2)
        |(-> & Hlead & c1 & c2 & c3 & t & E & H1 & H2 & H3)]]]];
    try discriminate E; [lia | reflexivity].
Qed.

Lemma decode_ascii (c : ascii) (s : string) :
  Utf8.byte c < 128 ->
  Utf8.DecodeRuneInString (String c s) = (Utf8.byte c, 1%nat).
Proof.
  intros H. unfold Utf8.DecodeRuneInString. now rewrite first_ascii.
Qed.

(** The last rune of a string, as [DecodeLastRuneInString] sees it: a
    suffix of the width it reports, which decodes with that width
    whatever follows it cleanly, and is a valid encoding when the rune
    is a space. *)
Lemma DecodeLast_width (q : string) :
  q <> EmptyString ->
  exists q' u,
    q = (q' ++ u)%string
    /\ String.length u = snd (Utf8.DecodeLastRuneInString q)
    /\ u <> EmptyString
    /\ (forall T, starts_clean T ->
                  snd (Utf8.DecodeRuneInString (u ++ T))
                  = snd (Utf8.DecodeLastRuneInString q))
    /\ (Unicode.IsSpace (fst (Utf8.DecodeLastRuneInString q)) = true -> ws_piece u).
Proof.
  intros Hne. destruct (string_snoc q Hne) as (q0 & c & Eq).
  assert (Hlen : String.length q = S (String.length q0))
    by (rewrite Eq, length_append; simpl; lia).
  unfold Utf8.DecodeLastRuneInString.
  destruct (Z.eqb_spec (Z.of_nat (String.length q)) 0) as [H0|_]; [lia|].
  assert (Hat : Utf8.at_ q (Z.of_nat (String.length q) - 1) = Utf8.byte c).
  { rewrite Hlen, Eq. replace (Z.of_nat (S (String.length q0)) - 1)
      with (Z.of_nat (String.length q0)) by lia. apply at_app. }
  rewrite Hat.
  destruct (Z.ltb_spec (Utf8.byte c) Utf8.RuneSelf) as [Hlow|Hhigh];
    unfold Utf8.RuneSelf in *.
  { exists q0, (String c ""). cbn [fst snd String.length].
    split; [assumption|]. split; [reflexivity|]. split; [discriminate|].
    split.
    - intros T _. simpl append. now rewrite decode_ascii.
    - intros Hsp. split; [discriminate|]. exists (Utf8.byte c).
      split; [now rewrite decode_ascii | assumption]. }
  set (start := Z.max (Utf8.scan_back 5 q (Z.of_nat (String.length q) - 1 - 1)
                                      (Z.max (Z.of_nat (String.length q) - Utf8.UTFMax) 0)) 0).
  assert (Hstart : 0 <= start < Z.of_nat (String.length q)).
  { unfold start.
    pose proof (scan_back_le 5 q (Z.max (Z.of_nat (String.length q) - Utf8.UTFMax) 0)
                             (Z.of_nat (String.length q) - 1 - 1)).
    lia. }
  assert (Hslice : slice (Z.to_nat start) (Z.to_nat (Z.of_nat (String.length q))) q
                   = drop (Z.to_nat start) q).
  { unfold slice. apply take_all. rewrite drop_length. lia. }
  rewrite Hslice.
  assert (Hdl : String.length (drop (Z.to_nat start) q)
                = (String.length q - Z.to_nat start)%nat) by apply drop_length.
  destruct (Utf8.DecodeRuneInString (drop (Z.to_nat start) q)) as [r size] eqn:Hd.
  destruct (Z.eqb_spec (start + Z.of_nat size) (Z.of_nat (String.length q))) as [Hfit|Hmis].
  - exists (take (Z.to_nat start) q), (drop (Z.to_nat start) q).
    cbn [fst snd].
    assert (Hsz : String.length (drop (Z.to_nat start) q) = size) by lia.
    split; [now rewrite take_drop|]. split; [assumption|].
    assert (Hu : drop (Z.to_nat start) q <> "").
    { intros E. rewrite E in Hsz. simpl in Hsz. lia. }
    split; [assumption|]. split.
    + intros T HT. destruct (drop (Z.to_nat start) q) as [|c0 u0]; [congruence|].
      rewrite decode_local by assumption. now rewrite Hd.
    + intros Hsp. split; [assumption|]. exists r. rewrite Hsz. auto.
  - exists q0, (String c ""). cbn [fst snd String.length].
    split; [assumption|]. split; [reflexivity|]. split; [discriminate|].
    split.
    + intros T HT. rewrite decode_local by assumption.
      now rewrite decode_single_high.
    + intros Hsp. discriminate Hsp.
Qed.

Lemma ws_string_nil : ws_string "".
Proof. exists []. split; [constructor | reflexivity]. Qed.

Lemma ws_string_cons (w t : string) :
  ws_piece w -> ws_string t -> ws_string (w ++ t).
Proof.
  intros Hw (ps & Hps & ->). exists (w :: ps). split; [now constructor | reflexivity].
Qed.

Lemma join_app (ps qs : list string) : join (ps ++ qs) = (join ps ++ join qs)%string.
Proof.
  induction ps as [|p ps IH]; simpl; [reflexivity|].
  now rewrite IH, append_assoc.
Qed.

Lemma ws_string_app (a b : string) :
  ws_string a -> ws_string b -> ws_string (a ++ b).
Proof.
  intros (ps & Hps & ->) (qs & Hqs & ->). exists (ps ++ qs).
  split; [now apply Forall_app | now rewrite join_app].
Qed.

Lemma ws_string_piece (w : string) : ws_piece w -> ws_string w.
Proof.
  intros Hw. rewrite <- (append_nil_r w).
  apply ws_string_cons; [assumption | apply ws_string_nil].
Qed.

Lemma starts_clean_app (p x : string) :
  p <> EmptyString -> starts_clean p -> starts_clean (p ++ x).
Proof. destruct p; [congruence | auto]. Qed.

Lemma ws_string_clean_start (t : string) : ws_string t -> starts_clean t.
Proof.
  intros (ps & Hps & ->). destruct Hps as [|p ps Hp _]; [exact I|].
  simpl. apply starts_clean_app; [apply Hp | now apply ws_piece_clean_start].
Qed.

Lemma ascii_space_piece (c : ascii) :
  Str.asciiSpace (Utf8.byte c) = true -> ws_piece (String c "").
Proof.
  intros Hsp. pose proof (asciiSpace_low _ Hsp) as Hlow.
  pose proof (byte_range c) as Hb.
  split; [discriminate|]. exists (Utf8.byte c). split.
  - apply decode_ascii. lia.
  - rewrite <- asciiSpace_IsSpace by lia. assumption.
Qed.

(** The loop of [lastIndexFunc] that looks for the last rune that is no
    space: it stops in front of a run of spaces. *)
Lemma lastIndex_spec (s : string) (n : nat) :
  forall (i : nat) (T : string),
    (i <= n)%nat -> (i <= String.length s)%nat ->
    s = (take i s ++ T)%string -> ws_string T ->
    let j := Str.lastIndexFunc_loop n s Unicode.IsSpace false i in
    (j = -1 /\ ws_string s)
    \/ (0 <= j /\
        exists i', (Z.to_nat j < i' <= String.length s)%nat
                   /\ ws_string (drop i' s)
                   /\ (if Utf8.RuneSelf <=? Utf8.at_ s j
                       then j + Z.of_nat (snd (Utf8.DecodeRuneInString
                                                 (drop (Z.to_nat j) s)))
                       else j + 1) = Z.of_nat i').
Proof.
  induction n as [|n IH]; intros i T Hin Hil Hs HT; cbn [Str.lastIndexFunc_loop].
  { left. split; [reflexivity|]. assert (i = 0%nat) by lia. subst i.
    simpl in Hs. now rewrite Hs. }
  destruct (Nat.eqb_spec i 0) as [->|Hi].
  { left. split; [reflexivity|]. simpl in Hs. now rewrite Hs. }
  assert (Hq : take i s <> "").
  { intros E. apply (f_equal String.length) in E.
    rewrite take_length in E by assumption. simpl in E. lia. }
  destruct (DecodeLast_width _ Hq) as (q' & u & Equ & Hlen & Hu & Hwid & Hws).
  destruct (Utf8.DecodeLastRuneInString (take i s)) as [r size].
  cbn [fst snd] in *.
  assert (Hsum : i = (String.length q' + size)%nat).
  { apply (f_equal String.length) in Equ.
    rewrite take_length, length_append in Equ by assumption. lia. }
  assert (Hi' : (i - size)%nat = String.length q') by lia.
  assert (Hsz : (1 <= size)%nat).
  { destruct u; [congruence | simpl in Hlen; lia]. }
  assert (Hs' : s = (q' ++ u ++ T)%string) by (rewrite <- append_assoc, <- Equ; exact Hs).
  destruct (Unicode.IsSpace r) eqn:Hr; cbn [Bool.eqb].
  - (* a space: the loop goes on in front of it *)
    apply (IH (i - size)%nat (u ++ T)%string); try lia.
    + assert (Ht : take (String.length q') s = q')
        by (rewrite Hs'; apply take_append).
      rewrite Hi', Ht. exact Hs'.
    + apply ws_string_cons; auto.
  - right. split; [lia|]. exists i.
    rewrite Nat2Z.id. split; [lia|]. split.
    + assert (Hd : drop i s = T).
      { pose proof (drop_append (take i s) T) as Hd.
        rewrite take_length, <- Hs in Hd by assumption. exact Hd. }
      now rewrite Hd.
    + pose proof (ws_string_clean_start T HT) as HcT.
      rewrite Hi'. destruct u as [|c0 u0]; [congruence|].
      assert (Hat : Utf8.at_ s (Z.of_nat (String.length q')) = Utf8.byte c0)
        by (rewrite Hs'; apply at_app).
      assert (Hd : drop (String.length q') s = (String c0 u0 ++ T)%string)
        by (rewrite Hs'; apply drop_append).
      rewrite Hat, Hd.
      specialize (Hwid T HcT).
      destruct (Z.leb_spec Utf8.RuneSelf (Utf8.byte c0)) as [Hhi|Hlo];
        unfold Utf8.RuneSelf in *.
      * rewrite Hwid. lia.
      * change (String c0 u0 ++ T)%string with (String c0 (u0 ++ T)) in Hwid.
        rewrite decode_ascii in Hwid by assumption. simpl in Hwid. lia.
Qed.

Lemma TrimRightFunc_decomp (s : string) :
  exists T, ws_string T /\ s = (Str.TrimRightFunc s Unicode.IsSpace ++ T)%string.
Proof.
  unfold Str.TrimRightFunc, Str.lastIndexFunc.
  destruct (lastIndex_spec s (String.length s) (String.length s) ""
              (le_n _) (le_n _)) as [[Hj Hws]|(Hj & i' & Hi' & Hws & Hw)].
  - rewrite take_all, append_nil_r by lia. reflexivity.
  - apply ws_string_nil.
  - rewrite Hj. simpl. exists s. auto.
  - set (j := Str.lastIndexFunc_loop (String.length s) s Unicode.IsSpace false
                                     (String.length s)) in *.
    destruct (Z.leb_spec 0 j); [|lia]. cbn [andb].
    rewrite Hw, Nat2Z.id. exists (drop i' s). split; [assumption|].
    now rewrite take_drop.
Qed.

Lemma indexFunc_offsets (cs : list (Z * string)) :
  Forall chunk_ok cs ->
  forall i,
    let j := Str.indexFunc_loop Unicode.IsSpace false (offsets i cs) in
    (j = -1 /\ ws_string (concat_bytes cs))
    \/ (exists L R, concat_bytes cs = (L ++ R)%string /\ ws_string L
                    /\ j = Z.of_nat (i + String.length L)).
Proof.
  induction 1 as [|[r bs] cs (Hne & Hsp & _) _ IH]; intros i; simpl.
  - left. split; [reflexivity | apply ws_string_nil].
  - cbn [fst snd] in *. rewrite concat_bytes_cons.
    destruct (Unicode.IsSpace r) eqn:Hr; cbn [Bool.eqb].
    + assert (Hp : ws_piece bs) by (split; [assumption | exists r; auto]).
      destruct (IH (i + String.length bs)%nat) as [[Hj Hws]|(L & R & E & HL & Hj)].
      * left. split; [assumption | now apply ws_string_cons].
      * right. exists (bs ++ L)%string, R. rewrite E, append_assoc.
        split; [reflexivity|]. split; [now apply ws_string_cons|].
        rewrite Hj, length_append. lia.
    + right. exists "", (bs ++ concat_bytes cs)%string.
      split; [reflexivity|]. split; [apply ws_string_nil|]. simpl. lia.
Qed.

Lemma TrimLeftFunc_decomp (s : string) :
  exists L, ws_string L /\ s = (L ++ Str.TrimLeftFunc s Unicode.IsSpace)%string.
Proof.
  unfold Str.TrimLeftFunc, Str.indexFunc, Utf8.range.
  rewrite range_from_offsets. fold (rune_chunks s).
  pose proof (rune_chunks_from_concat (String.length s) s (le_n _)) as Hc.
  fold (rune_chunks s) in Hc.
  destruct (indexFunc_offsets _ (rune_chunks_ok s) 0%nat)
    as [[Hj Hws]|(L & R & E & HL & Hj)].
  - rewrite Hj. simpl. exists s. rewrite append_nil_r, <- Hc at 1. auto.
  - rewrite Hj. simpl Nat.add.
    destruct (Z.eqb_spec (Z.of_nat (String.length L)) (-1)); [lia|].
    rewrite Nat2Z.id. exists L. split; [assumption|].
    rewrite <- Hc at 2. rewrite E, drop_append. now rewrite <- E, Hc.
Qed.

Lemma TrimFunc_decomp (s : string) :
  exists L T, ws_string L /\ ws_string T
              /\ s = (L ++ Str.TrimFunc s Unicode.IsSpace ++ T)%string.
Proof.
  unfold Str.TrimFunc.
  destruct (TrimLeftFunc_decomp s) as (L & HL & EL).
  destruct (TrimRightFunc_decomp (Str.TrimLeftFunc s Unicode.IsSpace))
    as (T & HT & ET).
  exists L, T. split; [assumption|]. split; [assumption|].
  now rewrite <- ET.
Qed.

Lemma take_S (n : nat) (s : string) :
  (n < String.length s)%nat ->
  exists ch, take (S n) s = (take n s ++ String ch "")%string
             /\ Utf8.at_ s (Z.of_nat n) = Utf8.byte ch.
Proof.
  revert s. induction n as [|n IH]; intros s Hn.
  - destruct s as [|c s]; [simpl in Hn; lia|]. exists c. split; reflexivity.
  - destruct s as [|c s]; [simpl in Hn; lia|].
    destruct (IH s) as (ch & E & Hat); [simpl in Hn; lia|].
    exists ch. split.
    + change (take (S (S n)) (String c s)) with (String c (take (S n) s)).
      rewrite E. reflexivity.
    + unfold Utf8.at_ in *. rewrite Nat2Z.id in *. exact Hat.
Qed.

Lemma TrimSpace_right_decomp (s : string) :
  forall stop, (stop <= String.length s)%nat ->
    exists T, ws_string T /\ take stop s = (Str.TrimSpace_right s stop ++ T)%string.
Proof.
  induction stop as [|stop IH]; intros Hstop.
  - exists "". split; [apply ws_string_nil | reflexivity].
  - cbn [Str.TrimSpace_right].
    destruct (take_S stop s) as (ch & E & Hat); [lia|]. rewrite Hat.
    destruct (Utf8.RuneSelf <=? Utf8.byte ch).
    + apply TrimRightFunc_decomp.
    + destruct (Str.asciiSpace (Utf8.byte ch)) eqn:Hsp.
      * destruct IH as (T & HT & ET); [lia|].
        exists (T ++ String ch "")%string. split.
        -- apply ws_string_app; [assumption|].
           now apply ws_string_piece, ascii_space_piece.
        -- rewrite E, ET, append_assoc. reflexivity.
      * exists "". split; [apply ws_string_nil | now rewrite append_nil_r].
Qed.

(** [strings.TrimSpace] takes a run of spaces off each end. *)
Lemma TrimSpace_decomp (s : string) :
  exists L T, ws_string L /\ ws_string T
              /\ s = (L ++ Str.TrimSpace s ++ T)%string.
Proof.
  induction s as [|c s IH].
  - exists "", "". repeat split; apply ws_string_nil.
  - cbn [Str.TrimSpace].
    destruct (Utf8.RuneSelf <=? Utf8.byte c); [apply TrimFunc_decomp|].
    destruct (Str.asciiSpace (Utf8.byte c)) eqn:Hsp.
    + destruct IH as (L & T & HL & HT & E).
      exists (String c "" ++ L)%string, T. split.
      * apply ws_string_cons; [now apply ascii_space_piece | assumption].
      * split; [assumption|]. simpl. now rewrite <- E.
    + destruct (TrimSpace_right_decomp (String c s) (String.length (String c s)) (le_n _))
        as (T & HT & E).
      exists "", T. split; [apply ws_string_nil|]. split; [assumption|].
      rewrite take_all in E by lia. exact E.
Qed.

(** ** [readMounts] *)

Lemma readMounts_loop_spec (lines : list string) :
  forall out, readMounts_loop lines out = out ++ flat_map line_entry lines.
Proof.
  induction lines as [|l lines IH]; intros out; simpl.
  - now rewrite app_nil_r.
  - unfold line_entry at 1.
    destruct (Str.Fields l) as [|p0 [|p1 [|p2 ps]]]; rewrite IH; simpl;
      try reflexivity.
    now rewrite <- app_assoc.
Qed.

Lemma Split_nosep (w : string) (sep : ascii) :
  no_sep sep w = true -> Strings.Split w sep = [w].
Proof.
  induction w as [|c w IH]; intros H; [reflexivity|].
  simpl in *. apply andb_true_iff in H as [Hc Hw].
  apply negb_true_iff in Hc. rewrite Hc, IH by assumption. reflexivity.
Qed.

Lemma Split_app_l (w x : string) (sep : ascii) :
  no_sep sep w = true ->
  exists l1 rest, Strings.Split x sep = l1 :: rest
                  /\ Strings.Split (w ++ x) sep = (w ++ l1)%string :: rest.
Proof.
  intros Hw. induction w as [|c w IH].
  - pose proof (Split_not_nil x sep).
    destruct (Strings.Split x sep) as [|l1 rest] eqn:E; [congruence|].
    exists l1, rest. auto.
  - simpl in Hw. apply andb_true_iff in Hw as [Hc Hw].
    apply negb_true_iff in Hc.
    destruct (IH Hw) as (l1 & rest & E1 & E2).
    exists l1, rest. split; [assumption|].
    simpl. now rewrite Hc, E2.
Qed.

Lemma Split_app_r (x w : string) (sep : ascii) :
  no_sep sep w = true ->
  exists init lst, Strings.Split x sep = init ++ [lst]
                   /\ Strings.Split (x ++ w) sep = init ++ [(lst ++ w)%string].
Proof.
  intros Hw. induction x as [|c x IH].
  - exists [], "". simpl. now rewrite Split_nosep.
  - destruct IH as (init & lst & E1 & E2). simpl.
    destruct (Ascii.eqb c sep).
    + exists ("" :: init), lst. now rewrite E1, E2.
    + rewrite E1, E2. destruct init as [|i0 init]; simpl.
      * exists [], (String c lst). auto.
      * exists (String c i0 :: init), lst. auto.
Qed.

(** A line without line feed, ended by one, is the first piece. *)
Lemma Split_line (l x : string) (sep : ascii) :
  no_sep sep l = true ->
  Strings.Split (l ++ String sep x) sep = l :: Strings.Split x sep.
Proof.
  induction l as [|c l IH]; intros H; simpl.
  - now rewrite Ascii.eqb_refl.
  - simpl in H. apply andb_true_iff in H as [Hc Hl].
    apply negb_true_iff in Hc. now rewrite Hc, IH.
Qed.

Lemma no_sep_app (sep : ascii) (a b : string) :
  no_sep sep (a ++ b) = no_sep sep a && no_sep sep b.
Proof.
  induction a as [|c a IH]; simpl; [reflexivity|].
  now rewrite IH, andb_assoc.
Qed.

Lemma high_not_LF (c : ascii) :
  128 <= Utf8.byte c -> Ascii.eqb c (ascii_of_nat 10) = false.
Proof.
  intros H. destruct (Ascii.eqb_spec c (ascii_of_nat 10)) as [->|]; [|reflexivity].
  vm_compute in H. exfalso. apply H. reflexivity.
Qed.

(** A space is the line feed or holds none. *)
Lemma ws_piece_sep (w : string) :
  ws_piece w -> w = LF \/ no_sep (ascii_of_nat 10) w = true.
Proof.
  intros [Hne (r & Hd & Hsp)]. destruct w as [|c s]; [congruence|].
  destruct (decode_shape _ _ _ _ Hd)
    as [(Hsz & Hlow & ->)|[(_ & _ & ->)|[(Hsz & Hlead & c1 & t & -> & H1)
       |[(Hsz & Hlead & c1 & c2 & t & -> & H1 & H2)
        |(Hsz & Hlead & c1 & c2 & c3 & t & -> & H1 & H2 & H3)]]]];
    try discriminate Hsp; unfold is_cont in *;
    cbn [String.length] in Hsz.
  - destruct s; [|simpl in Hsz; lia].
    destruct (Ascii.eqb_spec c (ascii_of_nat 10)) as [->|Hc].
    + left. reflexivity.
    + right. simpl. apply Ascii.eqb_neq in Hc. now rewrite Hc.
  - destruct t; [|simpl in Hsz; lia]. right. simpl.
    rewrite !high_not_LF by lia. reflexivity.
  - destruct t; [|simpl in Hsz; lia]. right. simpl.
    rewrite !high_not_LF by lia. reflexivity.
  - destruct t; [|simpl in Hsz; lia]. right. simpl.
    rewrite !high_not_LF by lia. reflexivity.
Qed.

Lemma line_entry_ws_l (w l : string) :
  ws_piece w -> line_entry (w ++ l) = line_entry l.
Proof. intros Hw. unfold line_entry. now rewrite Fields_ws_l. Qed.

Lemma line_entry_ws_r (l w : string) :
  ws_piece w -> line_entry (l ++ w) = line_entry l.
Proof. intros Hw. unfold line_entry. now rewrite Fields_ws_r. Qed.

Lemma parse_ws_l (w x : string) :
  ws_piece w -> parse_mounts (w ++ x) = parse_mounts x.
Proof.
  intros Hw. unfold parse_mounts.
  destruct (ws_piece_sep w Hw) as [->|Hns].
  - reflexivity.
  - destruct (Split_app_l w x _ Hns) as (l1 & rest & E1 & E2).
    rewrite E1, E2. simpl. now rewrite line_entry_ws_l.
Qed.

Lemma parse_ws_r (x w : string) :
  ws_piece w -> parse_mounts (x ++ w) = parse_mounts x.
Proof.
  intros Hw. unfold parse_mounts.
  destruct (ws_piece_sep w Hw) as [->|Hns].
  - unfold LF. rewrite Split_snoc_sep, flat_map_app. simpl.
    now rewrite app_nil_r.
  - destruct (Split_app_r x w _ Hns) as (init & lst & E1 & E2).
    rewrite E1, E2, !flat_map_app. simpl.
    now rewrite line_entry_ws_r.
Qed.

Lemma parse_ws_string_l (L x : string) :
  ws_string L -> parse_mounts (L ++ x) = parse_mounts x.
Proof.
  intros (ps & Hps & ->). induction Hps as [|p ps Hp _ IH]; [reflexivity|].
  simpl. rewrite append_assoc, parse_ws_l by assumption. exact IH.
Qed.

Lemma parse_ws_string_r (T : string) :
  ws_string T -> forall x, parse_mounts (x ++ T) = parse_mounts x.
Proof.
  intros (ps & Hps & ->). induction Hps as [|p ps Hp _ IH]; intros x.
  - simpl. now rewrite append_nil_r.
  - simpl. rewrite <- append_assoc, IH. now apply parse_ws_r.
Qed.

(** The call of [strings.TrimSpace] changes nothing: [readMounts] reads
    the first three fields of every line that has that many. *)
Lemma readMounts_parse (b : string) :
  readMounts (inl b) = inl (parse_mounts b).
Proof.
  unfold readMounts. rewrite readMounts_loop_spec. simpl. f_equal.
  destruct (TrimSpace_decomp b) as (L & T & HL & HT & E).
  change (flat_map line_entry (Strings.Split (Str.TrimSpace b) (ascii_of_nat 10)))
    with (parse_mounts (Str.TrimSpace b)).
  rewrite E at 2.
  rewrite parse_ws_string_l, parse_ws_string_r by assumption. reflexivity.
Qed.

Lemma line_entry_clean (l : string) :
  Forall (fun e => clean (m0 e) /\ clean (m1 e) /\ clean (m2 e)) (line_entry l).
Proof.
  unfold line_entry. pose proof (Fields_clean l) as H.
  destruct (Str.Fields l) as [|p0 [|p1 [|p2 ps]]]; try constructor; [|constructor].
  inversion H as [|? ? H0 H']; subst. inversion H' as [|? ? H1 H'']; subst.
  inversion H'' as [|? ? H2 _]; subst. simpl. auto.
Qed.

Lemma no_space_no_LF (s : string) :
  no_space_bytes s = true -> no_sep (ascii_of_nat 10) s = true.
Proof.
  induction s as [|c s IH]; [reflexivity|]. simpl.
  intros H. apply andb_true_iff in H as [Hc Hs]. rewrite IH by assumption.
  destruct (Ascii.eqb_spec c (ascii_of_nat 10)) as [->|]; [discriminate Hc | reflexivity].
Qed.

Lemma word_clean (s : string) : Str.Fields s = [s] -> clean s.
Proof.
  intros H. pose proof (Fields_clean s) as Hc.
  rewrite H in Hc. now inversion Hc.
Qed.

(** *** Words *)

Lemma has_space_chunks (s : string) :
  has_space s = existsb (fun c => Unicode.IsSpace (fst c)) (rune_chunks s).
Proof.
  unfold has_space, Utf8.range. rewrite range_from_offsets.
  fold (rune_chunks s). generalize 0%nat.
  induction (rune_chunks s) as [|[r bs] cs IH]; intros i; simpl; [reflexivity|].
  now rewrite IH.
Qed.

Lemma rune_chunks_consistent (s : string) : consistent (rune_chunks s).
Proof.
  unfold consistent. f_equal.
  apply rune_chunks_from_concat. lia.
Qed.

Lemma consistent_tail (c : Z * string) (cs : list (Z * string)) :
  consistent (c :: cs) -> consistent cs.
Proof.
  unfold consistent. destruct c as [r bs]. rewrite concat_bytes_cons.
  intros H. destruct (bs ++ concat_bytes cs)%string as [|c0 s0] eqn:E;
    [discriminate H|].
  rewrite rune_chunks_cons in H.
  pose proof (decode_size c0 s0) as Hsz.
  destruct (Utf8.DecodeRuneInString (String c0 s0)) as [r' size].
  cbn [fst snd] in *. injection H as Hr Hbs Hcs.
  rewrite <- Hcs at 2. f_equal.
  assert (Hlen : String.length bs = size).
  { rewrite <- Hbs. apply take_length. cbn [String.length]. lia. }
  rewrite <- Hlen, <- E. now rewrite drop_append.
Qed.

Lemma consistent_suffix (cs1 cs2 : list (Z * string)) :
  consistent (cs1 ++ cs2) -> consistent cs2.
Proof.
  induction cs1 as [|c cs1 IH]; [auto|].
  intros H. apply IH. exact (consistent_tail _ _ H).
Qed.

Lemma consistent_ok (cs : list (Z * string)) : consistent cs -> Forall chunk_ok cs.
Proof. intros H. rewrite <- H. apply rune_chunks_ok. Qed.

(** The pieces in front of a space are the runes of what they make up. *)
Lemma consistent_prefix (cs1 cs2 : list (Z * string)) :
  consistent (cs1 ++ cs2) ->
  match cs2 with
  | [] => True
  | c :: _ => Unicode.IsSpace (fst c) = true
  end ->
  consistent cs1.
Proof.
  intros H Hsp. pose proof (consistent_suffix _ _ H) as H2.
  unfold consistent in *. rewrite concat_bytes_app in H.
  rewrite rune_chunks_app, H2 in H.
  - now apply app_inv_tail in H.
  - destruct cs2 as [|[r bs] cs2]; [exact I|].
    pose proof (consistent_ok _ H2) as Hok.
    inversion Hok as [|? ? (Hne & Hd & _) _]; subst. cbn [fst snd] in *.
    rewrite concat_bytes_cons.
    apply starts_clean_app; [assumption|].
    apply ws_piece_clean_start. split; [assumption|]. exists r. auto.
Qed.

Lemma split_fields_words (cs : list (Z * string)) :
  forall cur : list (Z * string),
    consistent (cur ++ cs) ->
    forallb (fun c => negb (Unicode.IsSpace (fst c))) cur = true ->
    Forall (fun fld => is_word fld = true)
           (split_fields Unicode.IsSpace cs
              (match cur with [] => None | _ => Some (concat_bytes cur) end)).
Proof.
  assert (Hword : forall cur : list (Z * string),
             cur <> [] -> consistent cur ->
             forallb (fun c => negb (Unicode.IsSpace (fst c))) cur = true ->
             is_word (concat_bytes cur) = true).
  { intros cur Hne Hc Hall. unfold is_word.
    rewrite has_space_chunks, Hc.
    assert (Hex : existsb (fun c => Unicode.IsSpace (fst c)) cur = false).
    { clear Hne Hc. induction cur as [|c cur IH]; [reflexivity|].
      simpl in *. apply andb_true_iff in Hall as [Hc Hall].
      apply negb_true_iff in Hc. now rewrite Hc, IH. }
    rewrite Hex, andb_true_r.
    destruct cur as [|[r bs] cur]; [congruence|].
    pose proof (consistent_ok _ Hc) as Hok.
    inversion Hok as [|? ? (Hbs & _) _]; subst. cbn [snd] in Hbs.
    rewrite concat_bytes_cons.
    destruct bs; [congruence | reflexivity]. }
  induction cs as [|[r bs] cs IH]; intros cur Hc Hall.
  - rewrite app_nil_r in Hc. destruct cur as [|c cur]; simpl; [constructor|].
    constructor; [|constructor]. apply Hword; [discriminate|assumption..].
  - cbn [split_fields]. destruct (Unicode.IsSpace r) eqn:Hr.
    + assert (Hc' : consistent ([] ++ cs)).
      { apply (consistent_suffix (cur ++ [(r, bs)])). now rewrite <- app_assoc. }
      destruct cur as [|c cur].
      * apply (IH [] Hc' eq_refl).
      * constructor; [|apply (IH [] Hc' eq_refl)].
        apply Hword; [discriminate| |assumption].
        apply (consistent_prefix _ _ Hc). exact Hr.
    + assert (Hc' : consistent ((cur ++ [(r, bs)]) ++ cs))
        by now rewrite <- app_assoc.
      assert (Hall' : forallb (fun c => negb (Unicode.IsSpace (fst c)))
                              (cur ++ [(r, bs)]) = true).
      { rewrite forallb_app, Hall. simpl. now rewrite Hr. }
      specialize (IH (cur ++ [(r, bs)]) Hc' Hall').
      assert (E : match cur ++ [(r, bs)] with
                  | [] => None
                  | _ :: _ => Some (concat_bytes (cur ++ [(r, bs)]))
                  end
                  = Some (match match cur with
                                | [] => None
                                | _ :: _ => Some (concat_bytes cur)
                                end with
                          | Some w => w ++ bs
                          | None => bs
                          end)%string).
      { destruct cur as [|c cur].
        - simpl. unfold concat_bytes. simpl. reflexivity.
        - rewrite concat_bytes_app. simpl app.
          f_equal. f_equal. unfold concat_bytes. simpl. reflexivity. }
      rewrite E in IH. exact IH.
Qed.

(** The fields of a string are words. *)
Lemma Fields_words (s : string) :
  Forall (fun fld => is_word fld = true) (Str.Fields s).
Proof.
  rewrite Fields_chunks.
  apply (split_fields_words (rune_chunks s) []); [|reflexivity].
  apply rune_chunks_consistent.
Qed.

(** A word is its own single field. *)
Lemma Fields_word (s : string) : is_word s = true -> Str.Fields s = [s].
Proof.
  unfold is_word. intros H. apply andb_true_iff in H as [Hne Hsp].
  apply negb_true_iff in Hne, Hsp. apply String.eqb_neq in Hne.
  rewrite Fields_chunks. rewrite has_space_chunks in Hsp.
  pose proof (rune_chunks_from_concat (String.length s) s (le_n _)) as Hc.
  fold (rune_chunks s) in Hc.
  assert (Hgen : forall cs cur,
             existsb (fun c => Unicode.IsSpace (fst c)) cs = false ->
             cs <> [] \/ cur <> None ->
             split_fields Unicode.IsSpace cs cur
             = [(match cur with Some w => w | None => "" end
                 ++ concat_bytes cs)%string]).
  { induction cs as [|[r bs] cs IHcs]; intros cur Hex Hor.
    - destruct cur as [w|]; [|destruct Hor; congruence].
      simpl. unfold concat_bytes. simpl. now rewrite append_nil_r.
    - simpl in Hex. apply orb_false_iff in Hex as [Hr Hex].
      cbn [split_fields]. rewrite Hr, IHcs by (auto; right; discriminate).
      rewrite concat_bytes_cons. destruct cur; simpl;
        now rewrite ?append_assoc. }
  rewrite Hgen; [simpl; now rewrite Hc|assumption|].
  left. intros E. rewrite E in Hc. unfold concat_bytes in Hc. simpl in Hc.
  congruence.
Qed.

Lemma is_word_clean (s : string) : is_word s = true -> clean s.
Proof. intros H. apply word_clean, Fields_word, H. Qed.

Lemma space_piece : ws_piece " ".
Proof. apply ascii_space_piece. reflexivity. Qed.

Lemma line_entry_mount_line (e : MountEntry) (tail : string) :
  is_word (m0 e) = true -> is_word (m1 e) = true -> is_word (m2 e) = true ->
  line_entry (mount_line e tail) = [e].
Proof.
  intros H0 H1 H2. unfold line_entry, mount_line.
  rewrite !(Fields_sep _ " " _ space_piece).
  rewrite (Fields_word _ H0), (Fields_word _ H1), (Fields_word _ H2). simpl.
  now destruct e.
Qed.

Lemma mount_line_no_LF (e : MountEntry) (tail : string) :
  is_word (m0 e) = true -> is_word (m1 e) = true -> is_word (m2 e) = true ->
  no_sep (ascii_of_nat 10) tail = true ->
  no_sep (ascii_of_nat 10) (mount_line e tail) = true.
Proof.
  intros H0 H1 H2 Ht. unfold mount_line.
  rewrite !no_sep_app, Ht.
  rewrite (no_space_no_LF (m0 e)), (no_space_no_LF (m1 e)),
    (no_space_no_LF (m2 e)) by (apply is_word_clean; assumption).
  reflexivity.
Qed.

Lemma mount_table_cons (e : MountEntry) (tail : string)
      (rows : list (MountEntry * string)) :
  mount_table ((e, tail) :: rows)
  = (mount_line e tail ++ String (ascii_of_nat 10) (mount_table rows))%string.
Proof.
  unfold mount_table. simpl. rewrite append_assoc. reflexivity.
Qed.

Lemma parse_mount_table (rows : list (MountEntry * string)) :
  Forall (fun row =>
            is_word (m0 (fst row)) = true /\ is_word (m1 (fst row)) = true
            /\ is_word (m2 (fst row)) = true
            /\ no_sep (ascii_of_nat 10) (snd row) = true) rows ->
  parse_mounts (mount_table rows) = map fst rows.
Proof.
  induction 1 as [|[e tail] rows (H0 & H1 & H2 & Ht) _ IH]; [reflexivity|].
  cbn [fst snd] in *. rewrite mount_table_cons. unfold parse_mounts.
  rewrite Split_line by now apply mount_line_no_LF.
  cbn [flat_map]. rewrite line_entry_mount_line by assumption.
  simpl. f_equal. exact IH.
Qed.

(** ** Color tiers that cannot be reached *)

Lemma fin_leb_lex (s1 s2 : bool) (m1 m2 : positive) (e1 e2 : Z) :
  SFleb (S754_finite s1 m1 e1) (S754_finite s2 m2 e2) = true
  <-> match s1, s2 with
      | true, false => True
      | false, true => False
      | false, false => e1 < e2 \/ (e1 = e2 /\ (m1 <= m2)%positive)
      | true, true => e2 < e1 \/ (e1 = e2 /\ (m2 <= m1)%positive)
      end.
Proof.
  unfold SFleb, SFcompare. rewrite Pos.compare_cont_spec. simpl Pos.switch_Eq.
  destruct s1, s2; simpl; try (split; [auto | reflexivity]);
    try (split; [discriminate | tauto]);
    destruct (Z.compare_spec e1 e2); destruct (Pos.compare_spec m1 m2);
    simpl; split; intros; try reflexivity; try discriminate; try lia; subst;
    try (right; split; [reflexivity | lia]).
Qed.

(** [<=] on floats is transitive. *)
Lemma SFleb_trans (a b c : float64) :
  SFleb a b = true -> SFleb b c = true -> SFleb a c = true.
Proof.
  destruct a as [sa|sa| |sa ma ea], b as [sb|sb| |sb mb eb],
           c as [sc|sc| |sc mc ec];
    try (rewrite !fin_leb_lex; destruct sa, sb, sc; intros; try tauto; lia);
    unfold SFleb, SFcompare;
    try destruct sa; try destruct sb; try destruct sc;
    simpl; congruence.
Qed.

Lemma float_ge_trans (a b c : float64) :
  F64.ge a b = true -> F64.ge b c = true -> F64.ge a c = true.
Proof. unfold F64.ge. intros H1 H2. exact (SFleb_trans c b a H2 H1). Qed.

(** With a warning threshold of at most 70, as the default one, the
    fixed floor of 70 never decides: the tier Medium is not reached. *)
Lemma tier_Medium_unreachable (usage warn crit : float64) :
  F64.ge (of_Z 70) warn = true -> tier_of usage warn crit <> TierMedium.
Proof.
  intros Hw. unfold tier_of.
  destruct (F64.ge usage crit); [discriminate|].
  destruct (F64.ge usage warn) eqn:Hu; [discriminate|].
  destruct (F64.ge usage (of_Z 70)) eqn:H70; [|discriminate].
  rewrite (float_ge_trans _ _ _ H70 Hw) in Hu. discriminate.
Qed.

Lemma tier_High_unreachable (usage warn crit : float64) :
  F64.ge warn crit = true -> tier_of usage warn crit <> TierHigh.
Proof.
  intros Hw. unfold tier_of.
  destruct (F64.ge usage crit) eqn:Hc; [discriminate|].
  destruct (F64.ge usage warn) eqn:Hu.
  - rewrite (float_ge_trans _ _ _ Hu Hw) in Hc. discriminate.
  - destruct (F64.ge usage (of_Z 70)); discriminate.
Qed.

Lemma ForUsage_tier (usage warn crit : float64) :
  ForUsage Colors usage warn crit false = tier_color Colors (tier_of usage warn crit).
Proof.
  unfold ForUsage, tier_of.
  destruct (F64.ge usage crit); [reflexivity|].
  destruct (F64.ge usage warn); [reflexivity|].
  destruct (F64.ge usage (of_Z 70)); reflexivity.
Qed.

(** ** The mount filter, applied twice *)

Lemma Split_app_sep (a b : string) (sep : ascii) :
  Strings.Split (a ++ String sep b) sep
  = Strings.Split a sep ++ Strings.Split b sep.
Proof.
  induction a as [|c a IH]; simpl.
  - now rewrite Ascii.eqb_refl.
  - destruct (Ascii.eqb c sep); rewrite IH; [reflexivity|].
    pose proof (Split_not_nil a sep).
    destruct (Strings.Split a sep); [congruence | reflexivity].
Qed.

Lemma mem_string_app (t : string) (l1 l2 : list string) :
  mem_string t (l1 ++ l2) = mem_string t l1 || mem_string t l2.
Proof. unfold mem_string. apply existsb_app. Qed.

Lemma filter_filter {A : Type} (f g : A -> bool) (l : list A) :
  filter g (filter f l) = filter (fun x => f x && g x) l.
Proof.
  induction l as [|x l IH]; simpl; [reflexivity|].
  destruct (f x); simpl; [destruct (g x)|]; now rewrite IH.
Qed.

Lemma filterMounts_app (mounts : list MountEntry) (a b : list string) :
  filterMounts (filterMounts mounts a) b = filterMounts mounts (a ++ b).
Proof.
  rewrite !filterMounts_filter, filter_filter.
  apply filter_ext. intros m.
  now rewrite nonempty_types_app, mem_string_app, negb_orb.
Qed.

(** ** The analyzer: one query for each processed mount *)

Lemma events_of_counts (env : Env) (n : nat) (im : nat * MountEntry) :
  (List.length (stat_of env im)
   + List.length (filter is_warning (events_of env n im)) = 1)%nat
  /\ filter is_statfs (events_of env n im)
     = [EvStatfs (fst im) (m1 (snd im))].
Proof.
  unfold stat_of, events_of.
  destruct (Statfs env (fst im) (m1 (snd im)));
    destruct (fst im mod 10 =? 0)%nat; simpl; auto.
Qed.

Lemma flat_map_counts (env : Env) (n : nat) (l : list (nat * MountEntry)) :
  (List.length (flat_map (stat_of env) l)
   + List.length (filter is_warning (flat_map (events_of env n) l))
   = List.length l)%nat
  /\ filter is_statfs (flat_map (events_of env n) l)
     = map (fun im => EvStatfs (fst im) (m1 (snd im))) l.
Proof.
  induction l as [|im l [IH1 IH2]]; [split; reflexivity|].
  destruct (events_of_counts env n im) as [H1 H2].
  cbn [flat_map map]. rewrite !filter_app, !length_app, H2, IH2.
  split; [cbn [List.length]; lia | reflexivity].
Qed.

Lemma cancel_events_silent (k : nat) :
  filter is_warning (cancel_events k) = []
  /\ filter is_statfs (cancel_events k) = [].
Proof. split; reflexivity. Qed.

Lemma stat_of_never_cancelled (env : Env) (im : nat * MountEntry) :
  stat_of (never_cancelled env) im = stat_of env im.
Proof. reflexivity. Qed.

Lemma processed_never_cancelled (env : Env) (mounts : list MountEntry) :
  processed (never_cancelled env) mounts = List.length mounts.
Proof.
  unfold processed. apply processed_from_all. reflexivity.
Qed.

(** ** The usage percentage in the regular case *)

Lemma binary_round_aux_canonical_ub (mx : positive) (ex : Z) (lx : location) :
  let d := Zpos (digits2_pos mx) in
  53 <= d -> -1074 <= d + ex - 53 -> d + ex - 52 <= 971 ->
  exists r,
    binary_round_aux prec emax false (Zpos mx) ex lx
    = S754_finite false (Z.to_pos (norm_m r)) (norm_e r (ex + (d - 53)))
    /\ two52 <= r <= two53
    /\ Zpos mx / 2 ^ (d - 53) <= r <= Zpos mx / 2 ^ (d - 53) + 1.
Proof.
  intros d H1 H2 H3.
  rewrite binary_round_aux_normal by assumption. fold d.
  rewrite normalized_finite.
  eexists. split; [reflexivity|].
  pose proof (first_shift_range mx lx H1) as Hr.
  pose proof (round_nearest_even_bounds (shr_m (first_shift mx lx))
                (loc_of_shr_record (first_shift mx lx))) as Hb.
  pose proof (first_shift_m mx lx H1) as Hm. fold d in Hm.
  split; lia.
Qed.

Lemma canonical_norm (m : positive) (e : Z) :
  canonical m -> norm_m (Zpos m) = Zpos m /\ norm_e (Zpos m) e = e.
Proof.
  unfold canonical, norm_m, norm_e. intros H.
  destruct (Z.eqb_spec (Zpos m) two53); [lia | tauto].
Qed.

(** A normal number divided by itself is one. *)
Lemma div_self (m : positive) (e : Z) :
  canonical m ->
  F64.div (S754_finite false m e) (S754_finite false m e) = F64.one.
Proof.
  intros C. pose proof (canonical_digits m C) as D.
  unfold F64.div, SFdiv, SFdiv_core_binary. cbn [Zdigits2 xorb].
  rewrite D. replace (53 + e - (53 + e)) with 0 by lia.
  replace (e - e) with 0 by lia.
  change (Z.min (fexp prec emax 0) 0) with (-53).
  change (0 - -53) with 53. cbv iota.
  rewrite Z.shiftl_mul_pow2 by lia.
  assert (Hq : Z.div_eucl (Zpos m * 2 ^ 53) (Zpos m) = (2 ^ 53, 0)).
  { pose proof (Z.div_eucl_eq (Zpos m * 2 ^ 53) (Zpos m) ltac:(lia)) as Heq.
    pose proof (Z.mod_pos_bound (Zpos m * 2 ^ 53) (Zpos m) ltac:(lia)) as Hmod.
    unfold Z.modulo in Hmod.
    destruct (Z.div_eucl (Zpos m * 2 ^ 53) (Zpos m)) as [q r].
    assert (q = 2 ^ 53) by nia. subst q. f_equal. lia. }
  rewrite Hq. unfold new_location.
  destruct (Z.even (Zpos m)); reflexivity.
Qed.

Lemma div_canonical_le (mx my : positive) (ex ey : Z) :
  canonical mx -> canonical my -> -900 <= ex - ey <= 900 ->
  lex_le ex (Zpos mx) ey (Zpos my) ->
  exists m e,
    F64.div (S754_finite false mx ex) (S754_finite false my ey)
    = S754_finite false m e
    /\ canonical m
    /\ ex - ey - 53 <= e
    /\ lex_le e (Zpos m) (-52) two52.
Proof.
  intros Cx Cy He Hle.
  destruct (Z.eq_dec ex ey) as [Ee|Ee];
    [destruct (Pos.eq_dec mx my) as [Em|Em]|].
  { subst. rewrite div_self by assumption.
    exists (Z.to_pos two52), (-52). split; [reflexivity|].
    split; [unfold canonical, two52, two53; simpl; lia|].
    split; [lia|]. right. split; [reflexivity|]. unfold two52. simpl. lia. }
  all: pose proof (canonical_digits mx Cx) as Dx;
    pose proof (canonical_digits my Cy) as Dy;
    unfold F64.div, SFdiv, SFdiv_core_binary; cbn [Zdigits2 xorb];
    rewrite Dx, Dy;
    replace (53 + ex - (53 + ey)) with (ex - ey) by lia;
    rewrite fexp_normal by lia;
    rewrite Z.min_l by lia;
    replace (ex - ey - (ex - ey - 53)) with 53 by lia;
    cbv iota; rewrite Z.shiftl_mul_pow2 by lia;
    change (2 ^ 53) with two53;
    set (n := Zpos mx * two53);
    pose proof (Z.div_eucl_eq n (Zpos my) ltac:(lia)) as Heucl;
    pose proof (Z.mod_pos_bound n (Zpos my) ltac:(lia)) as Hmod;
    unfold Z.modulo in Hmod;
    destruct (Z.div_eucl n (Zpos my)) as [q r] eqn:E;
    unfold canonical, two52, two53 in Cx, Cy;
    assert (Hq : two52 <= q < 2 * two53) by (unfold n, two52, two53 in *; nia);
    destruct q as [|mq|mq]; try (unfold two52 in Hq; lia);
    assert (Hd : 52 < Zpos (digits2_pos mq) <= 54)
      by (apply digits2_pos_between; change (2 ^ 52) with two52;
          change (2 ^ 54) with (2 * two53); exact Hq);
    destruct (binary_round_aux_canonical_ub mq (ex - ey - 53)
                (new_location (Zpos my) r))
      as (r' & Er & Hr & Ht); try lia;
    rewrite Er; eexists _, _; (split; [reflexivity|]);
    (split; [now apply norm_m_canonical|]);
    pose proof (norm_e_bounds r' (ex - ey - 53 + (Zpos (digits2_pos mq) - 53))) as Hn;
    (split; [lia|]);
    rewrite norm_m_pos by assumption;
    unfold lex_le in *; unfold norm_e, norm_m in *.
  - (* equal exponents, a smaller mantissa: the quotient is below [2^53] *)
    assert (Hm : Zpos mx < Zpos my) by (destruct Hle as [|[_ ?]]; [lia|]; lia).
    assert (Hq' : Zpos mq < two53) by (unfold n, two53 in *; nia).
    assert (Hd53 : Zpos (digits2_pos mq) = 53).
    { apply digits2_pos_unique. change (2 ^ (53 - 1)) with two52.
      change (2 ^ 53) with two53. lia. }
    rewrite Hd53 in *. replace (53 - 53) with 0 in Ht by lia.
    rewrite Z.pow_0_r, Z.div_1_r in Ht.
    destruct (Z.eqb_spec r' two53); unfold two52, two53 in *; lia.
  - (* a smaller exponent *)
    assert (Hlt : ex < ey) by (destruct Hle as [|[? _]]; lia).
    destruct (Z.eqb_spec r' two53); unfold two52, two53 in *; lia.
Qed.

(** A product with one is exact. *)
Lemma mul_one_l (m : positive) (e : Z) :
  canonical m -> -900 <= e <= 900 ->
  F64.mul F64.one (S754_finite false m e) = S754_finite false m e.
Proof.
  intros C He. change F64.one with (S754_finite false 4503599627370496 (-52)).
  unfold F64.mul, SFmul. cbn [xorb].
  assert (Hp : Zpos (4503599627370496 * m) = Zpos m * 2 ^ 52)
    by (rewrite Pos2Z.inj_mul; change (2 ^ 52) with 4503599627370496; lia).
  assert (Hd : Zpos (digits2_pos (4503599627370496 * m)) = 105).
  { replace (4503599627370496 * m)%positive with (Z.to_pos (Zpos m * 2 ^ 52))
      by (rewrite <- Hp; reflexivity).
    rewrite digits2_pos_mul_pow by lia. rewrite (canonical_digits m C). lia. }
  rewrite binary_round_aux_normal by (rewrite Hd; lia).
  rewrite Hd. unfold first_shift. rewrite Hd. change (105 - 53) with 52.
  cbv iota.
  change (shr_record_of_loc (Zpos (4503599627370496 * m)) loc_Exact)
    with {| shr_m := Zpos (4503599627370496 * m); shr_r := false; shr_s := false |}.
  rewrite iter_init by lia. rewrite Hp. unfold shifted.
  cbn [shr_m loc_of_shr_record].
  rewrite Z.div_mul by lia.
  assert (Hodd : Z.odd (Zpos m * 2 ^ 52 / 2 ^ (52 - 1)) = false).
  { replace (Zpos m * 2 ^ 52) with (Zpos m * 2 * 2 ^ (52 - 1))
      by (change (2 ^ 52) with (2 * 2 ^ (52 - 1)); lia).
    rewrite Z.div_mul by lia. rewrite Z.mul_comm. apply Z.odd_even. }
  assert (Hmod : (Zpos m * 2 ^ 52) mod 2 ^ (52 - 1) = 0).
  { replace (Zpos m * 2 ^ 52) with (Zpos m * 2 * 2 ^ (52 - 1))
      by (change (2 ^ 52) with (2 * 2 ^ (52 - 1)); lia).
    apply Z.mod_mul. lia. }
  rewrite Hodd, Hmod. simpl negb. cbn [round_nearest_even].
  unfold normalized. unfold canonical in C.
  destruct (Z.eqb_spec (Zpos m) two53); [lia|].
  f_equal. lia.
Qed.

Lemma mul_canonical_le (mx my : positive) (ex ey : Z) :
  canonical mx -> canonical my -> -900 <= ex + ey <= 800 -> -900 <= ey <= 900 ->
  lex_le ex (Zpos mx) (-52) two52 ->
  exists m e,
    F64.mul (S754_finite false mx ex) (S754_finite false my ey)
    = S754_finite false m e
    /\ canonical m
    /\ lex_le e (Zpos m) ey (Zpos my).
Proof.
  intros Cx Cy He Hey Hle.
  destruct (Z.eq_dec ex (-52)) as [E52|E52].
  { (* the left factor is one *)
    assert (Hm : Zpos mx = two52) by (unfold canonical, lex_le in *; lia).
    assert (Hone : S754_finite false mx ex = F64.one).
    { subst ex. replace mx with (Z.to_pos two52) by (rewrite <- Hm; reflexivity).
      reflexivity. }
    rewrite Hone, mul_one_l by assumption.
    exists my, ey. split; [reflexivity|]. split; [assumption|].
    right. split; [reflexivity | lia]. }
  assert (Hex : ex <= -53) by (unfold lex_le in Hle; lia).
  unfold F64.mul, SFmul. cbn [xorb].
  unfold canonical in Cx, Cy.
  assert (Hp : 2 ^ 104 <= Zpos (mx * my) < 2 ^ 106).
  { rewrite Pos2Z.inj_mul. unfold two52, two53 in *.
    change (2 ^ 104) with (4503599627370496 * 4503599627370496).
    change (2 ^ 106) with (9007199254740992 * 9007199254740992). nia. }
  pose proof (digits2_pos_between _ _ _ Hp) as Hd.
  destruct (binary_round_aux_canonical_ub (mx * my) (ex + ey) loc_Exact)
    as (r & Er & Hr & Ht); try lia.
  rewrite Er. eexists _, _. split; [reflexivity|].
  split; [now apply norm_m_canonical|].
  rewrite norm_m_pos by assumption.
  set (d := Zpos (digits2_pos (mx * my))) in *.
  unfold lex_le, norm_e, norm_m.
  destruct (Z.eq_dec d 106) as [Ed|Ed]; [destruct (Z.eq_dec ex (-53)) as [E53|E53]|].
  - (* the one case in which the exponents meet *)
    rewrite Ed in *. change (106 - 53) with 53 in *.
    assert (Hlt : Zpos (mx * my) / 2 ^ 53 < Zpos my).
    { apply Z.div_lt_upper_bound; [lia|]. rewrite Pos2Z.inj_mul.
      change (2 ^ 53) with two53. unfold two52, two53 in *. nia. }
    destruct (Z.eqb_spec r two53); unfold two52, two53 in *; lia.
  - destruct (Z.eqb_spec r two53); unfold two52, two53 in *; lia.
  - destruct (Z.eqb_spec r two53); unfold two52, two53 in *; lia.
Qed.

Lemma SFleb_zero_finite (m : positive) (e : Z) :
  SFleb (S754_zero false) (S754_finite false m e) = true.
Proof. reflexivity. Qed.

(** While the used bytes do not exceed the total, the percentage lies
    between 0 and 100. *)
Lemma usagePercent_le_100 (used total : Z) :
  0 <= used <= total -> 0 < total < 2 ^ 64 ->
  F64.ge (of_Z 100) (usagePercent used total) = true
  /\ F64.ge (usagePercent used total) F64.zero = true.
Proof.
  intros Hu Ht. unfold usagePercent.
  destruct (Z.ltb_spec 0 total) as [Hpos|Hpos]; [|lia].
  destruct (of_Z_canonical total ltac:(lia)) as (mt & et & Et & Ct & Ht').
  rewrite Et, of_Z_100.
  destruct (Z.eq_dec used 0) as [->|Hnz]; [split; reflexivity|].
  destruct (of_Z_canonical used ltac:(lia)) as (mu & eu & Eu & Cu & Hu').
  pose proof (of_Z_mono used total mu mt eu et ltac:(lia) ltac:(lia) Eu Et) as Hle.
  rewrite Eu.
  destruct (div_canonical_le mu mt eu et Cu Ct ltac:(lia) Hle)
    as (mq & eq_ & Ediv & Cq & Hq & Hone).
  rewrite Ediv.
  assert (Hq' : eq_ <= -52) by (unfold lex_le in Hone; lia).
  destruct (mul_canonical_le mq hundred_m eq_ (-46) Cq hundred_canonical
              ltac:(lia) ltac:(lia) Hone) as (m & e & Em & Cm & Hm).
  rewrite Em. unfold F64.ge. split.
  - apply SFleb_lex. exact Hm.
  - reflexivity.
Qed.

(** ** The text of numbers *)

Lemma string_of_uint_no_sep (sep : ascii) (d : Decimal.uint) :
  not_digit sep = true -> no_sep sep (NilEmpty.string_of_uint d) = true.
Proof.
  intros Hsep. unfold not_digit in Hsep. apply negb_true_iff in Hsep.
  cbn [existsb] in Hsep. repeat (apply orb_false_iff in Hsep as [? Hsep]).
  induction d; cbn [NilEmpty.string_of_uint no_sep]; try reflexivity;
    rewrite IHd, andb_true_r; apply negb_true_iff;
    rewrite Ascii.eqb_sym; assumption.
Qed.

Lemma FormatUint_no_sep (sep : ascii) (n : Z) :
  not_digit sep = true -> no_sep sep (Strconv.FormatUint n) = true.
Proof.
  intros Hsep. unfold Strconv.FormatUint, NilZero.string_of_uint.
  destruct (N.to_uint (Z.to_N n)) eqn:E;
    try (rewrite <- E; now apply string_of_uint_no_sep);
    try (now apply string_of_uint_no_sep).
  cbn [no_sep]. rewrite andb_true_r. apply negb_true_iff.
  unfold not_digit in Hsep. apply negb_true_iff in Hsep. cbn [existsb] in Hsep.
  apply orb_false_iff in Hsep as [H0 _]. now rewrite Ascii.eqb_sym.
Qed.

Lemma zeros_no_sep (sep : ascii) (n : nat) :
  not_digit sep = true -> no_sep sep (Strconv.zeros n) = true.
Proof.
  intros Hsep. induction n as [|n IH]; [reflexivity|].
  cbn [Strconv.zeros append no_sep]. rewrite IH, andb_true_r. apply negb_true_iff.
  unfold not_digit in Hsep. apply negb_true_iff in Hsep. cbn [existsb] in Hsep.
  apply orb_false_iff in Hsep as [H0 _]. now rewrite Ascii.eqb_sym.
Qed.

Lemma not_numeric_digit (sep : ascii) : not_numeric sep = true -> not_digit sep = true.
Proof. unfold not_numeric. intros H. now apply andb_true_iff in H as [H _]. Qed.

Lemma FormatFloat_no_sep (sep : ascii) (x : float64) (p : nat) :
  not_numeric sep = true -> no_sep sep (Strconv.FormatFloat_f x p) = true.
Proof.
  intros Hsep. pose proof (not_numeric_digit sep Hsep) as Hd.
  unfold not_numeric in Hsep. apply andb_true_iff in Hsep as [_ Hsep].
  apply negb_true_iff in Hsep. cbn [existsb] in Hsep.
  repeat (apply orb_false_iff in Hsep as [? Hsep]).
  assert (Hc : forall c, Ascii.eqb sep c = false ->
                         negb (Ascii.eqb c sep) = true).
  { intros c Hc. apply negb_true_iff. now rewrite Ascii.eqb_sym. }
  assert (H0' : Ascii.eqb sep "0" = false).
  { unfold not_digit in Hd. apply negb_true_iff in Hd. cbn [existsb] in Hd.
    now apply orb_false_iff in Hd as [Hd _]. }
  unfold Strconv.FormatFloat_f, Strconv.pad_left.
  destruct x as [s|s| |s m e].
  - destruct s; cbn [append no_sep]; rewrite ?Hc by assumption;
      rewrite zeros_no_sep by assumption; reflexivity.
  - destruct s; cbn [append no_sep]; rewrite !Hc by assumption; reflexivity.
  - cbn [append no_sep]. rewrite !Hc by assumption. reflexivity.
  - cbv zeta. rewrite !no_sep_app, !FormatUint_no_sep, zeros_no_sep by assumption.
    destruct s; cbn [append no_sep]; rewrite !Hc by assumption; reflexivity.
Qed.

Lemma FormatUint_parse (n : Z) :
  0 <= n -> parse_decimal (Strconv.FormatUint n) = Some n.
Proof.
  intros Hn. unfold parse_decimal, Strconv.FormatUint.
  rewrite NilZero.usu.
  - rewrite DecimalN.Unsigned.of_to. f_equal. lia.
  - destruct (Z.to_N n); simpl; [discriminate|].
    apply DecimalPos.Unsigned.to_uint_nonnil.
Qed.

(** ** Splitting a text at a byte *)




Lemma Split_cells (sep : ascii) (cells : list string) (lst : string) :
  Forall (fun c => no_sep sep c = true) cells -> no_sep sep lst = true ->
  Strings.Split (join (map (fun c => c ++ String sep "")%string cells) ++ lst) sep
  = cells ++ [lst].
Proof.
  intros Hc Hl. induction Hc as [|c cells Hc _ IH]; simpl.
  - now apply Split_nosep.
  - rewrite !append_assoc. simpl append. rewrite Split_line by assumption.
    now rewrite IH.
Qed.

Lemma displayCSV_loop_spec (list_ : list FS) :
  forall out, displayCSV_loop list_ out = (out ++ join (map csv_row list_))%string.
Proof.
  induction list_ as [|d l IH]; intros out; simpl.
  - now rewrite append_nil_r.
  - now rewrite IH, append_assoc.
Qed.

Lemma csv_row_line (d : FS) : csv_row d = (csv_line d ++ LF)%string.
Proof. unfold csv_row, csv_line. now rewrite !append_assoc. Qed.

(** ** Counting runes *)

Lemma at_1 (c c1 : ascii) (t : string) :
  Utf8.at_ (String c (String c1 t)) 1 = Utf8.byte c1.
Proof. reflexivity. Qed.

Lemma at_2 (c c1 c2 : ascii) (t : string) :
  Utf8.at_ (String c (String c1 (String c2 t))) 2 = Utf8.byte c2.
Proof. reflexivity. Qed.

Lemma at_3 (c c1 c2 c3 : ascii) (t : string) :
  Utf8.at_ (String c (String c1 (String c2 (String c3 t)))) 3 = Utf8.byte c3.
Proof. reflexivity. Qed.

(** [RuneCountInString] moves on by the width [DecodeRuneInString]
    reports. *)
Lemma advance_decode (s : string) :
  Utf8.advance s = snd (Utf8.DecodeRuneInString s).
Proof.
  destruct s as [|c s]; [reflexivity|].
  unfold Utf8.advance, Utf8.DecodeRuneInString, Utf8.RuneSelf.
  destruct (Z.ltb_spec (Utf8.byte c) 128) as [Hlow|Hhigh].
  { now rewrite first_ascii. }
  destruct (Utf8.as_ <=? Utf8.first (Utf8.byte c)) eqn:Has.
  { rewrite (first_high _ Hhigh Has). reflexivity. }
  destruct (first_lead _ Has) as (Hlead & Hlo & Hhi & Hsz).
  assert (Hxx : (Utf8.first (Utf8.byte c) =? Utf8.xx) = false).
  { apply Z.eqb_neq. intros E. rewrite E in Has. discriminate Has. }
  rewrite Hxx.
  set (x := Utf8.first (Utf8.byte c)) in *.
  set (acc := Utf8.acceptRanges (Z.shiftr x 4)) in *.
  assert (Hlen : forall t, (String.length t <? Z.to_nat (Z.land x 7))%nat
                           = (Z.of_nat (String.length t) <? Z.land x 7)).
  { intros t. destruct (Nat.ltb_spec (String.length t) (Z.to_nat (Z.land x 7)));
      destruct (Z.ltb_spec (Z.of_nat (String.length t)) (Z.land x 7));
      try reflexivity; lia. }
  rewrite Hlen.
  destruct (Z.of_nat (String.length (String c s)) <? Z.land x 7) eqn:Hshort;
    [reflexivity|].
  apply Z.ltb_ge in Hshort. cbn [String.length] in Hshort.
  destruct s as [|c1 t1]; [simpl in Hshort; lia|].
  rewrite at_1.
  destruct (Utf8.outside (Utf8.byte c1) (fst acc) (snd acc)); [reflexivity|].
  destruct (Z.eq_dec (Z.land x 7) 2) as [E2|N2].
  { rewrite E2. reflexivity. }
  assert (H2 : (Z.to_nat (Z.land x 7) =? 2)%nat = false)
    by (apply Nat.eqb_neq; lia).
  assert (H2' : (Z.land x 7 <=? 2) = false) by (apply Z.leb_gt; lia).
  rewrite H2, H2'.
  destruct t1 as [|c2 t2]; [cbn [String.length] in Hshort; lia|].
  rewrite at_2.
  destruct (Utf8.outside (Utf8.byte c2) Utf8.locb Utf8.hicb); [reflexivity|].
  destruct (Z.eq_dec (Z.land x 7) 3) as [E3|N3].
  { rewrite E3. reflexivity. }
  assert (H3 : (Z.to_nat (Z.land x 7) =? 3)%nat = false)
    by (apply Nat.eqb_neq; lia).
  assert (H3' : (Z.land x 7 <=? 3) = false) by (apply Z.leb_gt; lia).
  rewrite H3, H3'.
  destruct t2 as [|c3 t3]; [cbn [String.length] in Hshort; lia|].
  rewrite at_3.
  destruct (Utf8.outside (Utf8.byte c3) Utf8.locb Utf8.hicb); [reflexivity|].
  cbn [snd]. lia.
Qed.

Lemma RuneCount_from_chunks (n : nat) :
  forall s, Utf8.RuneCount_from n s = List.length (rune_chunks_from n s).
Proof.
  induction n as [|n IH]; intros s; [reflexivity|].
  destruct s as [|c s]; [reflexivity|].
  cbn [Utf8.RuneCount_from rune_chunks_from].
  rewrite advance_decode.
  destruct (Utf8.DecodeRuneInString (String c s)) as [r size].
  cbn [snd List.length]. now rewrite IH.
Qed.

(** The number of runes is the number of iterations of a [range] loop. *)
Lemma RuneCount_chunks (s : string) :
  Utf8.RuneCountInString s = List.length (rune_chunks s).
Proof. apply RuneCount_from_chunks. Qed.

Lemma RuneCount_app (u w : string) :
  starts_clean w ->
  Utf8.RuneCountInString (u ++ w)
  = (Utf8.RuneCountInString u + Utf8.RuneCountInString w)%nat.
Proof.
  intros Hw. rewrite !RuneCount_chunks, rune_chunks_app by assumption.
  apply length_app.
Qed.

Lemma RuneCount_ascii_cons (c : ascii) (s : string) :
  Utf8.byte c < 128 ->
  Utf8.RuneCountInString (String c s) = S (Utf8.RuneCountInString s).
Proof.
  intros Hc. rewrite !RuneCount_chunks, rune_chunks_cons.
  rewrite decode_ascii by assumption. reflexivity.
Qed.

Lemma RuneCount_spaces (n : nat) : Utf8.RuneCountInString (spaces n) = n.
Proof.
  induction n as [|n IH]; [reflexivity|].
  cbn [spaces]. rewrite RuneCount_ascii_cons by (vm_compute; reflexivity).
  now rewrite IH.
Qed.

Lemma spaces_clean (n : nat) : starts_clean (spaces n).
Proof.
  destruct n; [exact I|]. simpl. unfold is_cont. vm_compute. intros [H _].
  apply H. reflexivity.
Qed.

(** [%-Ns] never cuts a string: the cell takes [N] columns, or as many
    as the string has runes when these are more. *)
Lemma padString_width (wid : nat) (s : string) :
  Utf8.RuneCountInString (padString wid s)
  = Nat.max wid (Utf8.RuneCountInString s).
Proof.
  unfold padString. rewrite RuneCount_app by apply spaces_clean.
  rewrite RuneCount_spaces. lia.
Qed.

Lemma space_cons_clean (x : string) : starts_clean (String " " x).
Proof. simpl. unfold is_cont. vm_compute. intros [H _]. apply H. reflexivity. Qed.

(** A cell followed by a blank and the rest of the line. *)
Lemma RuneCount_cell (wid : nat) (s x : string) :
  Utf8.RuneCountInString (padString wid s ++ String " " x)
  = (Nat.max wid (Utf8.RuneCountInString s) + 1 + Utf8.RuneCountInString x)%nat.
Proof.
  rewrite RuneCount_app by apply space_cons_clean.
  rewrite padString_width, RuneCount_ascii_cons by (vm_compute; reflexivity).
  lia.
Qed.

Lemma RuneCount_cell_blank (wid : nat) (s x : string) :
  Utf8.RuneCountInString (padString wid s ++ " " ++ x)
  = (Nat.max wid (Utf8.RuneCountInString s) + 1 + Utf8.RuneCountInString x)%nat.
Proof. apply RuneCount_cell. Qed.

(** ** Properties of the mount table reader *)

Lemma line_entry_words (l : string) :
  Forall (fun e => is_word (m0 e) = true /\ is_word (m1 e) = true
                   /\ is_word (m2 e) = true) (line_entry l).
Proof.
  unfold line_entry. pose proof (Fields_words l) as H.
  destruct (Str.Fields l) as [|p0 [|p1 [|p2 ps]]]; try constructor; [|constructor].
  inversion H as [|? ? H0 H']; subst. inversion H' as [|? ? H1 H'']; subst.
  inversion H'' as [|? ? H2 _]; subst. simpl. auto.
Qed.

Lemma parse_mounts_words (b : string) (e : MountEntry) :
  In e (parse_mounts b) ->
  is_word (m0 e) = true /\ is_word (m1 e) = true /\ is_word (m2 e) = true.
Proof.
  unfold parse_mounts. rewrite in_flat_map. intros (l & _ & Hin).
  pose proof (line_entry_words l) as H. rewrite Forall_forall in H.
  exact (H e Hin).
Qed.

(** X1. [readMounts] hands back the error of [os.ReadFile]; otherwise it
    returns, in the order of the file, the first three fields of every
    line that has at least three fields.  The call of
    [strings.TrimSpace] does not show in the result: the lines are those
    of the file as it is. *)
Theorem readMounts_reads_every_line :
  (forall b : string,
      readMounts (inl b)
      = inl (flat_map line_entry (Strings.Split b (ascii_of_nat 10))))
  /\ (forall (l : string) (p0 p1 p2 : string) (ps : list string),
         Str.Fields l = p0 :: p1 :: p2 :: ps ->
         line_entry l = [entry p0 p1 p2])
  /\ (forall l : string,
         (List.length (Str.Fields l) < 3)%nat -> line_entry l = [])
  /\ (forall err : Errno, readMounts (inr err) = inr err).
Proof.
  split; [exact readMounts_parse|]. split; [|split].
  - intros l p0 p1 p2 ps H. unfold line_entry. now rewrite H.
  - intros l H. unfold line_entry.
    destruct (Str.Fields l) as [|p0 [|p1 [|p2 ps]]]; try reflexivity.
    simpl in H. lia.
  - reflexivity.
Qed.

(** X2. Every entry [readMounts] returns has a device, a mount point and
    a type that are not empty and hold no space: no rune of
    [unicode.IsSpace], and so none of the ASCII bytes tab, line feed,
    vertical tab, form feed, carriage return and blank. *)
Theorem readMounts_fields_are_words
        (file : string + Errno) (mounts : list MountEntry) (e : MountEntry) :
  readMounts file = inl mounts ->
  In e mounts ->
  (is_word (m0 e) = true /\ no_space_bytes (m0 e) = true)
  /\ (is_word (m1 e) = true /\ no_space_bytes (m1 e) = true)
  /\ (is_word (m2 e) = true /\ no_space_bytes (m2 e) = true).
Proof.
  intros Hread Hin. destruct file as [b|err]; [|discriminate].
  rewrite readMounts_parse in Hread. injection Hread as <-.
  destruct (parse_mounts_words b e Hin) as (H0 & H1 & H2).
  repeat split; try assumption; now apply is_word_clean.
Qed.

(** X3. Round trip: from a mount table whose lines are a device, a mount
    point and a type, each a word, followed by anything that holds no
    line feed, [readMounts] gives back exactly the entries, in order. *)
Theorem readMounts_round_trip (rows : list (MountEntry * string)) :
  Forall (fun row =>
            is_word (m0 (fst row)) = true /\ is_word (m1 (fst row)) = true
            /\ is_word (m2 (fst row)) = true
            /\ no_sep (ascii_of_nat 10) (snd row) = true) rows ->
  readMounts (inl (mount_table rows)) = inl (map fst rows).
Proof.
  intros H. rewrite readMounts_parse. f_equal. now apply parse_mount_table.
Qed.

(** ** Properties of the mount filter *)

(** X4. Filtering twice is filtering once with both exclusion lists: the
    order of the two passes does not matter, a second pass with the same
    list changes nothing, and for the flag value the two lists are
    joined with a comma. *)
Theorem filterMounts_twice :
  (forall mounts a b,
      filterMounts (filterMounts mounts a) b = filterMounts mounts (a ++ b))
  /\ (forall mounts a b,
         filterMounts (filterMounts mounts a) b
         = filterMounts (filterMounts mounts b) a)
  /\ (forall mounts a,
         filterMounts (filterMounts mounts a) a = filterMounts mounts a)
  /\ (forall mounts x1 x2,
         filterByFlag (filterByFlag mounts x1) x2
         = filterByFlag mounts (x1 ++ "," ++ x2)).
Proof.
  split; [exact filterMounts_app|]. split; [|split].
  - intros mounts a b. rewrite !filterMounts_filter, !filter_filter.
    apply filter_ext. intros m. apply andb_comm.
  - intros mounts a. rewrite !filterMounts_filter, filter_filter.
    apply filter_ext. intros m. apply andb_diag.
  - intros mounts x1 x2. unfold filterByFlag.
    rewrite filterMounts_app. f_equal.
    change (x1 ++ "," ++ x2)%string with (x1 ++ String ","%char x2)%string.
    now rewrite Split_app_sep.
Qed.

(** ** Properties of the analyzer *)

(** X5. The analyzer queries [syscall.Statfs] exactly once for each
    mount it processes, in input order, and each query ends in exactly
    one record or one warning; once the cancellation is seen no further
    query is made. *)
Theorem analyze_one_query_per_mount (env : Env) (mounts : list MountEntry) :
  filter is_statfs (snd (analyze env mounts))
  = map (fun im => EvStatfs (fst im) (m1 (snd im)))
        (firstn (processed env mounts) (indexed mounts))
  /\ (List.length (fst (analyze env mounts))
      + List.length (filter is_warning (snd (analyze env mounts)))
      = processed env mounts)%nat
  /\ (processed env mounts <= List.length mounts)%nat.
Proof.
  rewrite analyze_trace, analyze_result, !filter_app.
  destruct (flat_map_counts env (List.length mounts)
              (firstn (processed env mounts) (indexed mounts))) as [H1 H2].
  assert (Hcancel :
            filter is_warning
              (if (processed env mounts <? List.length mounts)%nat
               then cancel_events (processed env mounts) else []) = []
            /\ filter is_statfs
                 (if (processed env mounts <? List.length mounts)%nat
                  then cancel_events (processed env mounts) else []) = []).
  { destruct (processed env mounts <? List.length mounts)%nat; split; reflexivity. }
  destruct Hcancel as [Hc1 Hc2]. rewrite Hc1, Hc2, !app_nil_r.
  pose proof (processed_le env mounts) as Hle.
  split; [exact H2|]. split; [|exact Hle].
  rewrite H1, length_firstn, indexed_length. lia.
Qed.

(** X6. What a cancelled scan returns is a prefix of what the same scan
    returns when it is not cancelled. *)
Theorem analyze_cancelled_is_prefix (env : Env) (mounts : list MountEntry) :
  exists rest,
    fst (analyze (never_cancelled env) mounts)
    = fst (analyze env mounts) ++ rest.
Proof.
  rewrite !analyze_result, processed_never_cancelled.
  exists (flat_map (stat_of env)
                   (skipn (processed env mounts) (indexed mounts))).
  rewrite <- flat_map_app, firstn_skipn.
  rewrite <- indexed_length, firstn_all.
  apply flat_map_ext. intros im. apply stat_of_never_cancelled.
Qed.

(** ** Properties of the color tiers *)

(** X7. With a warning threshold of at most 70, as the default one, the
    tier Medium is never chosen: a usage of 70 or more already reaches
    the warning threshold. *)
Theorem ForUsage_Medium_unreachable
        (usage warn crit : float64) (noColor : bool) :
  F64.ge (of_Z 70) warn = true ->
  (tier_of usage warn crit = TierCritical
   \/ tier_of usage warn crit = TierHigh
   \/ tier_of usage warn crit = TierLow)
  /\ (ForUsage Colors usage warn crit noColor = EmptyString
      \/ ForUsage Colors usage warn crit noColor = Critical Colors
      \/ ForUsage Colors usage warn crit noColor = High Colors
      \/ ForUsage Colors usage warn crit noColor = Low Colors).
Proof.
  intros Hw. pose proof (tier_Medium_unreachable usage warn crit Hw) as Hne.
  split.
  - destruct (tier_of usage warn crit); auto. congruence.
  - destruct noColor; [left; reflexivity|]. right.
    rewrite ForUsage_tier. destruct (tier_of usage warn crit); auto. congruence.
Qed.

(** X8. With a warning threshold at or above the critical one, the tier
    High is never chosen: a usage that reaches the warning threshold
    reaches the critical one. *)
Theorem ForUsage_High_unreachable
        (usage warn crit : float64) (noColor : bool) :
  F64.ge warn crit = true ->
  (tier_of usage warn crit = TierCritical
   \/ tier_of usage warn crit = TierMedium
   \/ tier_of usage warn crit = TierLow)
  /\ (ForUsage Colors usage warn crit noColor = EmptyString
      \/ ForUsage Colors usage warn crit noColor = Critical Colors
      \/ ForUsage Colors usage warn crit noColor = Medium Colors
      \/ ForUsage Colors usage warn crit noColor = Low Colors).
Proof.
  intros Hw. pose proof (tier_High_unreachable usage warn crit Hw) as Hne.
  split.
  - destruct (tier_of usage warn crit); auto. congruence.
  - destruct noColor; [left; reflexivity|]. right.
    rewrite ForUsage_tier. destruct (tier_of usage warn crit); auto. congruence.
Qed.

(** ** Properties of the run as a whole *)


(** ** Properties of the sorter *)

(** X10. A sort key other than [usage] and [size] sorts as [mount]
    does. *)
Theorem sortFS_unknown_key (list_ : list FS) (by_ : string) :
  sortFS list_ by_
  = sortFS list_ (if (by_ =? "usage")%string || (by_ =? "size")%string
                  then by_ else "mount").
Proof.
  destruct (by_ =? "usage")%string eqn:Hu; [reflexivity|].
  destruct (by_ =? "size")%string eqn:Hs; [reflexivity|].
  cbn [orb]. unfold sortFS, sortFS_less. rewrite Hu, Hs.
  destruct (by_ =? "mount")%string; reflexivity.
Qed.

(** ** Properties of the usage percentage *)

(** X11. When the available bytes do not exceed the total, nothing
    wraps and the usage lies between 0 and 100. *)
Theorem usage_between_0_and_100 (m : MountEntry) (s : Statfs_t) :
  0 < Total (mkFS m s) ->
  Free (mkFS m s) <= Total (mkFS m s) ->
  Used (mkFS m s) = Total (mkFS m s) - Free (mkFS m s)
  /\ F64.ge (Usage (mkFS m s)) F64.zero = true
  /\ F64.ge (of_Z 100) (Usage (mkFS m s)) = true
  /\ F64.is_finite (Usage (mkFS m s)) = true.
Proof.
  intros Hpos Hle.
  destruct (mkFS_in_range m s) as (Ht & Hf & Hu).
  unfold U64.in_range, U64.modulus in Ht, Hf, Hu.
  assert (Hused : Used (mkFS m s) = Total (mkFS m s) - Free (mkFS m s)).
  { change (Used (mkFS m s))
      with ((Total (mkFS m s) - Free (mkFS m s)) mod 2 ^ 64).
    apply Z.mod_small. lia. }
  split; [exact Hused|].
  change (Usage (mkFS m s))
    with (usagePercent (Used (mkFS m s)) (Total (mkFS m s))).
  destruct (usagePercent_le_100 (Used (mkFS m s)) (Total (mkFS m s)))
    as [H100 H0]; try lia.
  split; [exact H0|]. split; [exact H100|].
  apply usagePercent_finite; lia.
Qed.

(** ** Properties of the CSV renderer *)

Lemma LF_not_numeric : not_numeric (ascii_of_nat 10) = true.
Proof. reflexivity. Qed.

Lemma comma_not_numeric : not_numeric ","%char = true.
Proof. reflexivity. Qed.

Lemma csv_line_cells (d : FS) :
  csv_line d
  = (join (map (fun c => c ++ String ","%char "")%string
               [Device d; Mount d; Type_ d; Strconv.FormatUint (Total d);
                Strconv.FormatUint (Used d); Strconv.FormatUint (Free d)])
     ++ Strconv.FormatFloat_f (Usage d) 2)%string.
Proof.
  unfold csv_line, join. cbn [map fold_right].
  rewrite !append_assoc. cbn [append]. reflexivity.
Qed.

(** X12. Round trip of the CSV output: when no device, mount point or
    type holds a comma or a line feed, the output cut at the line feeds
    is the header and one line for each record, in order, and each line
    cut at the commas is its seven cells; the three sizes read back as
    decimal numerals are the numbers of the record. *)
Theorem displayCSV_round_trip (list_ : list FS) :
  Forall (fun d => csv_safe (Device d) = true /\ csv_safe (Mount d) = true
                   /\ csv_safe (Type_ d) = true) list_ ->
  Strings.Split (displayCSV list_) (ascii_of_nat 10)
  = "Device,Mount,Type,Total,Used,Free,Usage" :: map csv_line list_ ++ [""]
  /\ Forall (fun d => Strings.Split (csv_line d) ","%char = csv_cells d) list_
  /\ (forall n, 0 <= n -> parse_decimal (Strconv.FormatUint n) = Some n).
Proof.
  intros Hsafe.
  assert (Hcells : Forall (fun d => Strings.Split (csv_line d) ","%char
                                    = csv_cells d
                                    /\ no_sep (ascii_of_nat 10) (csv_line d) = true)
                          list_).
  { eapply Forall_impl; [|exact Hsafe]. intros d (HD & HM & HT).
    unfold csv_safe in *.
    apply andb_true_iff in HD as [HD1 HD2].
    apply andb_true_iff in HM as [HM1 HM2].
    apply andb_true_iff in HT as [HT1 HT2].
    split.
    - rewrite csv_line_cells, Split_cells; [reflexivity| |].
      + repeat constructor; try assumption;
          apply FormatUint_no_sep; reflexivity.
      + apply FormatFloat_no_sep. reflexivity.
    - unfold csv_line. rewrite !no_sep_app, HD2, HM2, HT2.
      rewrite !FormatUint_no_sep by reflexivity.
      rewrite FormatFloat_no_sep by reflexivity. reflexivity. }
  split; [|split].
  - unfold displayCSV. rewrite displayCSV_loop_spec. unfold csv_header.
    rewrite append_assoc.
    change (LF ++ join (map csv_row list_))%string
      with (String (ascii_of_nat 10) (join (map csv_row list_))).
    rewrite Split_line by reflexivity. f_equal.
    rewrite <- (append_nil_r (join (map csv_row list_))).
    rewrite (map_ext csv_row (fun d => (csv_line d ++ String (ascii_of_nat 10) "")%string))
      by (intros d; apply csv_row_line).
    rewrite <- (map_map csv_line (fun c => (c ++ String (ascii_of_nat 10) "")%string)).
    apply Split_cells; [|reflexivity].
    apply Forall_map. eapply Forall_impl; [|exact Hcells]. intros d [_ H]. exact H.
  - eapply Forall_impl; [|exact Hcells]. intros d [H _]. exact H.
  - exact FormatUint_parse.
Qed.


(** ** Properties of the table renderer *)

Lemma table_cells_count (device mount type_ total used free : string) :
  Utf8.RuneCountInString (table_cells device mount type_ total used free)
  = table_cells_width device mount type_ total used free.
Proof.
  unfold table_cells, table_cells_width.
  rewrite <- (append_nil_r " ") at 6.
  rewrite !RuneCount_cell_blank.
  change (Utf8.RuneCountInString "") with 0%nat. lia.
Qed.

(** X14. The columns of the table: a line is its six cells, each padded
    to the width of its column and never cut, followed by the usage; the
    cells take 94 columns, as those of the header do, as soon as the
    device and the mount point have at most 25 runes, the type at most 8
    and the three sizes at most 10.  The usage is wrapped in a color and
    the reset sequence, or in nothing under [-no-color]. *)
Theorem displayTable_columns (d : FS) (config : Config) (line : string) :
  table_row d config = Some line ->
  exists total used free color reset,
    fmtBytes (Total d) (HumanReadable config) = Some total
    /\ fmtBytes (Used d) (HumanReadable config) = Some used
    /\ fmtBytes (Free d) (HumanReadable config) = Some free
    /\ line = (table_cells (Device d) (Mount d) (Type_ d) total used free
               ++ color ++ Strconv.FormatFloat_f (Usage d) 2 ++ "%" ++ reset
               ++ LF)%string
    /\ Utf8.RuneCountInString
         (table_cells (Device d) (Mount d) (Type_ d) total used free)
       = table_cells_width (Device d) (Mount d) (Type_ d) total used free
    /\ ((Utf8.RuneCountInString (Device d) <= 25)%nat ->
        (Utf8.RuneCountInString (Mount d) <= 25)%nat ->
        (Utf8.RuneCountInString (Type_ d) <= 8)%nat ->
        (Utf8.RuneCountInString total <= 10)%nat ->
        (Utf8.RuneCountInString used <= 10)%nat ->
        (Utf8.RuneCountInString free <= 10)%nat ->
        table_cells_width (Device d) (Mount d) (Type_ d) total used free = 94%nat)
    /\ table_header
       = (table_cells "Device" "Mount" "Type" "Total" "Used" "Free"
          ++ "Usage" ++ LF)%string
    /\ table_cells_width "Device" "Mount" "Type" "Total" "Used" "Free" = 94%nat
    /\ (if NoColor config
        then color = EmptyString /\ reset = EmptyString
        else color = tier_color Colors
                       (tier_of (Usage d) (WarnThreshold config)
                                (CritThreshold config))
             /\ reset = Reset Colors).
Proof.
  unfold table_row. intros H.
  destruct (fmtBytes (Total d) (HumanReadable config)) as [total|]; [|discriminate].
  destruct (fmtBytes (Used d) (HumanReadable config)) as [used|]; [|discriminate].
  destruct (fmtBytes (Free d) (HumanReadable config)) as [free|]; [|discriminate].
  injection H as <-.
  exists total, used, free,
    (ForUsage Colors (Usage d) (WarnThreshold config) (CritThreshold config)
              (NoColor config)),
    (if (ForUsage Colors (Usage d) (WarnThreshold config) (CritThreshold config)
                  (NoColor config) =? "")%string
     then EmptyString else Reset Colors).
  repeat (split; [reflexivity|]).
  split.
  { unfold table_cells. rewrite !append_assoc. reflexivity. }
  split; [apply table_cells_count|].
  split; [unfold table_cells_width; lia|].
  split.
  { unfold table_header, table_cells. rewrite !append_assoc. reflexivity. }
  split; [reflexivity|].
  destruct (NoColor config); [split; reflexivity|].
  rewrite ForUsage_tier.
  split; [reflexivity|].
  destruct (tier_of (Usage d) (WarnThreshold config) (CritThreshold config));
    reflexivity.
Qed.

(** ** Instances of the further properties on the sample data *)

(** X2 on a mount table with blanks and short lines. *)
Lemma readMounts_fields_sample :
  (is_word "/dev/sdb1" = true /\ no_space_bytes "/dev/sdb1" = true)
  /\ (is_word "/home" = true /\ no_space_bytes "/home" = true)
  /\ (is_word "xfs" = true /\ no_space_bytes "xfs" = true).
Proof.
  apply (readMounts_fields_are_words (inl sample_mounts_text)
           [entry "/dev/sdb1" "/home" "xfs"] (entry "/dev/sdb1" "/home" "xfs")).
  - vm_compute. reflexivity.
  - left. reflexivity.
Defined.

(** X3 on a table of two lines. *)
Lemma readMounts_round_trip_sample :
  readMounts (inl (mount_table sample_rows)) = inl (map fst sample_rows).
Proof.
  apply (readMounts_round_trip sample_rows).
  repeat constructor; vm_compute; reflexivity.
Defined.

(** X7 with the default thresholds, at a usage of 75. *)
Lemma ForUsage_default_thresholds :
  (tier_of (of_Z 75) (WarnThreshold defaultConfig) (CritThreshold defaultConfig)
   = TierCritical
   \/ tier_of (of_Z 75) (WarnThreshold defaultConfig) (CritThreshold defaultConfig)
      = TierHigh
   \/ tier_of (of_Z 75) (WarnThreshold defaultConfig) (CritThreshold defaultConfig)
      = TierLow)
  /\ (ForUsage Colors (of_Z 75) (WarnThreshold defaultConfig)
               (CritThreshold defaultConfig) false = EmptyString
      \/ ForUsage Colors (of_Z 75) (WarnThreshold defaultConfig)
                  (CritThreshold defaultConfig) false = Critical Colors
      \/ ForUsage Colors (of_Z 75) (WarnThreshold defaultConfig)
                  (CritThreshold defaultConfig) false = High Colors
      \/ ForUsage Colors (of_Z 75) (WarnThreshold defaultConfig)
                  (CritThreshold defaultConfig) false = Low Colors).
Proof.
  apply (ForUsage_Medium_unreachable (of_Z 75) (WarnThreshold defaultConfig)
           (CritThreshold defaultConfig) false).
  reflexivity.
Defined.

(** X8 with a warning threshold of 90 above a critical one of 80. *)
Lemma ForUsage_swapped_thresholds :
  (tier_of (of_Z 85) (of_Z 90) (of_Z 80) = TierCritical
   \/ tier_of (of_Z 85) (of_Z 90) (of_Z 80) = TierMedium
   \/ tier_of (of_Z 85) (of_Z 90) (of_Z 80) = TierLow)
  /\ (ForUsage Colors (of_Z 85) (of_Z 90) (of_Z 80) false = EmptyString
      \/ ForUsage Colors (of_Z 85) (of_Z 90) (of_Z 80) false = Critical Colors
      \/ ForUsage Colors (of_Z 85) (of_Z 90) (of_Z 80) false = Medium Colors
      \/ ForUsage Colors (of_Z 85) (of_Z 90) (of_Z 80) false = Low Colors).
Proof.
  apply (ForUsage_High_unreachable (of_Z 85) (of_Z 90) (of_Z 80) false).
  reflexivity.
Defined.

(** X12 on one record. *)
Lemma displayCSV_sample :
  Strings.Split (displayCSV [sample_record]) (ascii_of_nat 10)
  = "Device,Mount,Type,Total,Used,Free,Usage"
      :: map csv_line [sample_record] ++ [""]
  /\ Forall (fun d => Strings.Split (csv_line d) ","%char = csv_cells d)
            [sample_record]
  /\ (forall n, 0 <= n -> parse_decimal (Strconv.FormatUint n) = Some n).
Proof.
  apply (displayCSV_round_trip [sample_record]).
  repeat constructor.
Defined.

(** X14 on one record, with the default configuration. *)
Lemma displayTable_sample :
  exists total used free color reset,
    fmtBytes (Total sample_record) true = Some total
    /\ fmtBytes (Used sample_record) true = Some used
    /\ fmtBytes (Free sample_record) true = Some free
    /\ ("/dev/sda1                 /                         ext4     3.8 GiB    2.9 GiB    976.6 MiB  "
          ++ High Colors ++ "75.00%" ++ Reset Colors ++ LF)%string
       = (table_cells (Device sample_record) (Mount sample_record)
                      (Type_ sample_record) total used free
          ++ color ++ Strconv.FormatFloat_f (Usage sample_record) 2 ++ "%"
          ++ reset ++ LF)%string
    /\ Utf8.RuneCountInString
         (table_cells (Device sample_record) (Mount sample_record)
                      (Type_ sample_record) total used free)
       = table_cells_width (Device sample_record) (Mount sample_record)
                           (Type_ sample_record) total used free
    /\ ((Utf8.RuneCountInString (Device sample_record) <= 25)%nat ->
        (Utf8.RuneCountInString (Mount sample_record) <= 25)%nat ->
        (Utf8.RuneCountInString (Type_ sample_record) <= 8)%nat ->
        (Utf8.RuneCountInString total <= 10)%nat ->
        (Utf8.RuneCountInString used <= 10)%nat ->
        (Utf8.RuneCountInString free <= 10)%nat ->
        table_cells_width (Device sample_record) (Mount sample_record)
                          (Type_ sample_record) total used free = 94%nat)
    /\ table_header
       = (table_cells "Device" "Mount" "Type" "Total" "Used" "Free"
          ++ "Usage" ++ LF)%string
    /\ table_cells_width "Device" "Mount" "Type" "Total" "Used" "Free" = 94%nat
    /\ (if NoColor defaultConfig
        then color = EmptyString /\ reset = EmptyString
        else color = tier_color Colors
                       (tier_of (Usage sample_record)
                                (WarnThreshold defaultConfig)
                                (CritThreshold defaultConfig))
             /\ reset = Reset Colors).
Proof.
  apply (displayTable_columns sample_record defaultConfig).
  vm_compute. reflexivity.
Defined.

(** X11 on a device of which a quarter is available. *)
Lemma usage_sample :
  Used sample_record = Total sample_record - Free sample_record
  /\ F64.ge (Usage sample_record) F64.zero = true
  /\ F64.ge (of_Z 100) (Usage sample_record) = true
  /\ F64.is_finite (Usage sample_record) = true.
Proof.
  apply (usage_between_0_and_100 (entry "/dev/sda1" "/" "ext4")
           {| Blocks := 1000000; Bsize := 4096; Bavail := 250000 |});
    vm_compute; [reflexivity | discriminate].
Defined.
